(** * triematch: the prefix-tree store of [src/Trie.js]

    The store is a JavaScript class whose two fields, [rootSocket] and
    [table], are plain objects used as dictionaries, and whose tree cells are
    [Node] objects that are shared between the tree and the [table].  The
    embedding keeps that sharing: [Node] objects live in an object store
    ([heap]) and are named by their address, sockets and the table hold
    addresses, and every method is a function on the whole state.

    The table is created as [{}], so it inherits from [Object.prototype]:
    reading [this.table[key]] follows the prototype chain, and the
    assignment [this.table['__proto__'] = node] replaces the prototype
    instead of creating a property.  Both are part of the embedding. *)

From Stdlib Require Import ZArith Lia Ascii.
From stdpp Require Import base list sets strings sorting.

#[local] Set Warnings "-clear-no-such-hyp,-register-all".

(** ** JavaScript values and plain objects *)

(** The payload type of the store is JavaScript's [any].  The methods hand
    payloads on without looking at them; what they need is the value
    [undefined], which reading an absent property yields. *)
Class JSVal (val : Type) := undefined : val.

(** In one place the code does look at a payload: once a node is the
    prototype of the table, [this.table['value']] is the payload of that
    node, and [get] and [remove] take it for a node.  What they then ask of
    the payload [v], and do to it, is what this class gives.  Payloads are
    data, primitive values or objects with plain properties, and a payload
    is described by its value: the node that holds a payload which [remove]
    has changed holds the changed payload. *)
Class JSPayload (val : Type) `{!JSVal val} := {
  (** [v] is truthy *)
  val_truthy : val → bool;
  (** [v.value], for a truthy [v] *)
  val_value : val → val;
  (** [Object.keys(v.socket).length] for a truthy [v]; [None] when
      [v.socket] is [undefined] or [null] and [Object.keys] throws *)
  val_socket_keys : val → option nat;
  (** [v] after [delete v.name] and [delete v.value] *)
  val_unlabel : val → val;
  val_truthy_undefined : val_truthy undefined = false;
}.

(** A payload type for examples: a number, or [undefined]. *)
#[global] Instance option_JSVal {A : Type} : JSVal (option A) := None.

(** The number 0 is falsy; a number has no property [value] and no property
    [socket], and [delete] leaves it as it is. *)
#[global] Instance number_JSPayload : JSPayload (option nat) := {|
  val_truthy v := match v with Some (S _) => true | _ => false end;
  val_value _ := None;
  val_socket_keys _ := None;
  val_unlabel v := v;
  val_truthy_undefined := eq_refl;
|}.

(** A plain object used as a dictionary: its own properties in the order of
    their creation.  [obj_get o k] is [o[k]], [obj_set] is [o[k] = a] (an
    existing property keeps its place, a new one goes last), [obj_delete] is
    [delete o[k]].  These are the own properties; what the table inherits
    is described with the table below.  A socket has keys of one character,
    and no property of [Object.prototype] has such a name, so that reading
    a socket never finds an inherited property. *)
Fixpoint obj_get {K A} `{EqDecision K} (k : K) (o : list (K * A)) : option A :=
  match o with
  | [] => None
  | (k', a) :: o' => if decide (k' = k) then Some a else obj_get k o'
  end.

Fixpoint obj_set {K A} `{EqDecision K} (k : K) (a : A) (o : list (K * A))
  : list (K * A) :=
  match o with
  | [] => [(k, a)]
  | (k', a') :: o' =>
      if decide (k' = k) then (k', a) :: o' else (k', a') :: obj_set k a o'
  end.

Fixpoint obj_delete {K A} `{EqDecision K} (k : K) (o : list (K * A))
  : list (K * A) :=
  match o with
  | [] => []
  | (k', a') :: o' =>
      if decide (k' = k) then obj_delete k o' else (k', a') :: obj_delete k o'
  end.

(** Addresses of [Node] objects. *)
Definition loc := nat.

(** A socket is the object [node.socket]: one property per child, named by a
    single character (one code unit of the key). *)
Definition Socket := list (ascii * loc).

(** [Object.keys] of a socket.  ECMAScript lists own property keys that are
    array indices first, in ascending numeric order, and the other string
    keys after them in creation order (OrdinaryOwnPropertyKeys).  Among
    one-character keys the array indices are the ten digits. *)
Definition digits : list ascii :=
  ["0"; "1"; "2"; "3"; "4"; "5"; "6"; "7"; "8"; "9"]%char.

Definition is_index_key (c : ascii) : bool := bool_decide (c ∈ digits).

Definition Object_keys (s : Socket) : list ascii :=
  filter (λ d, is_Some (obj_get d s)) digits
  ++ filter (λ c, ¬ is_index_key c) s.*1.

(** The order of creation of the properties, which is the order of
    [Object.keys] when no key is an array index. *)
Definition insertion_order (s : Socket) : list ascii := s.*1.

(** ** Nodes and the store *)

Section Trie.
Context {val : Type} `{!JSVal val} `{!JSPayload val}.

(** Modelled from the spec: the class [Node] of [src/Node.js], which is not
    part of the sources at hand.  Per the data model a node has its children
    mapping ([socket]), the key it terminates ([name], absent on a node that
    is not terminal) and the payload ([value], absent likewise), and nothing
    else: the class has no method. *)
Record Node := mkNode {
  socket : Socket;
  name : option string;
  value : val;
}.

(** Modelled from the spec: [new Node()], a node with no child, no key and
    no value. *)
Definition new_Node : Node := mkNode [] None undefined.

(** The state: the two fields of the class and the object store holding the
    nodes.  The object [this.table] is its own properties ([table]) and its
    prototype ([table_proto]): [None] is [Object.prototype], which the table
    has from [{}], and [Some l] is the node at [l], which it has once
    [this.table['__proto__'] = node] has run.  Nodes that are no longer
    referenced stay in [heap]. *)
Record Trie := mkTrie {
  rootSocket : Socket;
  table : list (string * loc);
  table_proto : option loc;
  heap : list Node;
}.

(** [constructor ()] *)
Definition new_Trie : Trie := mkTrie [] [] None [].

(** Reading the object at an address.  No method ever holds an address that
    was not allocated, so the default is never read in a store built by the
    methods. *)
Definition deref (h : list Node) (l : loc) : Node :=
  match h !! l with Some n => n | None => new_Node end.

(** The variable [node] of [set], [remove] and [_getClosestNode] is either
    the temporary [new Node({ socket: this.rootSocket })], which shares the
    root socket and has neither key nor value, or a node of the store. *)
Inductive ref := Root | At (l : loc).

Definition socket_of (t : Trie) (r : ref) : Socket :=
  match r with Root => rootSocket t | At l => socket (deref (heap t) l) end.

Definition name_of (t : Trie) (r : ref) : option string :=
  match r with Root => None | At l => name (deref (heap t) l) end.

Definition value_of (t : Trie) (r : ref) : val :=
  match r with Root => undefined | At l => value (deref (heap t) l) end.

(** [node.socket = s], through the sharing. *)
Definition put_socket (t : Trie) (r : ref) (s : Socket) : Trie :=
  match r with
  | Root => mkTrie s (table t) (table_proto t) (heap t)
  | At l =>
      let n := deref (heap t) l in
      mkTrie (rootSocket t) (table t) (table_proto t)
             (<[l := mkNode s (name n) (value n)]> (heap t))
  end.

(** Truthiness of [node.name]: absent and the empty string are falsy. *)
Definition truthy (nm : option string) : bool :=
  match nm with Some (String _ _) => true | _ => false end.

(** *** Reading and writing the table *)

(** The names of the properties of [Object.prototype], the accessor
    [__proto__] excepted.  They are functions. *)
Definition Object_prototype_names : list string :=
  ["constructor"; "__defineGetter__"; "__defineSetter__"; "hasOwnProperty";
   "__lookupGetter__"; "__lookupSetter__"; "isPrototypeOf";
   "propertyIsEnumerable"; "toString"; "valueOf"; "toLocaleString"].

(** What [this.table[query]] is. *)
Inductive looked :=
  | Found (l : loc)      (** a node *)
  | Payload (l : loc)    (** the payload of the node [l], which is the
                             prototype of the table *)
  | Foreign              (** a truthy value that has neither a property
                             [value] nor a property [socket]: a function of
                             [Object.prototype], [Object.prototype] itself,
                             a socket, a key *)
  | Absent.              (** [undefined] *)

(** [this.table[query]]: an own property first; then [__proto__] reads the
    prototype; then the properties of the prototype, when it is a node, in
    the order [socket], [name], [value]; then those of [Object.prototype]
    (a node has [Node.prototype] in between, whose one property,
    [constructor], is a function as well).  The key of a node is never the
    empty string, so that a falsy [name] is an absent one. *)
Definition table_get (t : Trie) (query : string) : looked :=
  match obj_get query (table t) with
  | Some l => Found l
  | None =>
      if decide (query = "__proto__") then
        match table_proto t with Some l => Found l | None => Foreign end
      else
        let inherited :=
          if bool_decide (query ∈ Object_prototype_names) then Foreign
          else Absent in
        match table_proto t with
        | None => inherited
        | Some l =>
            let n := deref (heap t) l in
            if decide (query = "socket") then Foreign
            else if decide (query = "name") then
              if truthy (name n) then Foreign else Absent
            else if decide (query = "value") then Payload l
            else inherited
        end
  end.

(** [this.table[key] = node]: the key [__proto__] runs the setter of
    [Object.prototype], which makes the node the prototype of the table;
    every other key creates or overwrites an own property (the inherited
    properties are writable). *)
Definition table_put (t : Trie) (key : string) (l : loc) : Trie :=
  if decide (key = "__proto__")
  then mkTrie (rootSocket t) (table t) (Some l) (heap t)
  else mkTrie (rootSocket t) (obj_set key l (table t)) (table_proto t) (heap t).

(** *** get: [node && node.value] *)
Definition get (t : Trie) (query : string) : val :=
  match table_get t query with
  | Found l => value (deref (heap t) l)
  | Payload l =>
      let v := value (deref (heap t) l) in
      if val_truthy v then val_value v else v
  | Foreign | Absent => undefined
  end.

(** *** _getClosestNode: [None] is the [null] result. *)
Fixpoint closest (t : Trie) (node : ref) (query : string) : option ref :=
  match query with
  | EmptyString => Some node
  | String char rest =>
      match obj_get char (socket_of t node) with
      | None => None
      | Some l => closest t (At l) rest
      end
  end.

Definition _getClosestNode (t : Trie) (query : string) : option ref :=
  closest t Root query.

(** *** match *)

(** [count && result.length >= count] *)
Definition limit_reached (count : option Z) (result : list val) : bool :=
  match count with
  | Some c => negb (c =? 0)%Z && (c <=? Z.of_nat (length result))%Z
  | None => false
  end.

(** The loop of [match].  The array [points] is kept with its last element
    first, so [push] is a cons and [pop] takes the head.  Besides [result]
    the loop records the nodes on which its body ran ([visited]); that
    record is not part of the program and does not influence it.  The loop
    runs for as long as the store makes it, so it takes fuel; [None] means
    that the fuel ran out. *)
Fixpoint match_loop (fuel : nat) (t : Trie) (count : option Z)
    (node : ref) (points : list loc) (result : list val) (visited : list ref)
  : option (list val * list ref) :=
  match fuel with
  | O => None
  | S fuel =>
      if limit_reached count result then Some (result, visited) else
      let sockets := Object_keys (socket_of t node) in
      let socketCount := length sockets in
      let visited := visited ++ [node] in
      let result :=
        if truthy (name_of t node) then result ++ [value_of t node] else result in
      match sockets with
      | [] =>
          match points with
          | [] => Some (result, visited)
          | next :: points => match_loop fuel t count (At next) points result visited
          end
      | char :: others =>
          let points :=
            if 2 <=? socketCount
            then rev (omap (λ c, obj_get c (socket_of t node)) others) ++ points
            else points in
          match obj_get char (socket_of t node) with
          | Some l => match_loop fuel t count (At l) points result visited
          | None => None
          end
      end
  end.

Definition match_run (fuel : nat) (t : Trie) (query : string) (count : option Z)
  : option (list val * list ref) :=
  match query with
  | EmptyString => Some ([], [])
  | _ =>
      match _getClosestNode t query with
      | None => Some ([], [])
      | Some closestNode => match_loop fuel t count closestNode [] [] []
      end
  end.

Definition match_ (fuel : nat) (t : Trie) (query : string) (count : option Z)
  : option (list val) :=
  fst <$> match_run fuel t query count.

(** *** set *)

(** The loop of [set]: follow the edge of each character, creating the node
    when the edge is missing; returns the store and the node reached. *)
Fixpoint set_loop (t : Trie) (node : ref) (key : string) : Trie * ref :=
  match key with
  | EmptyString => (t, node)
  | String char rest =>
      match obj_get char (socket_of t node) with
      | Some l => set_loop t (At l) rest
      | None =>
          let l := length (heap t) in
          let t1 := mkTrie (rootSocket t) (table t) (table_proto t)
                           (heap t ++ [new_Node]) in
          let t2 := put_socket t1 node (obj_set char l (socket_of t1 node)) in
          set_loop t2 (At l) rest
      end
  end.

(** [node.name = nm; node.value = v] *)
Definition label (t : Trie) (l : loc) (nm : option string) (v : val) : Trie :=
  mkTrie (rootSocket t) (table t) (table_proto t)
         (<[l := mkNode (socket (deref (heap t) l)) nm v]> (heap t)).

Definition set (t : Trie) (key : string) (v : val) : Trie :=
  match key with
  | EmptyString => t
  | _ =>
      match set_loop t Root key with
      | (t', At l) => table_put (label t' l (Some key) v) key l
      | (t', Root) => t'
      end
  end.

(** *** reset: both fields are new objects *)
Definition reset (t : Trie) : Trie := mkTrie [] [] None (heap t).

(** *** remove *)

(** The second walk of [remove].  [point] is the last pair of a node and an
    edge character at which the node had a key or at least two children.
    [None] is the early [return] on a missing edge. *)
Fixpoint remove_walk (t : Trie) (node : ref) (point : option (ref * ascii))
    (query : string) : option (option (ref * ascii)) :=
  match query with
  | EmptyString => Some point
  | String char rest =>
      match obj_get char (socket_of t node) with
      | None => None
      | Some l =>
          let point :=
            if truthy (name_of t node)
               || (2 <=? length (Object_keys (socket_of t node)))
            then Some (node, char) else point in
          remove_walk t (At l) point rest
      end
  end.

(** [delete this.table[query]] removes an own property; the prototype
    stays. *)
Definition table_delete (t : Trie) (query : string) : Trie :=
  mkTrie (rootSocket t) (obj_delete query (table t)) (table_proto t) (heap t).

(** [remove] from the second walk on. *)
Definition remove_prune (t : Trie) (query : string) : Trie :=
  match remove_walk t Root None query with
  | None => t
  | Some None => reset t
  | Some (Some (node, char)) =>
      table_delete (put_socket t node (obj_delete char (socket_of t node))) query
  end.

(** [remove] once [end] is the node at [e]. *)
Definition remove_node (t : Trie) (query : string) (e : loc) : Trie :=
  let endSockets := length (Object_keys (socket (deref (heap t) e))) in
  if negb (endSockets =? 0)
  then table_delete (label t e None undefined) query
  else remove_prune t query.

(** A call returns, with the store it leaves, or throws a TypeError. *)
Inductive outcome :=
  | Returns (t : Trie)
  | Throws.

(** [remove] with a payload as [end]: a falsy payload ends the call; for a
    truthy one [Object.keys(end.socket)] throws, or has keys, and then the
    payload loses its properties [name] and [value], or has none, and then
    the walk from the root follows. *)
Definition remove_payload (t : Trie) (query : string) (l : loc) : outcome :=
  let n := deref (heap t) l in
  if val_truthy (value n) then
    match val_socket_keys (value n) with
    | None => Throws
    | Some 0 => Returns (remove_prune t query)
    | Some (S _) =>
        Returns (table_delete (label t l (name n) (val_unlabel (value n))) query)
    end
  else Returns t.

(** [remove].  [end] is whatever [this.table[query]] is.  When it is
    neither a node nor a payload, [end.socket] is [undefined] and
    [Object.keys] throws.  Nothing has been written when a call throws. *)
Definition remove (t : Trie) (query : string) : outcome :=
  match table_get t query with
  | Absent => Returns t
  | Foreign => Throws
  | Payload l => remove_payload t query l
  | Found e => Returns (remove_node t query e)
  end.

(** The store after a call: a call that throws has written nothing. *)
Definition store_after (t : Trie) (r : outcome) : Trie :=
  match r with Returns t' => t' | Throws => t end.

(** ** Sequences of public operations *)
Inductive op :=
  | OpSet (key : string) (v : val)
  | OpRemove (query : string)
  | OpMatch (query : string) (count : option Z)
  | OpGet (query : string)
  | OpReset.

(** The store after one call.  The caller of a [remove] that throws is
    taken to catch the error and to go on. *)
Definition apply_op (t : Trie) (o : op) : Trie :=
  match o with
  | OpSet key v => set t key v
  | OpRemove query => store_after t (remove t query)
  | OpReset => reset t
  | OpMatch _ _ | OpGet _ => t
  end.

Definition run (ops : list op) : Trie := foldl apply_op new_Trie ops.

(** The calls that make a node the prototype of the table. *)
Definition sets_proto (o : op) : bool :=
  match o with OpSet key _ => bool_decide (key = "__proto__") | _ => false end.

(** No call is [set('__proto__', v)]. *)
Definition proto_free (ops : list op) : Prop :=
  Forall (λ o, sets_proto o = false) ops.

(** The keys that every table answers without having them: the names of
    the properties of [Object.prototype]. *)
Definition inherited_name (k : string) : bool :=
  bool_decide (k = "__proto__" ∨ k ∈ Object_prototype_names).

(** ** The tree behind a store

    A store built by the methods is a tree of nodes.  To reason about it, the
    part of the object store below a node is described by a value of the
    inductive type [tree], which repeats, for every node, its address and
    its three properties.  The temporary root node is described by a [tree]
    as well; its address is not used. *)
Inductive tree :=
  T (l : loc) (nm : option string) (vl : val) (kids : list (ascii * tree)).

Definition tloc (s : tree) : loc := let 'T l _ _ _ := s in l.
Definition tname (s : tree) : option string := let 'T _ nm _ _ := s in nm.
Definition tval (s : tree) : val := let 'T _ _ vl _ := s in vl.
Definition tkids (s : tree) : list (ascii * tree) := let 'T _ _ _ kids := s in kids.

(** The socket and the node object that a tree describes. *)
Definition sk (F : list (ascii * tree)) : Socket := prod_map id tloc <$> F.
Definition node_of (s : tree) : Node := mkNode (sk (tkids s)) (tname s) (tval s).

(** All nodes of a tree, the root first. *)
Fixpoint subs (s : tree) : list tree :=
  match s with
  | T _ _ _ kids =>
      s :: (fix go (F : list (ascii * tree)) : list tree :=
              match F with [] => [] | ck :: F' => subs ck.2 ++ go F' end) kids
  end.
Definition subsF (F : list (ascii * tree)) : list tree := F ≫= λ ck, subs ck.2.
Definition locsF (F : list (ascii * tree)) : list loc := tloc <$> subsF F.

(** The node reached from [s] along the characters of [p]. *)
Fixpoint t_walk (s : tree) (p : string) : option tree :=
  match p with
  | EmptyString => Some s
  | String c rest =>
      match obj_get c (tkids s) with
      | None => None
      | Some k => t_walk k rest
      end
  end.

(** The tree after [set]: the nodes on the path of [path] that are missing
    are created at the addresses [next], [next + 1], ..., and the last node
    receives [key] and [v]. *)
Fixpoint t_set (next : loc) (s : tree) (path key : string) (v : val)
    {struct path} : tree :=
  match path with
  | EmptyString => T (tloc s) (Some key) v (tkids s)
  | String c rest =>
      match obj_get c (tkids s) with
      | Some k =>
          T (tloc s) (tname s) (tval s)
            (obj_set c (t_set next k rest key v) (tkids s))
      | None =>
          T (tloc s) (tname s) (tval s)
            (tkids s ++ [(c, t_set (S next) (T next None undefined []) rest key v)])
      end
  end.

(** The tree after the node at [p] has been replaced by its image under [g]. *)
Fixpoint t_at (g : tree → tree) (s : tree) (p : string) : tree :=
  match p with
  | EmptyString => g s
  | String c rest =>
      match obj_get c (tkids s) with
      | Some k => T (tloc s) (tname s) (tval s) (obj_set c (t_at g k rest) (tkids s))
      | None => s
      end
  end.

(** [shape t r s]: the node [r] of the store [t] and everything below it is
    the tree [s]. *)
Definition holds (h : list Node) (F : list (ascii * tree)) : Prop :=
  ∀ x, x ∈ subsF F → h !! tloc x = Some (node_of x).

Definition shape (t : Trie) (r : ref) (s : tree) : Prop :=
  match r with
  | Root => rootSocket t = sk (tkids s) ∧ tname s = None ∧ tval s = undefined
  | At l => tloc s = l ∧ heap t !! l = Some (node_of s)
  end ∧ holds (heap t) (tkids s).

Definition rlocs (r : ref) : list loc :=
  match r with Root => [] | At l => [l] end.

(** No node occurs twice. *)
Definition sep (r : ref) (s : tree) : Prop := NoDup (rlocs r ++ locsF (tkids s)).

(** [t'] differs from [t] only below [r], where [s] has become [s']. *)
Record step_at (t t' : Trie) (r : ref) (s s' : tree) : Prop := {
  step_shape : shape t' r s';
  step_sep : sep r s';
  step_loc : tloc s' = tloc s;
  step_heap : length (heap t) ≤ length (heap t');
  step_frame : ∀ l, l < length (heap t) → l ∉ rlocs r ++ locsF (tkids s) →
               heap t' !! l = heap t !! l;
  step_root : r ≠ Root → rootSocket t' = rootSocket t;
  step_table : table t' = table t;
  step_locs : ∀ l, l ∈ locsF (tkids s') →
              l ∈ locsF (tkids s) ∨ length (heap t) ≤ l;
}.

Ltac mem_norm :=
  repeat first [ rewrite elem_of_app | rewrite elem_of_cons | rewrite elem_of_nil ].
Ltac mem_norm_in H :=
  repeat first [ rewrite elem_of_app in H | rewrite elem_of_cons in H
               | rewrite elem_of_nil in H ].

Definition set_from (t : Trie) (r : ref) (path key : string) (v : val) : Trie :=
  let '(t', r') := set_loop t r path in
  match r' with At l => label t' l (Some key) v | Root => t' end.

(** [_getClosestNode] follows the tree. *)
Definition ref_at (r : ref) (p : string) (x : tree) : ref :=
  match p with EmptyString => r | _ => At (tloc x) end.

(** [delete node.socket[c]] *)
Definition cut (c : ascii) (x : tree) : tree :=
  T (tloc x) (tname x) (tval x) (obj_delete c (tkids x)).
(** [delete node.name; delete node.value] *)
Definition unlabel (x : tree) : tree := T (tloc x) None undefined (tkids x).

Definition fresh_node (x : tree) : Prop :=
  tname x = None ∧ tval x = undefined ∧ tkids x = [].

(** [ok p s]: below the node [s], which sits at path [p], every socket has
    distinct characters, a node that has a key has its own path as key, and
    a node without children has a key. *)
Inductive ok : string → tree → Prop :=
  | ok_intro p s :
      NoDup (tkids s).*1 →
      (∀ c k, (c, k) ∈ tkids s →
         (tname k = None ∨ tname k = Some (p +:+ String c EmptyString)) ∧
         (tkids k = [] → tname k = Some (p +:+ String c EmptyString)) ∧
         ok (p +:+ String c EmptyString) k) →
      ok p s.

(** The table has one entry for every node of the tree that has a key, under
    that key, and no other entry. *)
Definition tabOK (tb : list (string * loc)) (R : tree) : Prop :=
  NoDup tb.*1 ∧
  ∀ k l, obj_get k tb = Some l ↔
         ∃ x, t_walk R k = Some x ∧ tloc x = l ∧ tname x ≠ None.

(** What every store built by the methods satisfies: the nodes reached
    from the root are a tree. *)
Record Tree_with (t : Trie) (R : tree) : Prop := {
  tree_shape : shape t Root R;
  tree_sep : sep Root R;
  tree_ok : ok EmptyString R;
}.

Definition Tree (t : Trie) : Prop := ∃ R, Tree_with t R.

(** What a store built without [set('__proto__', v)] satisfies besides: the
    table has [Object.prototype] as prototype and agrees with the tree. *)
Record Inv_with (t : Trie) (R : tree) : Prop := {
  inv_shape : shape t Root R;
  inv_sep : sep Root R;
  inv_ok : ok EmptyString R;
  inv_tab : tabOK (table t) R;
  inv_proto : table_proto t = None;
  inv_own : obj_get "__proto__" (table t) = None;
}.

Definition Inv (t : Trie) : Prop := ∃ R, Inv_with t R.

(** A node at which [remove] records its [point]. *)
Definition anchor (s : tree) : bool :=
  truthy (tname s) || (2 <=? length (tkids s)).

(** No node on the way from [s] along [q], the last one excepted, is an
    anchor. *)
Fixpoint plain (s : tree) (q : string) : Prop :=
  match q with
  | EmptyString => True
  | String c rest =>
      anchor s = false ∧ ∃ k, obj_get c (tkids s) = Some k ∧ plain k rest
  end.

(** [term s k l]: the node of [s] at path [k] has address [l] and a key. *)
Definition term (s : tree) (k : string) (l : loc) : Prop :=
  ∃ x, t_walk s k = Some x ∧ tloc x = l ∧ tname x ≠ None.

(** The keys of the table with the values of their nodes, in the order of
    the table. *)
Definition contents (t : Trie) : list (string * val) :=
  prod_map id (λ l, value (deref (heap t) l)) <$> table t.

(** The children of a node, in the order [order] of their characters. *)
Definition children (order : Socket → list ascii) (t : Trie) (r : ref) : list loc :=
  omap (λ c, obj_get c (socket_of t r)) (order (socket_of t r)).

(** The order of visit: a node, then everything below its first child, then
    everything below its other children, the last one first.  [d] bounds the
    depth. *)
Fixpoint visit_order (order : Socket → list ascii) (d : nat) (t : Trie) (r : ref)
  : list ref :=
  match d with
  | O => []
  | S d =>
      r :: match children order t r with
           | [] => []
           | first :: others =>
               visit_order order d t (At first)
               ++ (rev others ≫= λ l, visit_order order d t (At l))
           end
  end.

(** The values of the nodes of a list that have a key. *)
Definition collect (t : Trie) (rs : list ref) : list val :=
  rs ≫= λ r, if truthy (name_of t r) then [value_of t r] else [].

(** Going through the nodes of a list as the loop does: stop as soon as the
    limit is reached ([inl]), or come to the end ([inr]). *)
Fixpoint scan (count : option Z) (t : Trie) (rs : list ref)
    (st : list val * list ref) : (list val * list ref) + (list val * list ref) :=
  match rs with
  | [] => inr st
  | r :: rs =>
      if limit_reached count st.1 then inl st
      else scan count t rs (st.1 ++ collect t [r], st.2 ++ [r])
  end.

Definition scan_from (count : option Z) (t : Trie)
    (sc : (list val * list ref) + (list val * list ref)) (rs : list ref) :=
  match sc with inl st => inl st | inr st => scan count t rs st end.

(** [points.pop()] and what follows it. *)
Definition pop_continue (fuel : nat) (t : Trie) (count : option Z)
    (points : list loc) (result : list val) (visited : list ref) :=
  match points with
  | [] => Some (result, visited)
  | next :: points => match_loop fuel t count (At next) points result visited
  end.

Definition after_scan (fuel : nat) (t : Trie) (count : option Z)
    (points : list loc) (sc : (list val * list ref) + (list val * list ref)) :=
  match sc with
  | inl st => Some st
  | inr st => pop_continue fuel t count points st.1 st.2
  end.

(** [deep_enough d t r]: no way down from [r] is longer than [d] nodes. *)
Fixpoint deep_enough (d : nat) (t : Trie) (r : ref) : Prop :=
  match d with
  | O => False
  | S d => Forall (λ l, deep_enough d t (At l)) (children Object_keys t r)
  end.

Definition scan_end (sc : (list val * list ref) + (list val * list ref)) :=
  match sc with inl st | inr st => st end.

(** The children of a node of the tree in the order of [Object.keys]. *)
Definition okids (s : tree) : list tree :=
  omap (λ c, obj_get c (tkids s)) (Object_keys (sk (tkids s))).

(** The operations on a plain dictionary. *)
Definition dict_op (d : list (string * val)) (o : op) : list (string * val) :=
  match o with
  | OpSet key v => if decide (key = EmptyString) then d else obj_set key v d
  | OpRemove query => obj_delete query d
  | OpReset => []
  | OpMatch _ _ | OpGet _ => d
  end.

(** A sequence of calls of [set]. *)
Definition sets (kvs : list (string * val)) : list op :=
  (λ kv, OpSet kv.1 kv.2) <$> kvs.

(** The value of the last call for [key], [undefined] when there is none. *)
Definition last_set (key : string) (kvs : list (string * val)) : val :=
  default undefined (snd <$> last (filter (λ kv, kv.1 = key) kvs)).

(** ** [Object.keys] of the table, and the methods that list the store *)

(** The value of a decimal digit. *)
Definition digit_value (c : ascii) : option N :=
  let n := N_of_ascii c in
  if ((48 <=? n) && (n <=? 57))%N then Some (n - 48)%N else None.

Fixpoint decimal_value (acc : N) (s : string) : option N :=
  match s with
  | EmptyString => Some acc
  | String c s => d ← digit_value c; decimal_value (10 * acc + d) s
  end.

(** A property key is an array index when it is the canonical numeral (no
    sign, no leading zero) of an integer below 2^32 - 1. *)
Definition array_index (k : string) : option N :=
  match k with
  | EmptyString => None
  | String c rest =>
      if bool_decide (c = "0"%char ∧ rest ≠ EmptyString) then None
      else n ← decimal_value 0 k;
           if (n <? 4294967295)%N then Some n else None
  end.

Definition index_le (a b : N * string) : Prop := (a.1 ≤ b.1)%N.

#[global] Instance index_le_dec : RelDecision index_le :=
  λ a b, decide (a.1 ≤ b.1)%N.

(** [Object.keys] of an object with string keys: the array indices in
    ascending numeric order, then the other keys in creation order. *)
Definition Object_keys_str {A} (o : list (string * A)) : list string :=
  (merge_sort index_le (omap (λ k, (λ n, (n, k)) <$> array_index k) o.*1)).*2
  ++ filter (λ k, array_index k = None) o.*1.

(** [this.table[key].value]; [None] stands for the TypeError of reading
    [value] of [undefined]. *)
Definition table_value (t : Trie) (key : string) : option val :=
  l ← obj_get key (table t); Some (value (deref (heap t) l)).

(** The loop of [toObject], from position [n] of [keys] on. *)
Fixpoint toObject_loop (t : Trie) (keys : list string)
    (obj : list (string * val)) : option (list (string * val)) :=
  match keys with
  | [] => Some obj
  | key :: keys =>
      value ← table_value t key; toObject_loop t keys (obj_set key value obj)
  end.

Definition toObject (t : Trie) : option (list (string * val)) :=
  toObject_loop t (Object_keys_str (table t)) [].

(** The loop of [toArray]. *)
Fixpoint toArray_loop (t : Trie) (keys : list string) (arr : list val)
  : option (list val) :=
  match keys with
  | [] => Some arr
  | key :: keys => value ← table_value t key; toArray_loop t keys (arr ++ [value])
  end.

Definition toArray (t : Trie) : option (list val) :=
  toArray_loop t (Object_keys_str (table t)) [].

(** [forEach].  [Object_assign v] is [Object.assign({}, v)], the copy of the
    own properties of [v] into a new object.  The callback is given as its
    effect on a state [S] of its own, which may hold the store; it is taken
    not to throw and not to write to the object [iterableTable] that it
    receives at every call. *)
Fixpoint iterable_loop (Object_assign : val → val) (t : Trie)
    (keys : list string) (obj : list (string * val))
  : option (list (string * val)) :=
  match keys with
  | [] => Some obj
  | key :: keys =>
      value ← table_value t key;
      iterable_loop Object_assign t keys (obj_set key (Object_assign value) obj)
  end.

Fixpoint forEach_loop {S : Type}
    (callback : val → string → list (string * val) → S → S)
    (keys : list string) (iterableTable : list (string * val)) (s : S) : S :=
  match keys with
  | [] => s
  | key :: keys =>
      let value := default undefined (obj_get key iterableTable) in
      forEach_loop callback keys iterableTable (callback value key iterableTable s)
  end.

Definition forEach {S : Type} (Object_assign : val → val) (t : Trie)
    (callback : option (val → string → list (string * val) → S → S))
    (s : S) : option S :=
  match callback with
  | None => Some s
  | Some callback =>
      iterableTable ← iterable_loop Object_assign t (Object_keys_str (table t)) [];
      Some (forEach_loop callback (Object_keys_str (table t)) iterableTable s)
  end.

(** The number of characters at the end of [key] for which no node exists
    on the way from [node]. *)
Fixpoint missing (t : Trie) (node : ref) (key : string) : nat :=
  match key with
  | EmptyString => 0
  | String char rest =>
      match obj_get char (socket_of t node) with
      | Some l => missing t (At l) rest
      | None => String.length key
      end
  end.


(** * Properties *)

(** ** Plain objects: lookup, assignment, deletion *)

Section objects.
Context {K A : Type} `{EqDecision K}.
Implicit Types (o : list (K * A)) (k : K) (a : A).

Lemma obj_get_None k o : obj_get k o = None ↔ k ∉ o.*1.
Proof.
  induction o as [|[k' a'] o IH]; simpl.
  - split; [intros _; apply not_elem_of_nil | done].
  - case_decide; subst; rewrite not_elem_of_cons.
    + split; [done | intros [? _]; done].
    + rewrite IH. naive_solver.
Qed.

Lemma obj_get_Some_elem k a o : obj_get k o = Some a → (k, a) ∈ o.
Proof.
  induction o as [|[k' a'] o IH]; simpl; [done|].
  case_decide; intros; simplify_eq; [left | right; auto].
Qed.

Lemma obj_get_elem k a o : NoDup o.*1 → (k, a) ∈ o → obj_get k o = Some a.
Proof.
  induction o as [|[k' a'] o IH]; simpl; intros Hnd Hin.
  - by apply elem_of_nil in Hin.
  - apply NoDup_cons in Hnd as [Hk Hnd]. apply elem_of_cons in Hin as [?|Hin].
    + simplify_eq. by rewrite decide_True.
    + rewrite decide_False; [auto|]. intros ->. apply Hk.
      apply list_elem_of_fmap. by exists (k, a).
Qed.

Lemma obj_get_split k a o :
  obj_get k o = Some a → ∃ o1 o2, o = o1 ++ (k, a) :: o2 ∧ k ∉ o1.*1.
Proof.
  induction o as [|[k' a'] o IH]; simpl; [done|].
  case_decide; intros ?; simplify_eq.
  - exists [], o. split; [done | apply not_elem_of_nil].
  - destruct IH as (o1 & o2 & -> & ?); [done|].
    exists ((k', a') :: o1), o2. split; [done|].
    simpl. rewrite not_elem_of_cons. done.
Qed.

Lemma obj_get_app_r k o1 o2 :
  k ∉ o1.*1 → obj_get k (o1 ++ o2) = obj_get k o2.
Proof.
  induction o1 as [|[k' a'] o1 IH]; simpl; [done|].
  rewrite not_elem_of_cons. intros [? ?]. rewrite decide_False; auto.
Qed.

Lemma obj_get_app_l k a o1 o2 :
  obj_get k o1 = Some a → obj_get k (o1 ++ o2) = Some a.
Proof.
  induction o1 as [|[k' a'] o1 IH]; simpl; [done|]. case_decide; auto.
Qed.

Lemma obj_set_absent k a o : k ∉ o.*1 → obj_set k a o = o ++ [(k, a)].
Proof.
  induction o as [|[k' a'] o IH]; simpl; [done|].
  rewrite not_elem_of_cons. intros [? ?]. rewrite decide_False; [|done].
  by rewrite IH.
Qed.

Lemma obj_set_split k a a' o1 o2 :
  k ∉ o1.*1 → obj_set k a (o1 ++ (k, a') :: o2) = o1 ++ (k, a) :: o2.
Proof.
  induction o1 as [|[k' a''] o1 IH]; simpl.
  - by rewrite decide_True.
  - rewrite not_elem_of_cons. intros [? ?]. rewrite decide_False; [|done].
    by rewrite IH.
Qed.

Lemma obj_delete_absent k o : k ∉ o.*1 → obj_delete k o = o.
Proof.
  induction o as [|[k' a'] o IH]; simpl; [done|].
  rewrite not_elem_of_cons. intros [? ?]. rewrite decide_False; [|done].
  by rewrite IH.
Qed.

Lemma obj_delete_split k a o1 o2 :
  k ∉ o1.*1 → k ∉ o2.*1 → obj_delete k (o1 ++ (k, a) :: o2) = o1 ++ o2.
Proof.
  intros H1 H2. induction o1 as [|[k' a''] o1 IH]; simpl.
  - rewrite decide_True; [|done]. by apply obj_delete_absent.
  - simpl in H1. rewrite not_elem_of_cons in H1. destruct H1.
    rewrite decide_False; [|done]. by rewrite IH.
Qed.

Lemma obj_get_set k k' a o :
  obj_get k' (obj_set k a o) = if decide (k = k') then Some a else obj_get k' o.
Proof.
  induction o as [|[k0 a0] o IH]; simpl.
  - by repeat case_decide.
  - repeat (case_decide; simpl; simplify_eq); rewrite ?IH;
      repeat case_decide; simplify_eq; done.
Qed.

Lemma obj_get_delete k k' o :
  obj_get k' (obj_delete k o) = if decide (k = k') then None else obj_get k' o.
Proof.
  induction o as [|[k0 a0] o IH]; simpl.
  - by case_decide.
  - repeat (case_decide; simpl; simplify_eq); rewrite ?IH;
      repeat case_decide; simplify_eq; done.
Qed.

Lemma obj_delete_elem k k' a o :
  (k', a) ∈ obj_delete k o ↔ k' ≠ k ∧ (k', a) ∈ o.
Proof.
  induction o as [|[k0 a0] o IH]; simpl.
  - split; [intros H'; by apply elem_of_nil in H' | intros [_ H']; done].
  - case_decide; subst; rewrite ?elem_of_cons, IH; naive_solver.
Qed.

Lemma obj_delete_sublist k o : obj_delete k o `sublist_of` o.
Proof.
  induction o as [|[k0 a0] o IH]; simpl; [done|].
  case_decide; [by apply sublist_cons | by apply sublist_skip].
Qed.

Lemma obj_delete_NoDup k o : NoDup o.*1 → NoDup (obj_delete k o).*1.
Proof.
  intros Hnd. eapply sublist_NoDup; [done | apply fmap_sublist, obj_delete_sublist].
Qed.

Lemma obj_set_keys k a o :
  (obj_set k a o).*1 = if decide (k ∈ o.*1) then o.*1 else o.*1 ++ [k].
Proof.
  induction o as [|[k0 a0] o IH].
  - rewrite decide_False; [done | apply not_elem_of_nil].
  - cbn [obj_set]. destruct (decide (k0 = k)) as [->|Hne].
    + rewrite decide_True; [done | left].
    + rewrite !fmap_cons, IH. cbn [fst]. destruct (decide (k ∈ o.*1)).
      * rewrite decide_True; [done | by right].
      * rewrite decide_False; [done|]. rewrite not_elem_of_cons. naive_solver.
Qed.

Lemma obj_set_NoDup k a o : NoDup o.*1 → NoDup (obj_set k a o).*1.
Proof.
  intros Hnd. rewrite obj_set_keys. case_decide; [done|].
  apply NoDup_app. split_and!; [done | | apply NoDup_singleton].
  intros x Hx ->%list_elem_of_singleton. done.
Qed.

Lemma obj_set_length k a o :
  length (obj_set k a o) = if decide (k ∈ o.*1) then length o else S (length o).
Proof.
  rewrite <-(length_fmap fst (obj_set k a o)), obj_set_keys.
  case_decide; rewrite ?length_app, !length_fmap; simpl; lia.
Qed.

End objects.

Lemma obj_get_fmap {K A B} `{EqDecision K} (f : A → B) (k : K) (o : list (K * A)) :
  obj_get k (prod_map id f <$> o) = f <$> obj_get k o.
Proof.
  induction o as [|[k' a'] o IH]; simpl; [done|]. by case_decide.
Qed.

Lemma obj_keys_fmap {K A B} (f : A → B) (o : list (K * A)) :
  (prod_map id f <$> o).*1 = o.*1.
Proof. rewrite <-list_fmap_compose. by apply list_fmap_ext; intros ? []. Qed.

Lemma obj_delete_fmap {K A B} `{EqDecision K} (f : A → B) (k : K) (o : list (K * A)) :
  obj_delete k (prod_map id f <$> o) = prod_map id f <$> obj_delete k o.
Proof.
  induction o as [|[k' a'] o IH]; [done|]. csimpl.
  case_decide; csimpl; by rewrite IH.
Qed.

Lemma obj_set_fmap {K A B} `{EqDecision K} (f : A → B) (k : K) a (o : list (K * A)) :
  obj_set k (f a) (prod_map id f <$> o) = prod_map id f <$> obj_set k a o.
Proof.
  induction o as [|[k' a'] o IH]; [done|]. csimpl.
  case_decide; csimpl; by rewrite ?IH.
Qed.

(** ** The nodes of a tree *)

Lemma tree_ind' (P : tree → Prop) :
  (∀ l nm vl kids, Forall (λ ck, P ck.2) kids → P (T l nm vl kids)) →
  ∀ s, P s.
Proof.
  intros HT. fix IH 1. intros [l nm vl kids]. apply HT.
  induction kids as [|[c k] kids IHkids]; constructor; [apply IH | apply IHkids].
Qed.

Lemma subs_unfold s : subs s = s :: subsF (tkids s).
Proof.
  by destruct s.
Qed.

Lemma subsF_app F1 F2 : subsF (F1 ++ F2) = subsF F1 ++ subsF F2.
Proof. apply bind_app. Qed.
Lemma subsF_cons c k F : subsF ((c, k) :: F) = k :: subsF (tkids k) ++ subsF F.
Proof. unfold subsF at 1. csimpl. by rewrite subs_unfold. Qed.
Lemma locsF_app F1 F2 : locsF (F1 ++ F2) = locsF F1 ++ locsF F2.
Proof. unfold locsF. by rewrite subsF_app, fmap_app. Qed.
Lemma locsF_cons c k F : locsF ((c, k) :: F) = tloc k :: locsF (tkids k) ++ locsF F.
Proof. unfold locsF. by rewrite subsF_cons, fmap_cons, fmap_app. Qed.

Lemma elem_of_subsF x F :
  x ∈ subsF F ↔ ∃ c k, (c, k) ∈ F ∧ (x = k ∨ x ∈ subsF (tkids k)).
Proof.
  unfold subsF at 1. rewrite list_elem_of_bind. split.
  - intros ([c k] & Hx & Hin). exists c, k. split; [done|].
    simpl in Hx. rewrite subs_unfold in Hx. by apply elem_of_cons in Hx.
  - intros (c & k & Hin & Hx). exists (c, k). split; [|done].
    simpl. rewrite subs_unfold. by apply elem_of_cons.
Qed.

Lemma sk_get c F : obj_get c (sk F) = tloc <$> obj_get c F.
Proof. apply obj_get_fmap. Qed.

Lemma shape_socket t r s : shape t r s → socket_of t r = sk (tkids s).
Proof.
  destruct r; intros [Hr _]; simpl; [by destruct Hr|].
  destruct Hr as [_ Hl]. unfold deref. by rewrite Hl.
Qed.

Lemma shape_name t r s : shape t r s → name_of t r = tname s.
Proof.
  destruct r; intros [Hr _]; simpl; [by destruct Hr as (_ & -> & _)|].
  destruct Hr as [_ Hl]. unfold deref. by rewrite Hl.
Qed.

Lemma shape_value t r s : shape t r s → value_of t r = tval s.
Proof.
  destruct r; intros [Hr _]; simpl; [by destruct Hr as (_ & _ & ->)|].
  destruct Hr as [_ Hl]. unfold deref. by rewrite Hl.
Qed.

Lemma shape_lt t r s l :
  shape t r s → l ∈ rlocs r ++ locsF (tkids s) → l < length (heap t).
Proof.
  intros [Hr Hh] [Hl|Hl]%elem_of_app.
  - destruct r; simpl in Hl; [by apply elem_of_nil in Hl|].
    apply list_elem_of_singleton in Hl as ->. destruct Hr as [_ Hr].
    by apply lookup_lt_Some in Hr.
  - apply list_elem_of_fmap in Hl as (x & -> & Hx).
    apply Hh in Hx. by apply lookup_lt_Some in Hx.
Qed.

Lemma shape_child t r s c k :
  shape t r s → obj_get c (tkids s) = Some k → shape t (At (tloc k)) k.
Proof.
  intros [_ Hh] Hk. apply obj_get_Some_elem in Hk.
  split; [split; [done|] |].
  - apply Hh, elem_of_subsF. eauto.
  - intros x Hx. apply Hh, elem_of_subsF. eauto.
Qed.

Lemma sep_child r s c k :
  sep r s → obj_get c (tkids s) = Some k → sep (At (tloc k)) k.
Proof.
  unfold sep. intros Hnd Hk. apply obj_get_split in Hk as (F1 & F2 & Heq & _).
  rewrite Heq, locsF_app, locsF_cons in Hnd.
  apply NoDup_app in Hnd as (_ & _ & Hnd). apply NoDup_app in Hnd as (_ & _ & Hnd).
  simpl. rewrite app_comm_cons in Hnd. by apply NoDup_app in Hnd as (Hnd & _ & _).
Qed.

Lemma NoDup_replace (A X X' B : list loc) (n : nat) :
  NoDup (A ++ X ++ B) → NoDup X' →
  (∀ x, x ∈ X' → x ∈ X ∨ n ≤ x) → (∀ x, x ∈ A ++ B → x < n) →
  NoDup (A ++ X' ++ B).
Proof.
  intros Hnd HX' Hsub Hlt.
  apply NoDup_app in Hnd as (HA & HAX & Hnd).
  apply NoDup_app in Hnd as (HX & HXB & HB).
  apply NoDup_app. split_and!; [done | | apply NoDup_app; split_and!; [done | | done]].
  - intros x Hx [Hx'|Hx']%elem_of_app.
    + destruct (Hsub x Hx') as [?|?].
      * apply (HAX x Hx). apply elem_of_app. by left.
      * specialize (Hlt x). rewrite elem_of_app in Hlt. specialize (Hlt (or_introl Hx)). lia.
    + apply (HAX x Hx). apply elem_of_app. by right.
  - intros x Hx' Hx. destruct (Hsub x Hx') as [?|?].
    + by apply (HXB x).
    + specialize (Hlt x). rewrite elem_of_app in Hlt. specialize (Hlt (or_intror Hx)). lia.
Qed.

Lemma NoDup_mid_disjoint (A X B : list loc) x :
  NoDup (A ++ X ++ B) → x ∈ A ++ B → x ∉ X.
Proof.
  intros (HA & HAX & Hnd)%NoDup_app. apply NoDup_app in Hnd as (HX & HXB & HB).
  intros [Hx|Hx]%elem_of_app Hx'.
  - apply (HAX x Hx). apply elem_of_app. by left.
  - by apply (HXB x).
Qed.

Lemma sk_app F1 F2 : sk (F1 ++ F2) = sk F1 ++ sk F2.
Proof. apply fmap_app. Qed.

Lemma step_lift t t' r s c k k' :
  shape t r s → sep r s → obj_get c (tkids s) = Some k →
  step_at t t' (At (tloc k)) k k' →
  step_at t t' r s (T (tloc s) (tname s) (tval s) (obj_set c k' (tkids s))).
Proof.
  intros Hsh Hsep Hk [Hsh' Hsep' Hloc Hlen Hfr Hrt Htab Hlocs].
  pose proof (λ l, shape_lt _ _ _ l Hsh) as Hlt.
  destruct (obj_get_split _ _ _ Hk) as (F1 & F2 & HF & Hc).
  rewrite HF, (obj_set_split _ _ _ _ _ Hc). unfold sep in Hsep, Hsep'.
  rewrite HF, locsF_app, locsF_cons in Hsep, Hlt.
  assert (Hsep2 : NoDup ((rlocs r ++ locsF F1)
                           ++ (tloc k :: locsF (tkids k)) ++ locsF F2)).
  { rewrite <-app_assoc. exact Hsep. }
  assert (Hout : ∀ l, l ∈ rlocs r ++ locsF F1 ++ locsF F2 →
                      heap t' !! l = heap t !! l).
  { intros l Hl. apply Hfr.
    - apply Hlt. clear -Hl. mem_norm_in Hl. mem_norm. tauto.
    - simpl. eapply NoDup_mid_disjoint; [exact Hsep2|].
      clear -Hl. mem_norm_in Hl. mem_norm. tauto. }
  split; simpl.
  - split.
    + destruct r as [|l].
      * destruct Hsh as [(Hroot & ? & ?) _]. split_and!; [|done..]. simpl.
        rewrite Hrt by done. rewrite Hroot, HF, !sk_app. simpl. by rewrite Hloc.
      * destruct Hsh as [[? Hl] _]. split; [done|].
        rewrite Hout by (simpl; mem_norm; tauto). rewrite Hl. unfold node_of. simpl.
        rewrite HF, !sk_app. simpl. by rewrite Hloc.
    + intros x. cbn [tkids]. rewrite subsF_app, subsF_cons. intros Hx.
      destruct Hsh as [_ Hh]. destruct Hsh' as [[_ Hk'] Hh'].
      apply elem_of_app in Hx as [Hx|Hx]; [|apply elem_of_cons in Hx as [->|Hx]].
      * rewrite Hout.
        -- apply Hh. rewrite HF, subsF_app. apply elem_of_app. by left.
        -- apply elem_of_app; right; apply elem_of_app; left.
           apply list_elem_of_fmap. eauto.
      * by rewrite Hloc.
      * apply elem_of_app in Hx as [Hx|Hx]; [by apply Hh'|].
        rewrite Hout.
        -- apply Hh. rewrite HF, subsF_app, subsF_cons.
           apply elem_of_app. right. right. apply elem_of_app. by right.
        -- apply elem_of_app; right; apply elem_of_app; right.
           apply list_elem_of_fmap. eauto.
  - unfold sep. simpl. rewrite locsF_app, locsF_cons.
    rewrite app_assoc.
    apply (NoDup_replace _ (tloc k :: locsF (tkids k)) (tloc k' :: locsF (tkids k')) _
             (length (heap t))); [done|..].
    + simpl in Hsep'. by rewrite Hloc.
    + intros x [->|Hx]%elem_of_cons; [left; rewrite Hloc; left|].
      destruct (Hlocs x Hx); [left; by right | by right].
    + intros x Hx. apply Hlt. clear -Hx. mem_norm_in Hx. mem_norm. tauto.
  - done.
  - done.
  - intros l Hl Hnin. apply Hfr; [done|]. rewrite HF, locsF_app, locsF_cons in Hnin.
    simpl. clear -Hnin. intros Hin. apply Hnin. mem_norm_in Hin. mem_norm. tauto.
  - intros ?. destruct r; [done|]. by apply Hrt.
  - done.
  - intros l. cbn [tkids]. rewrite HF, !locsF_app, !locsF_cons, Hloc. intros Hl.
    mem_norm_in Hl. destruct Hl as [Hl|[Hl|[Hl|Hl]]].
    + left. mem_norm. tauto.
    + left. mem_norm. tauto.
    + destruct (Hlocs l Hl); [left; mem_norm; tauto | by right].
    + left. mem_norm. tauto.
Qed.

Lemma step_trans t1 t2 t3 r s1 s2 s3 :
  step_at t1 t2 r s1 s2 → step_at t2 t3 r s2 s3 → step_at t1 t3 r s1 s3.
Proof.
  intros [Hsh Hsep Hloc Hlen Hfr Hrt Htab Hlocs]
         [Hsh' Hsep' Hloc' Hlen' Hfr' Hrt' Htab' Hlocs'].
  split; try done; try congruence; try lia.
  - intros l Hl Hnin. rewrite Hfr'; [by apply Hfr | lia |].
    intros [Hin|Hin]%elem_of_app; [apply Hnin, elem_of_app; by left|].
    destruct (Hlocs l Hin); [apply Hnin, elem_of_app; by right | lia].
  - intros ?. rewrite Hrt', Hrt; done.
  - intros l Hl. destruct (Hlocs' l Hl) as [Hin|?]; [|right; lia].
    destruct (Hlocs l Hin); [by left | by right].
Qed.

Lemma deref_Some (h : list Node) l n : h !! l = Some n → deref h l = n.
Proof. unfold deref. by intros ->. Qed.

Lemma deref_app_l (h h' : list Node) l :
  l < length h → deref (h ++ h') l = deref h l.
Proof. intros ?. unfold deref. by rewrite lookup_app_l. Qed.

Lemma sep_notin r s x :
  sep r s → x ∈ subsF (tkids s) → tloc x ∉ rlocs r.
Proof.
  unfold sep. intros (_ & Hdis & _)%NoDup_app Hx Hin.
  apply (Hdis _ Hin). apply list_elem_of_fmap. eauto.
Qed.

Lemma label_step t l s nm v :
  shape t (At l) s → sep (At l) s →
  step_at t (label t l nm v) (At l) s (T l nm v (tkids s)).
Proof.
  intros Hsh Hsep. pose proof (λ l', shape_lt _ _ _ l' Hsh) as Hlt.
  pose proof (shape_socket _ _ _ Hsh) as Hsock. simpl in Hsock.
  destruct Hsh as [[Hl Hlook] Hh]. split; simpl; try done.
  - split; [split; [done|] |]; simpl.
    + rewrite list_lookup_insert_eq; [by rewrite Hsock|]. apply Hlt. by left.
    + intros x Hx. rewrite list_lookup_insert_ne; [by apply Hh|].
      intros ->. eapply sep_notin; [done..|]. by left.
  - by rewrite length_insert.
  - intros l' _ Hnin. rewrite list_lookup_insert_ne; [done|].
    intros ->. apply Hnin. by left.
  - by left.
Qed.

Lemma alloc_child_step t r s c :
  shape t r s → sep r s → obj_get c (tkids s) = None →
  let l := length (heap t) in
  let t1 := mkTrie (rootSocket t) (table t) (table_proto t) (heap t ++ [new_Node]) in
  step_at t (put_socket t1 r (obj_set c l (socket_of t1 r))) r s
    (T (tloc s) (tname s) (tval s) (tkids s ++ [(c, T l None undefined [])])).
Proof.
  intros Hsh Hsep Hc l t1. pose proof (λ l', shape_lt _ _ _ l' Hsh) as Hlt.
  assert (Hsock : obj_set c l (socket_of t1 r)
                  = sk (tkids s ++ [(c, T l None undefined [])])).
  { assert (socket_of t1 r = socket_of t r) as ->.
    { destruct r as [|l0]; [done|]. simpl. unfold deref.
      rewrite lookup_app_l; [done|]. apply Hlt. by left. }
    rewrite (shape_socket _ _ _ Hsh), obj_set_absent, sk_app; [done|].
    unfold sk. rewrite obj_keys_fmap. by apply obj_get_None. }
  assert (Hkeep : ∀ l', l' < length (heap t) → l' ∉ rlocs r →
            heap (put_socket t1 r (obj_set c l (socket_of t1 r))) !! l'
            = heap t !! l').
  { intros l' Hl' Hnin. destruct r as [|l0]; simpl.
    - by rewrite lookup_app_l.
    - rewrite list_lookup_insert_ne by (intros ->; apply Hnin; by left).
      by rewrite lookup_app_l. }
  assert (Hnew : heap (put_socket t1 r (obj_set c l (socket_of t1 r))) !! l
                 = Some new_Node).
  { destruct r as [|l0]; simpl.
    - by rewrite lookup_app_r, Nat.sub_diag.
    - rewrite list_lookup_insert_ne.
      + by rewrite lookup_app_r, Nat.sub_diag.
      + intros ->. specialize (Hlt l). unfold l in Hlt at 2.
        assert (l < l); [apply Hlt; by left | lia]. }
  split; cbn [tkids tloc].
  - split.
    + destruct r as [|l0]; cbn [put_socket rootSocket heap].
      * destruct Hsh as [(? & ? & ?) _]. by rewrite Hsock.
      * destruct Hsh as [[? Hl0] _]. split; [done|].
        rewrite list_lookup_insert_eq.
        -- rewrite Hsock. unfold t1. cbn [heap].
           rewrite deref_app_l by (eapply lookup_lt_Some; exact Hl0).
           by rewrite (deref_Some _ _ _ Hl0).
        -- cbn [heap t1]. rewrite length_app. apply lookup_lt_Some in Hl0. lia.
    + intros x. cbn [tkids]. rewrite subsF_app, subsF_cons. cbn [tkids subsF mbind list_bind].
      rewrite app_nil_r. intros [Hx|Hx]%elem_of_app.
      * rewrite Hkeep; [by apply Hsh | | by eapply sep_notin].
        apply Hlt, elem_of_app. right. apply list_elem_of_fmap. eauto.
      * apply list_elem_of_singleton in Hx as ->. exact Hnew.
  - unfold sep. cbn [tkids]. rewrite locsF_app, app_assoc. apply NoDup_app.
    split_and!; [done | | apply NoDup_singleton].
    intros x Hx Hx'. apply list_elem_of_singleton in Hx'. subst x.
    apply Hlt in Hx. cbn [tloc] in Hx. unfold l in Hx. lia.
  - done.
  - destruct r; cbn [put_socket heap t1]; rewrite ?length_insert, length_app; lia.
  - intros l' Hl' Hnin. apply Hkeep; [done|].
    intros Hin. apply Hnin, elem_of_app. by left.
  - by destruct r.
  - by destruct r.
  - intros l'. rewrite locsF_app. intros [?|Hl']%elem_of_app; [by left|].
    apply list_elem_of_singleton in Hl' as ->. by right.
Qed.

Lemma set_from_step path key v :
  path ≠ EmptyString → ∀ t r s,
  shape t r s → sep r s →
  step_at t (set_from t r path key v) r s (t_set (length (heap t)) s path key v)
  ∧ ∃ x, t_walk (t_set (length (heap t)) s path key v) path = Some x
         ∧ (set_loop t r path).2 = At (tloc x)
         ∧ tname x = Some key ∧ tval x = v.
Proof.
  induction path as [|c rest IH]; [done|]. intros _.
  assert (Hpresent : ∀ t r s k n, shape t r s → sep r s →
    obj_get c (tkids s) = Some k → n = length (heap t) →
    let s' := T (tloc s) (tname s) (tval s)
                (obj_set c (t_set n k rest key v) (tkids s)) in
    step_at t (set_from t r (String c rest) key v) r s s'
    ∧ ∃ x, t_walk s' (String c rest) = Some x
           ∧ (set_loop t r (String c rest)).2 = At (tloc x)
           ∧ tname x = Some key ∧ tval x = v).
  { intros t r s k n Hsh Hsep Hk -> s'.
    assert (Hloop : set_loop t r (String c rest) = set_loop t (At (tloc k)) rest).
    { cbn [set_loop]. by rewrite (shape_socket _ _ _ Hsh), sk_get, Hk. }
    pose proof (shape_child _ _ _ _ _ Hsh Hk) as Hshk.
    pose proof (sep_child _ _ _ _ Hsep Hk) as Hsepk.
    unfold set_from. rewrite Hloop. unfold s'. cbn [t_walk tkids].
    rewrite obj_get_set, decide_True by done.
    destruct rest as [|c' rest'].
    - cbn [set_loop t_set t_walk]. split.
      + eapply step_lift; [done..|]. by apply label_step.
      + eexists. split_and!; done.
    - destruct (IH ltac:(done) t (At (tloc k)) k Hshk Hsepk) as [Hstep Hx].
      split; [|done]. eapply step_lift; [done..|]. exact Hstep. }
  intros t r s Hsh Hsep.
  destruct (obj_get c (tkids s)) as [k|] eqn:Hk.
  - cbn [t_set]. rewrite Hk. by eapply Hpresent.
  - pose proof (alloc_child_step _ _ _ _ Hsh Hsep Hk) as Hstep. cbv zeta in Hstep.
    set (l := length (heap t)) in *.
    set (t1 := mkTrie (rootSocket t) (table t) (table_proto t) (heap t ++ [new_Node])) in *.
    set (t2 := put_socket t1 r (obj_set c l (socket_of t1 r))) in *.
    set (k0 := T l None undefined []) in *.
    set (s2 := T (tloc s) (tname s) (tval s) (tkids s ++ [(c, k0)])) in *.
    assert (Hk0 : obj_get c (tkids s2) = Some k0).
    { unfold s2. cbn [tkids]. rewrite obj_get_app_r by by apply obj_get_None.
      simpl. by rewrite decide_True. }
    assert (Hlen2 : S l = length (heap t2)).
    { unfold t2, t1. destruct r; cbn [put_socket heap];
        rewrite ?length_insert, length_app; simpl; lia. }
    destruct (Hpresent t2 r s2 k0 (S l) (step_shape _ _ _ _ _ Hstep)
                (step_sep _ _ _ _ _ Hstep) Hk0 Hlen2) as [Hstep2 Hx].
    assert (Hloop : set_loop t r (String c rest) = set_loop t2 r (String c rest)).
    { cbn [set_loop]. rewrite (shape_socket _ _ _ Hsh), sk_get, Hk. cbn [fmap option_fmap option_map].
      rewrite (shape_socket _ _ _ (step_shape _ _ _ _ _ Hstep)), sk_get, Hk0. done. }
    assert (Hs' : t_set l s (String c rest) key v
      = T (tloc s2) (tname s2) (tval s2)
          (obj_set c (t_set (S l) k0 rest key v) (tkids s2))).
    { cbn [t_set]. rewrite Hk. unfold s2. cbn [tloc tname tval tkids]. f_equal.
      rewrite (obj_set_split _ _ _ _ []); [done|]. by apply obj_get_None. }
    rewrite Hs'. unfold set_from. rewrite Hloop. split; [|done].
    eapply step_trans; [exact Hstep|]. exact Hstep2.
Qed.

Lemma closest_walk t p : ∀ r s, shape t r s →
  closest t r p = ref_at r p <$> t_walk s p.
Proof.
  induction p as [|c rest IH]; intros r s Hsh; [done|].
  cbn [closest t_walk]. rewrite (shape_socket _ _ _ Hsh), sk_get.
  destruct (obj_get c (tkids s)) as [k|] eqn:Hk; [|done]. cbn [fmap option_fmap option_map].
  rewrite (IH _ k (shape_child _ _ _ _ _ Hsh Hk)).
  destruct (t_walk k rest) as [x|] eqn:Hx; [|done]. simpl.
  destruct rest; [|done]. simpl in Hx. by simplify_eq.
Qed.

Lemma sep_walk p : ∀ r s x,
  sep r s → t_walk s p = Some x → sep (ref_at r p x) x.
Proof.
  induction p as [|c rest IH]; intros r s x Hsep Hx; simpl in Hx.
  - by simplify_eq.
  - destruct (obj_get c (tkids s)) as [k|] eqn:Hk; [|done].
    pose proof (IH _ _ _ (sep_child _ _ _ _ Hsep Hk) Hx) as Hsep'.
    destruct rest; [|done]. simpl in Hx. by simplify_eq.
Qed.

Lemma shape_walk t p : ∀ r s x,
  shape t r s → t_walk s p = Some x → shape t (ref_at r p x) x.
Proof.
  induction p as [|c rest IH]; intros r s x Hsh Hx; simpl in Hx.
  - by simplify_eq.
  - destruct (obj_get c (tkids s)) as [k|] eqn:Hk; [|done].
    pose proof (IH _ _ _ (shape_child _ _ _ _ _ Hsh Hk) Hx) as Hsh'.
    destruct rest; [|done]. simpl in Hx. by simplify_eq.
Qed.

(** A change below the node at [p] is a change below [r]. *)
Lemma at_step g t t' p : ∀ r s x,
  shape t r s → sep r s → t_walk s p = Some x →
  step_at t t' (ref_at r p x) x (g x) →
  step_at t t' r s (t_at g s p).
Proof.
  induction p as [|c rest IH]; intros r s x Hsh Hsep Hx Hstep; simpl in Hx.
  - by simplify_eq.
  - destruct (obj_get c (tkids s)) as [k|] eqn:Hk; [|done].
    cbn [t_at]. rewrite Hk. eapply step_lift; [done..|].
    apply (IH _ _ x); [by eapply shape_child | by eapply sep_child | done |].
    destruct rest; [|done]. simpl in Hx. by simplify_eq.
Qed.

Lemma sk_delete c F : obj_delete c (sk F) = sk (obj_delete c F).
Proof. apply obj_delete_fmap. Qed.

Lemma subsF_delete c F : subsF (obj_delete c F) `sublist_of` subsF F.
Proof. apply bind_sublist, obj_delete_sublist. Qed.

Lemma cut_step t r x c :
  shape t r x → sep r x →
  step_at t (put_socket t r (obj_delete c (socket_of t r))) r x (cut c x).
Proof.
  intros Hsh Hsep. pose proof (λ l', shape_lt _ _ _ l' Hsh) as Hlt.
  rewrite (shape_socket _ _ _ Hsh), sk_delete.
  pose proof (subsF_delete c (tkids x)) as Hsub.
  split; cbn [cut tkids tloc]; try done.
  - split.
    + destruct r as [|l]; cbn [put_socket rootSocket heap].
      * by destruct Hsh as [(? & ? & ?) _].
      * destruct Hsh as [[? Hl] _]. split; [done|].
        rewrite list_lookup_insert_eq by by apply lookup_lt_Some in Hl.
        unfold deref. by rewrite Hl.
    + intros y Hy. eapply elem_of_sublist in Hy; [|exact Hsub].
      destruct r as [|l]; cbn [put_socket heap]; [by apply Hsh|].
      rewrite list_lookup_insert_ne; [by apply Hsh|].
      intros ->. eapply sep_notin; [done..|]. by left.
  - unfold sep in *. cbn [tkids]. eapply sublist_NoDup; [exact Hsep|].
    apply sublist_app; [done|]. by apply fmap_sublist.
  - destruct r; cbn [put_socket heap]; by rewrite ?length_insert.
  - intros l' _ Hnin. destruct r as [|l]; cbn [put_socket heap]; [done|].
    rewrite list_lookup_insert_ne; [done|]. intros ->. apply Hnin. by left.
  - by destruct r.
  - by destruct r.
  - intros l Hl. left. eapply elem_of_sublist; [exact Hl|]. by apply fmap_sublist.
Qed.

(** ** Strings as paths *)

Lemma str_nil (b : string) : EmptyString +:+ b = b.
Proof. reflexivity. Qed.

Lemma str_cons c (a b : string) : String c a +:+ b = String c (a +:+ b).
Proof. reflexivity. Qed.

Lemma str_app_nil_r (s : string) : s +:+ EmptyString = s.
Proof. induction s as [|c s IH]; [done | by rewrite str_cons, IH]. Qed.

Lemma str_app_assoc (a b c : string) : (a +:+ b) +:+ c = a +:+ (b +:+ c).
Proof. induction a as [|x a IH]; [done | by rewrite !str_cons, IH]. Qed.

Lemma str_app_inv_head (a b c : string) : a +:+ b = a +:+ c → b = c.
Proof.
  induction a as [|x a IH]; [done|]. rewrite !str_cons.
  intros ?; simplify_eq. auto.
Qed.

Lemma str_app_self_inv (a b : string) : a = a +:+ b → b = EmptyString.
Proof.
  induction a as [|x a IH]; [done|]. rewrite str_cons.
  intros ?; simplify_eq. auto.
Qed.

Lemma prefix_spec (q k : string) :
  String.prefix q k = true ↔ ∃ rest, k = q +:+ rest.
Proof.
  revert k. induction q as [|c q IH]; intros k.
  - destruct k; simpl; (split; [eauto | done]).
  - destruct k as [|c' k]; simpl; [split; [done | by intros [? ?]]|].
    destruct (Ascii.ascii_dec c c') as [->|Hne].
    + rewrite IH. split; intros [rest Hr]; exists rest.
      * by rewrite str_cons, Hr.
      * rewrite str_cons in Hr. congruence.
    + split; [done | intros [rest Hr]; rewrite str_cons in Hr; congruence].
Qed.

Lemma prefix_dec_split (q k : string) :
  (∃ rest, k = q +:+ rest) ∨ (∀ rest, k ≠ q +:+ rest).
Proof.
  destruct (String.prefix q k) eqn:Hp.
  - left. by apply prefix_spec.
  - right. intros rest ->. assert (String.prefix q (q +:+ rest) = true); [|congruence].
    apply prefix_spec. eauto.
Qed.

(** ** Walking the tree after a change *)

Lemma walk_app p q : ∀ s, t_walk s (p +:+ q) = t_walk s p ≫= λ x, t_walk x q.
Proof.
  induction p as [|c p IH]; intros s; [done|]. rewrite str_cons. simpl.
  destruct (obj_get c (tkids s)); [apply IH | done].
Qed.

Lemma t_set_loc n s path key v : tloc (t_set n s path key v) = tloc s.
Proof. destruct path; simpl; [done|]. by destruct (obj_get _ _). Qed.

Lemma t_set_name n s path key v :
  tname (t_set n s path key v) = if path is EmptyString then Some key else tname s.
Proof. destruct path; simpl; [done|]. by destruct (obj_get _ _). Qed.

Lemma t_set_val n s path key v :
  tval (t_set n s path key v) = if path is EmptyString then v else tval s.
Proof. destruct path; simpl; [done|]. by destruct (obj_get _ _). Qed.

Lemma t_set_kids_nil n s key v : tkids (t_set n s EmptyString key v) = tkids s.
Proof. done. Qed.

Lemma t_set_kids_cons n s c rest key v :
  tkids (t_set n s (String c rest) key v) ≠ [].
Proof.
  simpl. destruct (obj_get c (tkids s)) as [k|] eqn:Hk; simpl.
  - destruct (tkids s) as [|[]]; [done|]. simpl. by case_decide.
  - by destruct (tkids s).
Qed.

Lemma walk_set_prefix key v q : ∀ rest n s,
  ∃ n' x0, t_walk (t_set n s (q +:+ rest) key v) q = Some (t_set n' x0 rest key v)
           ∧ (t_walk s q = Some x0 ∨ (t_walk s q = None ∧ fresh_node x0)).
Proof.
  induction q as [|c q IH]; intros rest n s.
  - exists n, s. by split; [|left].
  - rewrite ?str_cons; cbn [t_set t_walk].
    destruct (obj_get c (tkids s)) as [k|] eqn:Hk; cbn [tkids t_walk].
    + rewrite obj_get_set, decide_True by done. apply IH.
    + rewrite obj_get_app_r by by apply obj_get_None.
      cbn [obj_get]. rewrite decide_True by done.
      destruct (IH rest (S n) (T n None undefined [])) as (n' & x0 & Hw & Hx0).
      exists n', x0. split; [done|]. right. split; [done|].
      destruct Hx0 as [Hx0|[_ ?]]; [|done].
      destruct q; simpl in Hx0; by simplify_eq.
Qed.

Lemma walk_set_other key v path : ∀ q n s,
  (∀ rest, path ≠ q +:+ rest) →
  t_walk (t_set n s path key v) q = t_walk s q.
Proof.
  induction path as [|c path IH]; intros q n s Hq.
  - destruct q as [|c' q]; [by specialize (Hq EmptyString)|]. done.
  - destruct q as [|c' q]; [by specialize (Hq (String c path))|].
    cbn [t_set t_walk].
    destruct (obj_get c (tkids s)) as [k|] eqn:Hk; cbn [tkids].
    + rewrite obj_get_set. case_decide as Hc; [|done]. subst c'. rewrite Hk.
      apply IH. intros rest ->. by apply (Hq rest).
    + destruct (decide (c = c')) as [<-|Hne].
      * rewrite obj_get_app_r by by apply obj_get_None.
        cbn [obj_get]. rewrite decide_True, Hk by done.
        rewrite IH; [|intros rest ->; by apply (Hq rest)].
        destruct q as [|c'' q]; [by specialize (Hq path)|]. done.
      * destruct (obj_get c' (tkids s)) as [k'|] eqn:Hk'.
        -- by rewrite (obj_get_app_l _ _ _ _ Hk').
        -- rewrite obj_get_app_r by by apply obj_get_None.
           cbn [obj_get]. by rewrite decide_False.
Qed.

Lemma t_at_loc g s p : (∀ x, tloc (g x) = tloc x) → tloc (t_at g s p) = tloc s.
Proof. intros Hg. destruct p; simpl; [done|]. by destruct (obj_get _ _). Qed.

Lemma walk_at_prefix g q : ∀ rest s x0,
  t_walk s q = Some x0 →
  t_walk (t_at g s (q +:+ rest)) q = Some (t_at g x0 rest).
Proof.
  induction q as [|c q IH]; intros rest s x0 Hx0; simpl in Hx0.
  - by simplify_eq.
  - rewrite ?str_cons; cbn [t_at t_walk].
    destruct (obj_get c (tkids s)) as [k|] eqn:Hk; [|done]. cbn [tkids].
    rewrite obj_get_set, decide_True by done. by apply IH.
Qed.

Lemma walk_at_below g p : ∀ rest s x0,
  t_walk s p = Some x0 →
  t_walk (t_at g s p) (p +:+ rest) = t_walk (g x0) rest.
Proof.
  intros rest s x0 Hx0. rewrite walk_app.
  rewrite <-(str_app_nil_r p) at 1. by rewrite (walk_at_prefix _ _ _ _ _ Hx0).
Qed.

Lemma walk_at_other g p : ∀ q s,
  (∀ rest, p ≠ q +:+ rest) → (∀ rest, q ≠ p +:+ rest) →
  t_walk (t_at g s p) q = t_walk s q.
Proof.
  induction p as [|c p IH]; intros q s Hq Hp.
  - by specialize (Hp q).
  - destruct q as [|c' q]; [by specialize (Hq (String c p))|].
    cbn [t_at t_walk].
    destruct (obj_get c (tkids s)) as [k|] eqn:Hk; [|done]. cbn [tkids].
    rewrite obj_get_set. case_decide as Hc; [|done]. subst c'. rewrite Hk.
    apply IH; intros rest ->; [by apply (Hq rest) | by apply (Hp rest)].
Qed.

Lemma t_at_missing g p : ∀ s, t_walk s p = None → t_at g s p = s.
Proof.
  induction p as [|c p IH]; intros s Hs; [done|]. simpl in *.
  destruct (obj_get c (tkids s)) as [k|] eqn:Hk; [|done].
  rewrite (IH _ Hs). destruct s as [l nm vl kids]. simpl in *. f_equal.
  apply obj_get_split in Hk as (F1 & F2 & -> & Hc). by apply obj_set_split.
Qed.

(** ** Invariants of the tree *)

Lemma ok_keys p s : ok p s → NoDup (tkids s).*1.
Proof. by inversion 1. Qed.

Lemma ok_kid p s c k :
  ok p s → obj_get c (tkids s) = Some k →
  (tname k = None ∨ tname k = Some (p +:+ String c EmptyString)) ∧
  (tkids k = [] → tname k = Some (p +:+ String c EmptyString)) ∧
  ok (p +:+ String c EmptyString) k.
Proof. inversion 1 as [? ? _ Hk]. intros ?%obj_get_Some_elem. by apply Hk. Qed.

Lemma ok_own p l nm vl l' nm' vl' kids : ok p (T l nm vl kids) → ok p (T l' nm' vl' kids).
Proof. inversion 1; subst. by constructor. Qed.

Lemma str_snoc p c rest : (p +:+ String c EmptyString) +:+ rest = p +:+ String c rest.
Proof. by rewrite str_app_assoc. Qed.

Lemma ok_walk q : ∀ p s x,
  ok p s → t_walk s q = Some x →
  ok (p +:+ q) x ∧
  (q ≠ EmptyString → (tname x = None ∨ tname x = Some (p +:+ q)) ∧
            (tkids x = [] → tname x = Some (p +:+ q))).
Proof.
  induction q as [|c q IH]; intros p s x Hok Hx; simpl in Hx.
  - simplify_eq. by rewrite str_app_nil_r.
  - destruct (obj_get c (tkids s)) as [k|] eqn:Hk; [|done].
    destruct (ok_kid _ _ _ _ Hok Hk) as (Hnm & Hlive & Hokk).
    destruct (IH _ _ _ Hokk Hx) as [Hokx Hq]. rewrite str_snoc in Hokx, Hq.
    split; [done|]. intros _. destruct q as [|c' q]; [|by apply Hq].
    simpl in Hx. by simplify_eq.
Qed.

Lemma walk_subs q : ∀ s x, t_walk s q = Some x → x ∈ subs s.
Proof.
  induction q as [|c q IH]; intros s x Hx; simpl in Hx.
  - simplify_eq. rewrite subs_unfold. left.
  - destruct (obj_get c (tkids s)) as [k|] eqn:Hk; [|done].
    rewrite subs_unfold. right. apply elem_of_subsF. exists c, k.
    split; [by apply obj_get_Some_elem|].
    specialize (IH _ _ Hx). rewrite subs_unfold in IH. by apply elem_of_cons in IH.
Qed.

Lemma subs_walk s : ∀ p x, ok p s → x ∈ subs s → ∃ q, t_walk s q = Some x.
Proof.
  induction s as [l nm vl kids IH] using tree_ind'. intros p x Hok Hx.
  rewrite subs_unfold in Hx. apply elem_of_cons in Hx as [->|Hx].
  - by exists EmptyString.
  - cbn [tkids] in Hx. apply elem_of_subsF in Hx as (c & k & Hin & Hx).
    assert (obj_get c kids = Some k) as Hk.
    { apply obj_get_elem; [exact (ok_keys _ _ Hok) | done]. }
    destruct (ok_kid _ _ _ _ Hok Hk) as (_ & _ & Hokk).
    rewrite Forall_forall in IH. specialize (IH _ Hin _ x Hokk). cbn [snd] in IH.
    destruct IH as [q Hq].
    { rewrite subs_unfold. apply elem_of_cons. done. }
    exists (String c q). cbn [t_walk tkids]. by rewrite Hk.
Qed.

Lemma obj_set_elem {K A} `{EqDecision K} (k k' : K) (a a' : A) o :
  (k', a') ∈ obj_set k a o → (k' = k ∧ a' = a) ∨ (k', a') ∈ o.
Proof.
  induction o as [|[k0 a0] o IH]; simpl.
  - intros ?%list_elem_of_singleton. simplify_eq. by left.
  - case_decide; subst; rewrite !elem_of_cons; intros [?|?]; simplify_eq; auto.
    destruct IH as [?|?]; auto.
Qed.

Lemma ok_set key v path : ∀ p n s,
  key = p +:+ path → ok p s → ok p (t_set n s path key v).
Proof.
  induction path as [|c rest IH]; intros p n s Hkey Hok.
  - destruct s. by eapply ok_own.
  - assert (Hkid : ∀ n' k,
      (tname k = None ∨ tname k = Some (p +:+ String c EmptyString)) →
      ok (p +:+ String c EmptyString) k →
      let k' := t_set n' k rest key v in
      (tname k' = None ∨ tname k' = Some (p +:+ String c EmptyString)) ∧
      (tkids k' = [] → tname k' = Some (p +:+ String c EmptyString)) ∧
      ok (p +:+ String c EmptyString) k').
    { intros n' k Hnm Hokk k'. unfold k'.
      rewrite t_set_name. split_and!.
      - destruct rest; [right; by rewrite Hkey | done].
      - destruct rest; [by rewrite Hkey|]. intros Hnil. by apply t_set_kids_cons in Hnil.
      - apply IH; [by rewrite str_snoc | done]. }
    inversion Hok as [? ? Hnd Hkids]; subst. cbn [t_set].
    destruct (obj_get c (tkids s)) as [k|] eqn:Hk.
    + constructor; cbn [tkids]; [by apply obj_set_NoDup|].
      intros c1 k1 [[-> ->]|Hin]%obj_set_elem; [|by apply Hkids].
      destruct (ok_kid _ _ _ _ Hok Hk) as (? & ? & ?). by apply Hkid.
    + constructor; cbn [tkids].
      * rewrite fmap_app. apply NoDup_app. split_and!; [done | | apply NoDup_singleton].
        intros x Hx ->%list_elem_of_singleton. by apply obj_get_None in Hk.
      * intros c1 k1 [Hin|Hin]%elem_of_app; [by apply Hkids|].
        apply list_elem_of_singleton in Hin. simplify_eq.
        apply Hkid; [by left|]. constructor; [apply NoDup_nil_2|].
        intros ? ? Hin. by apply elem_of_nil in Hin.
Qed.

Lemma t_at_name g s c rest : tname (t_at g s (String c rest)) = tname s.
Proof. simpl. by destruct (obj_get _ _). Qed.

Lemma t_at_val g s c rest : tval (t_at g s (String c rest)) = tval s.
Proof. simpl. by destruct (obj_get _ _). Qed.

Lemma t_at_kids g s c rest : tkids s ≠ [] → tkids (t_at g s (String c rest)) ≠ [].
Proof.
  simpl. destruct (obj_get _ _); [|done]. simpl. intros _.
  destruct (tkids s) as [|[]]; [done|]. simpl. by case_decide.
Qed.

Lemma ok_at g q : ∀ p s y,
  ok p s → t_walk s q = Some y →
  ok (p +:+ q) (g y) →
  (q ≠ EmptyString →
     (tname (g y) = None ∨ tname (g y) = Some (p +:+ q)) ∧
     (tkids (g y) = [] → tname (g y) = Some (p +:+ q))) →
  ok p (t_at g s q).
Proof.
  induction q as [|c rest IH]; intros p s y Hok Hy Hgy Hloc; simpl in Hy.
  - simplify_eq. by rewrite str_app_nil_r in Hgy.
  - destruct (obj_get c (tkids s)) as [k|] eqn:Hk; [|done].
    cbn [t_at]. rewrite Hk.
    destruct (ok_kid _ _ _ _ Hok Hk) as (Hnm & Hlive & Hokk).
    inversion Hok as [? ? Hnd Hkids]; subst.
    constructor; cbn [tkids]; [by apply obj_set_NoDup|].
    intros c1 k1 [[-> ->]|Hin]%obj_set_elem; [|by apply Hkids].
    rewrite <-str_snoc in Hgy, Hloc.
    destruct rest as [|c' rest].
    + simpl in Hy. simplify_eq. cbn [t_at]. rewrite str_app_nil_r in Hgy, Hloc.
      destruct Hloc as [? ?]; done.
    + rewrite t_at_name. split_and!; [done | |].
      * intros Hnil. apply t_at_kids in Hnil; [done|].
        simpl in Hy. intros Hnil'. by rewrite Hnil' in Hy.
      * eapply IH; [done | done | done | intros _; by apply Hloc].
Qed.

(** ** The invariant of the store *)

Lemma shape_ext t t' r s :
  shape t r s → rootSocket t' = rootSocket t → heap t' = heap t → shape t' r s.
Proof. unfold shape. intros H Hr Hh. rewrite Hr, Hh. done. Qed.

Lemma Inv_tree t R : Inv_with t R → Tree_with t R.
Proof. intros [? ? ? ? ? ?]. by split. Qed.

Lemma Inv_Tree t : Inv t → Tree t.
Proof. intros [R HI]. exists R. by apply Inv_tree. Qed.

Lemma Tree_ext t t' R :
  Tree_with t R → rootSocket t' = rootSocket t → heap t' = heap t →
  Tree_with t' R.
Proof. intros [Hsh ? ?] Hr Hh. split; [by eapply shape_ext | done..]. Qed.

Lemma Inv_new : Inv_with new_Trie (T 0 None undefined []).
Proof.
  split.
  - split; [done|]. intros x Hx. by apply elem_of_nil in Hx.
  - apply NoDup_nil_2.
  - constructor; [apply NoDup_nil_2|]. intros ? ? Hin. by apply elem_of_nil in Hin.
  - split; [apply NoDup_nil_2|]. intros k l. split; [done|].
    intros (x & Hx & _ & Hnm). destruct k; simpl in Hx; by simplify_eq.
  - done.
  - done.
Qed.

Lemma Inv_reset t : Inv_with (reset t) (T 0 None undefined []).
Proof.
  split.
  - split; [done|]. intros x Hx. by apply elem_of_nil in Hx.
  - apply NoDup_nil_2.
  - constructor; [apply NoDup_nil_2|]. intros ? ? Hin. by apply elem_of_nil in Hin.
  - split; [apply NoDup_nil_2|]. intros k l. split; [done|].
    intros (x & Hx & _ & Hnm). destruct k; simpl in Hx; by simplify_eq.
  - done.
  - done.
Qed.

Lemma table_put_root t key l : rootSocket (table_put t key l) = rootSocket t.
Proof. unfold table_put. by case_decide. Qed.

Lemma table_put_heap t key l : heap (table_put t key l) = heap t.
Proof. unfold table_put. by case_decide. Qed.

Lemma table_put_own t key l :
  key ≠ "__proto__" →
  table_put t key l
  = mkTrie (rootSocket t) (obj_set key l (table t)) (table_proto t) (heap t).
Proof. intros ?. unfold table_put. by rewrite decide_False. Qed.

Lemma put_socket_proto t r s : table_proto (put_socket t r s) = table_proto t.
Proof. by destruct r. Qed.

Lemma set_loop_proto key : ∀ t r,
  table_proto (set_loop t r key).1 = table_proto t.
Proof.
  induction key as [|c key IH]; intros t r; [done|]. cbn [set_loop].
  destruct (obj_get c (socket_of t r)); [apply IH|].
  by rewrite IH, put_socket_proto.
Qed.

Lemma set_unfold t key v l :
  key ≠ EmptyString → (set_loop t Root key).2 = At l →
  set t key v = table_put (set_from t Root key key v) key l.
Proof.
  intros Hkey Hl. unfold set, set_from. destruct key; [done|].
  destruct (set_loop t Root (String a key)) as [t' r']. simpl in Hl. subst r'.
  done.
Qed.

Lemma set_from_table t r path key v :
  table (set_from t r path key v) = table (set_loop t r path).1.
Proof. unfold set_from. destruct (set_loop t r path) as [t' []]; done. Qed.

Lemma set_from_proto t r path key v :
  table_proto (set_from t r path key v) = table_proto t.
Proof.
  rewrite <-(set_loop_proto path t r). unfold set_from.
  destruct (set_loop t r path) as [t' []]; done.
Qed.

(** [set] keeps the tree a tree, whatever the key. *)
Lemma Tree_set t R key v :
  Tree_with t R → key ≠ EmptyString →
  Tree_with (set t key v) (t_set (length (heap t)) R key key v)
  ∧ ∃ x, t_walk (t_set (length (heap t)) R key key v) key = Some x
         ∧ (set_loop t Root key).2 = At (tloc x)
         ∧ tname x = Some key ∧ tval x = v
         ∧ set t key v = table_put (set_from t Root key key v) key (tloc x)
         ∧ table (set_from t Root key key v) = table t.
Proof.
  intros [Hsh Hsep Hok] Hkey.
  destruct (set_from_step key key v Hkey t Root R Hsh Hsep)
    as [Hstep (x & Hx & Hend & Hxn & Hxv)].
  rewrite (set_unfold _ _ _ _ Hkey Hend).
  split; [|exists x; split_and!; try done; exact (step_table _ _ _ _ _ Hstep)].
  split.
  - eapply shape_ext; [exact (step_shape _ _ _ _ _ Hstep) | |].
    + apply table_put_root.
    + apply table_put_heap.
  - exact (step_sep _ _ _ _ _ Hstep).
  - by apply ok_set.
Qed.

Lemma Inv_set t R key v :
  Inv_with t R → key ≠ EmptyString → key ≠ "__proto__" →
  Inv_with (set t key v) (t_set (length (heap t)) R key key v)
  ∧ ∃ x, t_walk (t_set (length (heap t)) R key key v) key = Some x
         ∧ (set_loop t Root key).2 = At (tloc x) ∧ tval x = v
         ∧ table (set t key v) = obj_set key (tloc x) (table t).
Proof.
  intros HI Hkey Hpr.
  destruct (Tree_set t R key v (Inv_tree _ _ HI) Hkey)
    as [[Hsh' Hsep' Hok'] (x & Hx & Hend & Hxn & Hxv & Hset & Htb)].
  destruct HI as [Hsh Hsep Hok [Hnd Htab] Hproto Hown].
  assert (Htable : table (set t key v) = obj_set key (tloc x) (table t)).
  { rewrite Hset, table_put_own by done. cbn [table]. by rewrite Htb. }
  split; [|exists x; split_and!; done]. split; [done..| | |].
  3:{ rewrite Htable, obj_get_set. by rewrite decide_False. }
  - rewrite Htable.
    split; [by apply obj_set_NoDup|]. intros k l. rewrite obj_get_set.
    case_decide as Hk.
    + subst k. split.
      * intros ?; simplify_eq. exists x. by rewrite Hxn.
      * intros (x' & Hx' & <- & _). congruence.
    + rewrite Htab. destruct (prefix_dec_split k key) as [[rest Hr]|Hnp].
      * destruct (walk_set_prefix key v k rest (length (heap t)) R)
          as (n' & x0 & Hw & Hx0).
        rewrite <-Hr in Hw.
        assert (rest ≠ EmptyString) as Hrest.
        { intros ->. rewrite str_app_nil_r in Hr. congruence. }
        rewrite Hw.
        split; intros (x' & Hx' & Hl & Hn).
        -- eexists. split; [done|]. rewrite t_set_loc, t_set_name.
           destruct Hx0 as [Hx0|[Hx0 _]]; [|congruence].
           destruct rest; [done|]. by simplify_eq.
        -- simplify_eq. rewrite t_set_loc. rewrite t_set_name in Hn.
           destruct rest; [done|].
           destruct Hx0 as [Hx0|[_ (Hx0 & _)]]; [by eauto | done].
      * by rewrite walk_set_other.
  - rewrite Hset, table_put_own by done. cbn [table_proto].
    by rewrite set_from_proto.
Qed.

(** ** Object.keys *)

Lemma digits_NoDup : NoDup digits.
Proof. apply (bool_decide_unpack (NoDup digits)). by vm_compute. Qed.

Lemma Object_keys_perm (s : Socket) : NoDup s.*1 → Object_keys s ≡ₚ s.*1.
Proof.
  intros Hnd. unfold Object_keys.
  etrans; [|apply (filter_app_complement (λ c : ascii, is_index_key c) s.*1)].
  apply Permutation_app; [|done].
  apply NoDup_Permutation.
  - apply NoDup_filter, digits_NoDup.
  - by apply NoDup_filter.
  - intros d. rewrite !list_elem_of_filter. unfold is_index_key.
    rewrite bool_decide_spec.
    assert (is_Some (obj_get d s) ↔ d ∈ s.*1) as ->; [|tauto].
    rewrite <-not_eq_None_Some, obj_get_None.
    destruct (decide (d ∈ s.*1)); tauto.
Qed.

Lemma Object_keys_length (s : Socket) :
  NoDup s.*1 → length (Object_keys s) = length s.
Proof.
  intros Hnd. rewrite (Permutation_length (Object_keys_perm s Hnd)).
  apply length_fmap.
Qed.

Lemma Object_keys_nil : Object_keys [] = [].
Proof. reflexivity. Qed.

Lemma Object_keys_elem (s : Socket) c : c ∈ Object_keys s → c ∈ s.*1.
Proof.
  unfold Object_keys. rewrite elem_of_app, !list_elem_of_filter.
  intros [[Hs _]|[_ ?]]; [|done].
  apply dec_stable. intros Hn. apply obj_get_None in Hn. rewrite Hn in Hs.
  by destruct Hs.
Qed.

Lemma sk_keys F : (sk F).*1 = F.*1.
Proof. apply obj_keys_fmap. Qed.

Lemma sk_length F : length (sk F) = length F.
Proof. apply length_fmap. Qed.

(** ** The second walk of [remove] *)

Lemma shape_anchor t r s :
  shape t r s → NoDup (tkids s).*1 →
  truthy (name_of t r) || (2 <=? length (Object_keys (socket_of t r))) = anchor s.
Proof.
  intros Hsh Hnd. unfold anchor.
  rewrite (shape_name _ _ _ Hsh), (shape_socket _ _ _ Hsh).
  rewrite Object_keys_length, sk_length; [done|]. by rewrite sk_keys.
Qed.

Lemma remove_walk_spec t q : ∀ r s p point x,
  shape t r s → ok p s → t_walk s q = Some x →
  ∃ point', remove_walk t r point q = Some point' ∧
    ((point' = point ∧ plain s q) ∨
     (∃ q1 c q2 y z,
        q = q1 +:+ String c q2 ∧ point' = Some (ref_at r q1 y, c) ∧
        t_walk s q1 = Some y ∧ anchor y = true ∧
        obj_get c (tkids y) = Some z ∧ plain z q2)).
Proof.
  induction q as [|c rest IH]; intros r s p point x Hsh Hok Hx.
  - exists point. split; [done|]. by left.
  - cbn [remove_walk t_walk] in *.
    rewrite (shape_anchor _ _ _ Hsh (ok_keys _ _ Hok)).
    rewrite (shape_socket _ _ _ Hsh), sk_get.
    destruct (obj_get c (tkids s)) as [k|] eqn:Hk; [|done].
    cbn [fmap option_fmap option_map].
    destruct (ok_kid _ _ _ _ Hok Hk) as (_ & _ & Hokk).
    destruct (IH (At (tloc k)) k _ (if anchor s then Some (r, c) else point) x
                (shape_child _ _ _ _ _ Hsh Hk) Hokk Hx)
      as (point' & Hw & Hcase).
    exists point'. split; [done|].
    destruct Hcase as [[-> Hplain]|(q1 & c' & q2 & y & z & -> & -> & Hy & Ha & Hz & Hpl)].
    + destruct (anchor s) eqn:Ha.
      * right. exists EmptyString, c, rest, s, k. by rewrite str_nil.
      * left. split; [done|]. cbn [plain]. eauto.
    + right. exists (String c q1), c', q2, y, z. rewrite str_cons.
      cbn [t_walk]. rewrite Hk. split_and!; try done.
      destruct q1; [|done]. simpl in Hy. by simplify_eq.
Qed.

(** Below an edge that leads, through plain nodes only, to a node without
    children there is nothing but that way. *)
Lemma plain_chain q2 : ∀ z x q' w,
  plain z q2 → t_walk z q2 = Some x → tkids x = [] →
  t_walk z q' = Some w →
  ∃ rest, q2 = q' +:+ rest ∧ (rest ≠ EmptyString → truthy (tname w) = false).
Proof.
  induction q2 as [|c q2 IH]; intros z x q' w Hpl Hx Hleaf Hw.
  - simpl in Hx. simplify_eq. destruct q' as [|c' q'].
    + exists EmptyString. by split.
    + simpl in Hw. by rewrite Hleaf in Hw.
  - cbn [plain] in Hpl. cbn [t_walk] in Hx. destruct Hpl as (Ha & k & Hk & Hpl).
    rewrite Hk in Hx. unfold anchor in Ha.
    apply orb_false_iff in Ha as [Hnm Hlen]. apply Nat.leb_gt in Hlen.
    destruct q' as [|c' q'].
    + simpl in Hw. simplify_eq. exists (String c q2). split; [reflexivity | done].
    + cbn [t_walk] in Hw.
      destruct (tkids z) as [|[c0 k0] [|? ?]]; simpl in Hlen; [done| |lia].
      simpl in Hw, Hk.
      destruct (decide (c0 = c)) as [->|]; [|done].
      destruct (decide (c = c')) as [<-|]; [|done]. simplify_eq.
      destruct (IH _ _ _ _ Hpl Hx Hleaf Hw) as (rest & -> & Hrest).
      exists rest. by rewrite str_cons.
Qed.

(** ** Entries of the table and nodes of the tree *)

Lemma walk_prefix_Some p rest s x :
  t_walk s (p +:+ rest) = Some x → ∃ y, t_walk s p = Some y ∧ t_walk y rest = Some x.
Proof.
  rewrite walk_app. destruct (t_walk s p) as [y|]; [|done]. simpl. eauto.
Qed.

Lemma term_at_off g p0 s y k' l :
  (∀ x, tloc (g x) = tloc x) →
  t_walk s p0 = Some y →
  (∀ rest, k' ≠ p0 +:+ rest) →
  term (t_at g s p0) k' l ↔ term s k' l.
Proof.
  intros Hg Hy Hk'. unfold term.
  destruct (prefix_dec_split k' p0) as [[rest Hr]|Hnp].
  - subst p0. destruct (walk_prefix_Some _ _ _ _ Hy) as (x0 & Hx0 & _).
    rewrite (walk_at_prefix _ _ _ _ _ Hx0), Hx0.
    assert (tloc (t_at g x0 rest) = tloc x0 ∧ tname (t_at g x0 rest) = tname x0)
      as [Hl Hn].
    { destruct rest as [|c rest].
      - exfalso. apply (Hk' EmptyString). by rewrite !str_app_nil_r.
      - by rewrite t_at_loc, t_at_name. }
    split; intros (x & ? & ? & ?); simplify_eq; eexists; split_and!; try done;
      congruence.
  - by rewrite walk_at_other.
Qed.

Lemma tab_node t R k e :
  Inv_with t R → obj_get k (table t) = Some e →
  ∃ x, t_walk R k = Some x ∧ tloc x = e ∧ tname x = Some k ∧ k ≠ EmptyString
       ∧ heap t !! e = Some (node_of x) ∧ ok k x.
Proof.
  intros [Hsh Hsep Hok [Hnd Htab]] He.
  apply Htab in He as (x & Hx & Hl & Hn).
  assert (k ≠ EmptyString) as Hk.
  { intros ->. simpl in Hx. simplify_eq. by destruct Hsh as [(_ & ? & _) _]. }
  destruct (ok_walk _ _ _ _ Hok Hx) as [Hokx Hnm]. rewrite str_nil in Hokx, Hnm.
  destruct (Hnm Hk) as [[?|?] _]; [done|].
  pose proof (shape_walk _ _ _ _ _ Hsh Hx) as Hs.
  destruct k as [|c k]; [done|]. cbn [ref_at] in Hs. destruct Hs as [[_ Hlook] _].
  exists x. subst e. split_and!; done.
Qed.

Lemma obj_delete_length {K A} `{EqDecision K} (k : K) (o : list (K * A)) :
  NoDup o.*1 → length o ≤ S (length (obj_delete k o)).
Proof.
  induction o as [|[k0 a0] o IH]; simpl; [lia|].
  intros [Hk0 Hnd]%NoDup_cons. case_decide; simpl.
  - subst. rewrite obj_delete_absent; [lia | done].
  - specialize (IH Hnd). lia.
Qed.

Lemma ok_cut p y c : ok p y → ok p (cut c y).
Proof.
  inversion 1 as [? ? Hnd Hkids]; subst. constructor; cbn [cut tkids].
  - by apply obj_delete_NoDup.
  - intros c1 k1 [_ Hin]%obj_delete_elem. by apply Hkids.
Qed.

Lemma walk_at_back g p0 :
  (∀ x q y', t_walk (g x) q = Some y' →
             ∃ y, t_walk x q = Some y ∧ tloc y = tloc y') →
  ∀ s q y', t_walk (t_at g s p0) q = Some y' →
            ∃ y, t_walk s q = Some y ∧ tloc y = tloc y'.
Proof.
  intros Hg. induction p0 as [|c p0 IH]; intros s q y' Hy'; [by apply Hg|].
  cbn [t_at] in Hy'. destruct (obj_get c (tkids s)) as [k|] eqn:Hk; [|by eauto].
  destruct q as [|c' q].
  - simpl in Hy'. simplify_eq. by exists s.
  - cbn [t_walk tkids] in *. rewrite obj_get_set in Hy'.
    case_decide; [|by eauto]. subst c'. rewrite Hk. by apply IH.
Qed.

Lemma unlabel_back x q y' :
  t_walk (unlabel x) q = Some y' → ∃ y, t_walk x q = Some y ∧ tloc y = tloc y'.
Proof. destruct q; simpl; intros ?; simplify_eq; [by exists x | by eauto]. Qed.

Lemma cut_back c x q y' :
  t_walk (cut c x) q = Some y' → ∃ y, t_walk x q = Some y ∧ tloc y = tloc y'.
Proof.
  destruct q as [|c' q]; simpl; intros Hy'; simplify_eq; [by exists x|].
  rewrite obj_get_delete in Hy'. case_decide; [done | by eauto].
Qed.

(** *** [remove] keeps the tree a tree *)

Lemma shape_frame t t' R :
  shape t Root R → rootSocket t' = rootSocket t →
  (∀ l, l ∈ locsF (tkids R) → heap t' !! l = heap t !! l) →
  shape t' Root R.
Proof.
  intros [Hr Hh] Hroot Hfr. split; [by rewrite Hroot|].
  intros x Hx. rewrite Hfr; [by apply Hh|]. apply list_elem_of_fmap. eauto.
Qed.

Lemma subsF_walk s p x :
  ok p s → x ∈ subsF (tkids s) → ∃ c q, t_walk s (String c q) = Some x.
Proof.
  intros Hok (c & k & Hin & Hx)%elem_of_subsF.
  assert (obj_get c (tkids s) = Some k) as Hk.
  { apply obj_get_elem; [exact (ok_keys _ _ Hok) | done]. }
  destruct (ok_kid _ _ _ _ Hok Hk) as (_ & _ & Hokk).
  destruct (subs_walk k _ x Hokk) as [q Hq].
  { rewrite subs_unfold. by apply elem_of_cons. }
  exists c, q. cbn [t_walk]. by rewrite Hk.
Qed.

(** [delete node.name; delete node.value] on a node of the tree that has
    children. *)
Lemma Tree_unlabel t R p x :
  Tree_with t R → t_walk R p = Some x → p ≠ EmptyString → tkids x ≠ [] →
  step_at t (label t (tloc x) None undefined) Root R (t_at unlabel R p) ∧
  Tree_with (label t (tloc x) None undefined) (t_at unlabel R p).
Proof.
  intros [Hsh Hsep Hok] Hx Hp Hkids.
  assert (Hstep : step_at t (label t (tloc x) None undefined) Root R (t_at unlabel R p)).
  { eapply at_step; [done..|].
    replace (ref_at Root p x) with (At (tloc x)) by by destruct p.
    apply label_step.
    - pose proof (shape_walk _ _ _ _ _ Hsh Hx) as Hs. by destruct p.
    - pose proof (sep_walk _ _ _ _ Hsep Hx) as Hs. by destruct p. }
  split; [done|]. split.
  - exact (step_shape _ _ _ _ _ Hstep).
  - exact (step_sep _ _ _ _ _ Hstep).
  - destruct (ok_walk _ _ _ _ Hok Hx) as [Hokx _]. rewrite str_nil in Hokx.
    eapply ok_at; [done..| |].
    + rewrite str_nil. destruct x. by eapply ok_own.
    + intros _. split; [by left | done].
Qed.

Lemma truthy_Some k : k ≠ EmptyString → truthy (Some k) = true.
Proof. by destruct k. Qed.

Lemma truthy_not_None nm : truthy nm = true → nm ≠ None.
Proof. by destruct nm. Qed.

(** [delete point.node.socket[point.char]] at a node that has a key or two
    children. *)
Lemma Tree_cut t R q1 y c :
  Tree_with t R → t_walk R q1 = Some y → anchor y = true →
  let t' := put_socket t (ref_at Root q1 y)
              (obj_delete c (socket_of t (ref_at Root q1 y))) in
  step_at t t' Root R (t_at (cut c) R q1) ∧ Tree_with t' (t_at (cut c) R q1).
Proof.
  intros [Hsh Hsep Hok] Hy Ha t'.
  assert (Hstep : step_at t t' Root R (t_at (cut c) R q1)).
  { eapply at_step; [done..|]. apply cut_step.
    - by eapply shape_walk.
    - by eapply sep_walk. }
  destruct (ok_walk _ _ _ _ Hok Hy) as [Hoky Hnmy]. rewrite str_nil in Hoky, Hnmy.
  split; [done|]. split.
  - exact (step_shape _ _ _ _ _ Hstep).
  - exact (step_sep _ _ _ _ _ Hstep).
  - eapply ok_at; [done..| |].
    + rewrite str_nil. by apply ok_cut.
    + rewrite str_nil. intros Hq1. destruct (Hnmy Hq1) as [Hnm _].
      cbn [cut tname tkids]. split; [done|]. intros Hnil.
      unfold anchor in Ha. apply orb_true_iff in Ha as [Ha|Ha].
      * apply truthy_not_None in Ha. by destruct Hnm.
      * apply Nat.leb_le in Ha.
        pose proof (obj_delete_length c (tkids y) (ok_keys _ _ Hoky)) as Hlen.
        rewrite Hnil in Hlen. simpl in Hlen. lia.
Qed.

Lemma remove_walk_path t q : ∀ r s point pt,
  shape t r s → remove_walk t r point q = Some pt → is_Some (t_walk s q).
Proof.
  induction q as [|c q IH]; intros r s point pt Hsh Hw; [by eexists|].
  cbn [remove_walk t_walk] in *. rewrite (shape_socket _ _ _ Hsh), sk_get in Hw.
  destruct (obj_get c (tkids s)) as [k|] eqn:Hk; [|done].
  cbn [fmap option_fmap option_map] in Hw.
  eapply IH; [by eapply shape_child | done].
Qed.

Lemma Tree_remove_prune t query : Tree t → Tree (remove_prune t query).
Proof.
  intros [R HT]. unfold remove_prune.
  destruct (remove_walk t Root None query) as [[[node char]|]|] eqn:Hw.
  - destruct (remove_walk_path _ _ _ _ _ _ (tree_shape _ _ HT) Hw) as [x Hx].
    destruct (remove_walk_spec t query Root R EmptyString None x
                (tree_shape _ _ HT) (tree_ok _ _ HT) Hx) as (point' & Hw' & Hcase).
    rewrite Hw in Hw'. symmetry in Hw'. simplify_eq.
    destruct Hcase as [[? _]|(q1 & c & q2 & y & z & Hkq & Hpt & Hy & Ha & _)];
      [done|].
    simplify_eq. exists (t_at (cut c) R q1).
    eapply Tree_ext; [by eapply Tree_cut | done..].
  - exists (T 0 None undefined []). apply Inv_tree, Inv_reset.
  - by exists R.
Qed.

(** Whatever node [end] is: a node of the tree, or one that was cut off. *)
Lemma Tree_remove_node t query e : Tree t → Tree (remove_node t query e).
Proof.
  intros HT. unfold remove_node.
  destruct (negb _) eqn:Hs; [|by apply Tree_remove_prune].
  destruct HT as [R HT].
  destruct (decide (e ∈ locsF (tkids R))) as [Hin|Hout].
  - apply list_elem_of_fmap in Hin as (x & -> & Hx).
    destruct (subsF_walk _ _ _ (tree_ok _ _ HT) Hx) as (c & q & Hq).
    pose proof (proj2 (tree_shape _ _ HT) x Hx) as Hlook.
    exists (t_at unlabel R (String c q)).
    eapply Tree_ext; [eapply (Tree_unlabel t R (String c q) x) | done..];
      [done..|].
    intros Hnil. rewrite (deref_Some _ _ _ Hlook) in Hs. cbn in Hs.
    by rewrite Hnil in Hs.
  - exists R. destruct HT as [Hsh Hsep Hok]. split; [|done..].
    eapply shape_frame; [done | done |].
    intros l Hl. cbn. rewrite list_lookup_insert_ne; [done|]. by intros ->.
Qed.

(** [delete end.name; delete end.value] on a payload: the node that holds
    it keeps its socket and its key. *)
Lemma Tree_revalue t l v :
  Tree t → Tree (label t l (name (deref (heap t) l)) v).
Proof.
  intros [R HT].
  destruct (decide (l ∈ locsF (tkids R))) as [Hin|Hout].
  - apply list_elem_of_fmap in Hin as (x & -> & Hx).
    destruct (subsF_walk _ _ _ (tree_ok _ _ HT) Hx) as (c & q & Hq).
    pose proof (proj2 (tree_shape _ _ HT) x Hx) as Hlook.
    rewrite (deref_Some _ _ _ Hlook). cbn [name node_of].
    set (g := λ y, T (tloc y) (tname y) v (tkids y)).
    destruct HT as [Hsh Hsep Hok].
    assert (Hstep : step_at t (label t (tloc x) (tname x) v) Root R
                      (t_at g R (String c q))).
    { eapply at_step; [done..|]. cbn [ref_at]. apply label_step.
      - exact (shape_walk _ _ _ _ _ Hsh Hq).
      - exact (sep_walk _ _ _ _ Hsep Hq). }
    exists (t_at g R (String c q)). split.
    + exact (step_shape _ _ _ _ _ Hstep).
    + exact (step_sep _ _ _ _ _ Hstep).
    + destruct (ok_walk _ _ _ _ Hok Hq) as [Hokx Hnm]. rewrite str_nil in Hokx, Hnm.
      eapply ok_at; [done..| |].
      * rewrite str_nil. destruct x. by eapply ok_own.
      * rewrite str_nil. exact Hnm.
  - exists R. destruct HT as [Hsh Hsep Hok]. split; [|done..].
    eapply shape_frame; [done | done |].
    intros l' Hl. cbn. rewrite list_lookup_insert_ne; [done|]. by intros ->.
Qed.

Lemma Tree_remove_payload t query l :
  Tree t → Tree (store_after t (remove_payload t query l)).
Proof.
  intros HT. unfold remove_payload.
  destruct (val_truthy _); [|done].
  destruct (val_socket_keys _) as [[|k]|]; cbn [store_after]; [| |done].
  - by apply Tree_remove_prune.
  - destruct (Tree_revalue t l (val_unlabel (value (deref (heap t) l))) HT)
      as [R HR].
    exists R. by eapply Tree_ext.
Qed.

Lemma Tree_remove t query : Tree t → Tree (store_after t (remove t query)).
Proof.
  intros HT. unfold remove.
  destruct (table_get t query) as [e|l| |]; cbn [store_after]; try done.
  - by apply Tree_remove_node.
  - by apply Tree_remove_payload.
Qed.

Lemma Tree_apply t o : Tree t → Tree (apply_op t o).
Proof.
  intros HT. destruct o as [key v|query| | |]; cbn [apply_op]; try done.
  - destruct key as [|c key]; [done|]. destruct HT as [R HT].
    eexists. apply (Tree_set _ _ (String c key) v HT). discriminate.
  - by apply Tree_remove.
  - eexists. apply Inv_tree, Inv_reset.
Qed.

Lemma Tree_foldl ops : ∀ t, Tree t → Tree (foldl apply_op t ops).
Proof.
  induction ops as [|o ops IH]; intros t Ht; [exact Ht|]. cbn [foldl].
  apply IH, Tree_apply, Ht.
Qed.

(** Every store built by the methods is a tree. *)
Lemma run_Tree ops : Tree (run ops).
Proof. apply Tree_foldl. eexists. apply Inv_tree, Inv_new. Qed.

(** *** [remove] in a store whose table has no node as prototype *)

Lemma table_get_plain t k :
  table_proto t = None →
  table_get t k = match obj_get k (table t) with
                  | Some e => Found e
                  | None => if inherited_name k then Foreign else Absent
                  end.
Proof.
  intros Hpr. unfold table_get, inherited_name. rewrite Hpr.
  destruct (obj_get k (table t)); [done|]. case_decide as Hk.
  - rewrite bool_decide_eq_true_2; [done | by left].
  - destruct (decide (k ∈ Object_prototype_names)).
    + rewrite !bool_decide_eq_true_2; [done | by right | done].
    + rewrite !bool_decide_eq_false_2; [done | tauto | done].
Qed.

(** Case A of [remove]: the node has children; its key and value go. *)
Lemma remove_A_inv t R k e x :
  Inv_with t R → obj_get k (table t) = Some e →
  t_walk R k = Some x → tloc x = e → tkids x ≠ [] →
  Inv_with (table_delete (label t e None undefined) k) (t_at unlabel R k).
Proof.
  intros HI He Hx Hl Hkids.
  destruct (tab_node _ _ _ _ HI He) as (x' & Hx' & _ & Hname & Hk & Hlook & Hokx).
  rewrite Hx in Hx'. symmetry in Hx'. simplify_eq.
  destruct (Tree_unlabel t R k x (Inv_tree _ _ HI) Hx Hk Hkids)
    as [_ [Hsh' Hsep' Hok']].
  destruct HI as [Hsh Hsep Hok [Hnd Htab] Hproto Hown].
  split; [done..| |done|].
  2:{ cbn [table_delete label table]. rewrite obj_get_delete.
      by case_decide. }
  cbn [table_delete label table].
  split; [by apply obj_delete_NoDup|]. intros k' l. rewrite obj_get_delete.
  fold (term (t_at unlabel R k) k' l).
  destruct (prefix_dec_split k k') as [[rest ->]|Hoff].
  + destruct rest as [|c rest].
    * rewrite str_app_nil_r, decide_True by done. split; [done|].
      intros (x' & Hx' & _ & Hn).
      rewrite <-(str_app_nil_r k) in Hx' at 1.
      rewrite (walk_at_prefix _ _ _ _ _ Hx) in Hx'. by simplify_eq.
    * rewrite decide_False.
      2:{ intros Heq. apply str_app_self_inv in Heq. done. }
      rewrite Htab. unfold term. rewrite (walk_at_below _ _ _ _ _ Hx).
      rewrite walk_app, Hx. done.
  + rewrite decide_False.
    2:{ intros ->. apply (Hoff EmptyString). by rewrite str_app_nil_r. }
    rewrite Htab. symmetry. by eapply term_at_off.
Qed.

(** Case B of [remove] with a recorded point: the edge below the point goes. *)
Lemma remove_B_inv t R k e q1 c q2 y z x :
  Inv_with t R → obj_get k (table t) = Some e →
  k = q1 +:+ String c q2 →
  t_walk R q1 = Some y → anchor y = true →
  obj_get c (tkids y) = Some z → plain z q2 →
  t_walk z q2 = Some x → tkids x = [] →
  let t' := put_socket t (ref_at Root q1 y)
              (obj_delete c (socket_of t (ref_at Root q1 y))) in
  Inv_with (table_delete t' k) (t_at (cut c) R q1).
Proof.
  intros HI He Hk Hy Ha Hz Hpl Hx Hleaf t'.
  destruct (Tree_cut t R q1 y c (Inv_tree _ _ HI) Hy Ha)
    as [Hstep [Hsh' Hsep' Hok']]. fold t' in Hstep, Hsh', Hsep', Hok'.
  destruct HI as [Hsh Hsep Hok [Hnd Htab] Hproto Hown].
  split; [done..| | |].
  2:{ cbn [table_delete table_proto]. unfold t'. by rewrite put_socket_proto. }
  2:{ cbn [table_delete table]. rewrite (step_table _ _ _ _ _ Hstep).
      rewrite obj_get_delete. by case_decide. }
  cbn [table_delete table]. rewrite (step_table _ _ _ _ _ Hstep).
  split; [by apply obj_delete_NoDup|]. intros k' l. rewrite obj_get_delete.
  fold (term (t_at (cut c) R q1) k' l).
  destruct (prefix_dec_split q1 k') as [[rest ->]|Hoff].
  + destruct rest as [|c' rest].
    * rewrite str_app_nil_r. rewrite decide_False.
      2:{ rewrite Hk. intros Heq. symmetry in Heq.
          by apply str_app_self_inv in Heq. }
      rewrite Htab. unfold term.
      assert (Hwq : t_walk (t_at (cut c) R q1) q1 = Some (cut c y)).
      { pose proof (walk_at_prefix (cut c) q1 EmptyString R y Hy) as Hwq.
        by rewrite str_app_nil_r in Hwq. }
      rewrite Hwq, Hy.
      split; intros (x' & ? & ? & ?); simplify_eq; eexists; split_and!; done.
    * unfold term. rewrite (walk_at_below _ _ _ _ _ Hy).
      cbn [t_walk cut tkids]. rewrite obj_get_delete.
      destruct (decide (c = c')) as [<-|Hc].
      -- split; [|by intros (? & ? & _)]. case_decide; [done|].
         intros Hl. apply Htab in Hl as (w & Hw & _ & Hnw).
         pose proof Hw as Hw'.
         rewrite walk_app, Hy in Hw'. cbn [mbind option_bind t_walk] in Hw'.
         rewrite Hz in Hw'.
         destruct (plain_chain _ _ _ _ _ Hpl Hx Hleaf Hw') as (rest2 & -> & Hr2).
         destruct (ok_walk _ _ _ _ Hok Hw) as [_ Hnmw].
         rewrite str_nil in Hnmw.
         destruct Hnmw as [[?|Hnmw] _]; [by destruct q1 | done |].
         assert (rest2 ≠ EmptyString) as Hne.
         { intros ->. rewrite str_app_nil_r in *. congruence. }
         specialize (Hr2 Hne). rewrite Hnmw in Hr2.
         rewrite truthy_Some in Hr2; [done | by destruct q1].
      -- rewrite decide_False.
         2:{ rewrite Hk. intros Heq%str_app_inv_head. congruence. }
         rewrite Htab. unfold term. rewrite walk_app, Hy. done.
  + rewrite decide_False.
    2:{ intros <-. by apply (Hoff (String c q2)). }
    rewrite Htab. symmetry. by eapply term_at_off.
Qed.

Lemma deref_insert (h : list Node) l n l' :
  deref (<[l := n]> h) l' =
  if decide (l = l' ∧ l < length h) then n else deref h l'.
Proof.
  unfold deref. case_decide as Hd.
  - destruct Hd as [<- ?]. by rewrite list_lookup_insert_eq.
  - destruct (decide (l = l')) as [<-|?].
    + rewrite list_insert_ge; [done | lia].
    + by rewrite list_lookup_insert_ne.
Qed.

Lemma put_socket_value t r s l :
  value (deref (heap (put_socket t r s)) l) = value (deref (heap t) l).
Proof.
  destruct r as [|l0]; [done|]. cbn [put_socket heap]. rewrite deref_insert.
  case_decide as Hd; [|done]. by destruct Hd as [<- _].
Qed.

Lemma tab_inj t R k1 k2 l :
  Inv_with t R → obj_get k1 (table t) = Some l → obj_get k2 (table t) = Some l →
  k1 = k2.
Proof.
  intros HI H1 H2.
  destruct (tab_node _ _ _ _ HI H1) as (x1 & _ & _ & Hn1 & _ & Hl1 & _).
  destruct (tab_node _ _ _ _ HI H2) as (x2 & _ & _ & Hn2 & _ & Hl2 & _).
  rewrite Hl1 in Hl2. unfold node_of in Hl2. simplify_eq. congruence.
Qed.

Lemma obj_delete_all {K A} `{EqDecision K} (k : K) (o : list (K * A)) :
  (∀ k' a, (k', a) ∈ o → k' = k) → obj_delete k o = [].
Proof.
  induction o as [|[k0 a0] o IH]; [done|]. intros Hall. simpl.
  rewrite decide_True; [|eapply Hall; left].
  apply IH. intros k' a Hin. eapply Hall. by right.
Qed.

(** What [remove] does with a key of the table in a store that satisfies
    the invariant. *)
Lemma remove_spec t R k e :
  Inv_with t R → obj_get k (table t) = Some e →
  ∃ R', Inv_with (remove_node t k e) R'
    ∧ table (remove_node t k e) = obj_delete k (table t)
    ∧ (∀ k' l, k' ≠ k → obj_get k' (table t) = Some l →
         value (deref (heap (remove_node t k e)) l) = value (deref (heap t) l))
    ∧ (∀ p y', p ≠ EmptyString → t_walk R' p = Some y' →
         ∃ y, t_walk R p = Some y ∧ tloc y = tloc y').
Proof.
  intros HI He.
  destruct (tab_node _ _ _ _ HI He) as (x & Hx & Hl & Hname & Hk & Hlook & Hokx).
  pose proof HI as [Hsh Hsep Hok [Hnd Htab] Hproto Hown].
  unfold remove_node, remove_prune. rewrite (deref_Some _ _ _ Hlook).
  cbn [node_of socket].
  rewrite Object_keys_length, sk_length by (rewrite sk_keys; by eapply ok_keys).
  destruct (decide (tkids x = [])) as [Hkids|Hkids].
  - (* no children *)
    assert ((length (tkids x) =? 0) = true) as -> by by rewrite Hkids.
    cbn [negb].
    destruct (remove_walk_spec t k Root R EmptyString None x Hsh Hok Hx)
      as (point' & Hw & Hcase).
    rewrite Hw.
    destruct Hcase as [[-> Hplain]|(q1 & c & q2 & y & z & Hkq & -> & Hy & Ha & Hz & Hpl)].
    + exists (T 0 None undefined []). split_and!.
      * apply Inv_reset.
      * cbn [reset table]. symmetry. apply obj_delete_all.
        intros k' l Hin. apply (obj_get_elem _ _ _ Hnd) in Hin.
        apply Htab in Hin as (w & Hw' & _ & Hnw).
        destruct (plain_chain _ _ _ _ _ Hplain Hx Hkids Hw') as (rest & -> & Hrest).
        destruct rest as [|c rest]; [by rewrite str_app_nil_r|].
        destruct (ok_walk _ _ _ _ Hok Hw') as [_ Hnmw]. rewrite str_nil in Hnmw.
        assert (k' ≠ EmptyString) as Hk'.
        { intros ->. simpl in Hw'. simplify_eq. by destruct Hsh as [(_ & ? & _) _]. }
        destruct (Hnmw Hk') as [[?|Hn] _]; [done|].
        specialize (Hrest ltac:(done)). rewrite Hn, truthy_Some in Hrest; done.
      * done.
      * intros p y' Hp Hy'. destruct p; [done|]. done.
    + assert (Hzx : t_walk z q2 = Some x).
      { rewrite Hkq, walk_app, Hy in Hx. cbn [mbind option_bind t_walk] in Hx.
        by rewrite Hz in Hx. }
      exists (t_at (cut c) R q1). split_and!.
      * by eapply remove_B_inv.
      * cbn [table_delete table]. by destruct (ref_at Root q1 y).
      * intros k' l _ _. cbn [table_delete heap]. apply put_socket_value.
      * intros p y' _. apply walk_at_back. apply cut_back.
  - (* some child *)
    assert ((length (tkids x) =? 0) = false) as ->.
    { destruct (tkids x); [done|]. done. }
    cbn [negb].
    exists (t_at unlabel R k). split_and!.
    + by eapply remove_A_inv.
    + done.
    + intros k' l Hk' Hl'. unfold label. cbn [table_delete heap]. rewrite deref_insert.
      rewrite decide_False; [done|]. intros [<- _].
      apply Hk'. by eapply tab_inj.
    + intros p y' _. apply walk_at_back. apply unlabel_back.
Qed.

Lemma remove_own t k e :
  obj_get k (table t) = Some e → remove t k = Returns (remove_node t k e).
Proof. intros He. unfold remove, table_get. by rewrite He. Qed.

(** [remove] of a key that the table does not have, in a store whose table
    has [Object.prototype] as prototype: nothing happens, unless the key
    names a property of [Object.prototype], which [remove] takes for a
    node. *)
Lemma remove_absent t k :
  table_proto t = None → obj_get k (table t) = None →
  remove t k = if inherited_name k then Throws else Returns t.
Proof.
  intros Hpr Hk. unfold remove. rewrite table_get_plain, Hk by done.
  by destruct (inherited_name k).
Qed.

Lemma apply_remove_own t k e :
  obj_get k (table t) = Some e → apply_op t (OpRemove k) = remove_node t k e.
Proof. intros He. cbn [apply_op]. by rewrite (remove_own _ _ _ He). Qed.

Lemma apply_remove_absent t k :
  table_proto t = None → obj_get k (table t) = None →
  apply_op t (OpRemove k) = t.
Proof.
  intros Hpr Hk. cbn [apply_op]. rewrite remove_absent by done.
  by destruct (inherited_name k).
Qed.

(** ** Every store built by the methods satisfies the invariant *)

Lemma Inv_apply t o : sets_proto o = false → Inv t → Inv (apply_op t o).
Proof.
  intros Ho [R HI]. destruct o as [key v|query| | |].
  - destruct key as [|c key]; [exists R; exact HI|]. cbn [apply_op].
    eexists. apply (Inv_set _ _ (String c key) v HI); [discriminate|].
    cbn [sets_proto] in Ho. by apply bool_decide_eq_false in Ho.
  - destruct (obj_get query (table t)) as [e|] eqn:He.
    + rewrite (apply_remove_own _ _ _ He).
      destruct (remove_spec _ _ _ _ HI He) as (R' & HI' & _). exists R'. exact HI'.
    + rewrite apply_remove_absent by (done || apply (inv_proto _ _ HI)).
      exists R. exact HI.
  - exists R. exact HI.
  - exists R. exact HI.
  - eexists. apply Inv_reset.
Qed.

Lemma Inv_foldl ops : ∀ t,
  Forall (λ o, sets_proto o = false) ops → Inv t → Inv (foldl apply_op t ops).
Proof.
  induction ops as [|o ops IH]; intros t Hops Ht; [exact Ht|]. cbn [foldl].
  apply Forall_cons in Hops as [Ho Hops]. by apply IH, Inv_apply.
Qed.

Lemma run_Inv ops : proto_free ops → Inv (run ops).
Proof. intros Hops. apply Inv_foldl; [done|]. eexists. apply Inv_new. Qed.

(** ** The store as a dictionary *)

Lemma get_own t k e :
  obj_get k (table t) = Some e → get t k = value (deref (heap t) e).
Proof. intros He. unfold get, table_get. by rewrite He. Qed.

Lemma get_contents t k :
  table_proto t = None →
  get t k = default undefined (obj_get k (contents t)).
Proof.
  intros Hpr. unfold get, contents. rewrite table_get_plain by done.
  rewrite obj_get_fmap. destruct (obj_get k (table t)); [done|].
  by destruct (inherited_name k).
Qed.

Lemma obj_fmap_ext {K A B} (f g : A → B) (o : list (K * A)) :
  (∀ k a, (k, a) ∈ o → f a = g a) → prod_map id f <$> o = prod_map id g <$> o.
Proof.
  intros Hfg. apply list_fmap_ext. intros i [k a] Hi. unfold prod_map. simpl.
  f_equal. eapply Hfg. by eapply list_elem_of_lookup_2.
Qed.

Lemma obj_set_fmap_ext {K A B} `{EqDecision K} (f g : A → B) k b (o : list (K * A)) :
  NoDup o.*1 →
  (∀ k' a, k' ≠ k → (k', a) ∈ o → f a = g a) →
  obj_set k b (prod_map id f <$> o) = obj_set k b (prod_map id g <$> o).
Proof.
  induction o as [|[k0 a0] o IH]; intros Hnd Hfg; [done|]. csimpl.
  apply NoDup_cons in Hnd as [Hk0 Hnd]. case_decide.
  - f_equal. apply obj_fmap_ext. intros k' a Hin. apply (Hfg k'); [|by right].
    intros ->. subst k0. apply Hk0. apply list_elem_of_fmap. by exists (k, a).
  - f_equal; [f_equal; apply (Hfg k0); [done | left] |].
    apply IH; [done|]. intros k' a ? ?. apply (Hfg k'); [done | by right].
Qed.

Lemma set_loop_value key : ∀ t r l,
  l < length (heap t) →
  value (deref (heap (set_loop t r key).1) l) = value (deref (heap t) l).
Proof.
  induction key as [|c key IH]; intros t r l Hl; [done|]. cbn [set_loop].
  destruct (obj_get c (socket_of t r)) as [l'|]; [by apply IH|].
  rewrite IH.
  - rewrite put_socket_value. cbn [heap]. by rewrite deref_app_l.
  - destruct r; cbn [put_socket heap]; rewrite ?length_insert, length_app; lia.
Qed.

Lemma set_heap t key v l :
  key ≠ EmptyString → (set_loop t Root key).2 = At l →
  heap (set t key v) =
    <[l := mkNode (socket (deref (heap (set_loop t Root key).1) l)) (Some key) v]>
      (heap (set_loop t Root key).1).
Proof.
  intros Hkey Hl. unfold set. destruct key; [done|]. revert Hl.
  destruct (set_loop t Root (String a key)) as [t' r']. simpl. intros ->.
  by rewrite table_put_heap.
Qed.

(** [set] on the dictionary. *)
Lemma contents_set t key v :
  Inv t → key ≠ EmptyString → key ≠ "__proto__" →
  contents (set t key v) = obj_set key v (contents t).
Proof.
  intros [R HI] Hkey Hpr.
  destruct (Inv_set _ _ _ v HI Hkey Hpr) as [HI' (x & Hx & Hend & Hxv & Htb)].
  unfold contents. rewrite Htb, <-obj_set_fmap.
  assert (Hget : obj_get key (table (set t key v)) = Some (tloc x)).
  { rewrite Htb, obj_get_set. by rewrite decide_True. }
  destruct (tab_node _ _ _ _ HI' Hget) as (x' & Hx' & _ & _ & _ & Hlook & _).
  rewrite Hx in Hx'. symmetry in Hx'. simplify_eq.
  rewrite (deref_Some _ _ _ Hlook). cbn [node_of value].
  apply obj_set_fmap_ext; [exact (proj1 (inv_tab _ _ HI))|].
  intros k' l Hk' Hin.
  apply (obj_get_elem k' l) in Hin; [|exact (proj1 (inv_tab _ _ HI))].
  assert (l ≠ tloc x) as Hne.
  { intros ->. apply Hk'. eapply (tab_inj _ _ _ _ _ HI'); [|exact Hget].
    rewrite Htb, obj_get_set. by rewrite decide_False. }
  destruct (tab_node _ _ _ _ HI Hin) as (xl & _ & _ & _ & _ & Hl & _).
  apply lookup_lt_Some in Hl.
  rewrite (set_heap _ _ _ _ Hkey Hend), deref_insert.
  rewrite decide_False by (intros [? _]; congruence).
  by apply set_loop_value.
Qed.

(** [remove] on the dictionary. *)
Lemma contents_remove t k :
  Inv t → contents (apply_op t (OpRemove k)) = obj_delete k (contents t).
Proof.
  intros [R HI]. unfold contents.
  destruct (obj_get k (table t)) as [e|] eqn:He.
  - rewrite (apply_remove_own _ _ _ He).
    destruct (remove_spec _ _ _ _ HI He) as (R' & _ & Htb & Hval & _).
    rewrite Htb, obj_delete_fmap. apply obj_fmap_ext.
    intros k' l [Hk' Hin]%obj_delete_elem. apply (Hval k'); [done|].
    apply obj_get_elem; [exact (proj1 (inv_tab _ _ HI)) | done].
  - rewrite apply_remove_absent by (done || apply (inv_proto _ _ HI)).
    rewrite obj_delete_absent; [done|].
    rewrite obj_keys_fmap. by apply obj_get_None.
Qed.

Lemma contents_reset t : contents (reset t) = [].
Proof. done. Qed.

Lemma contents_keys t : (contents t).*1 = (table t).*1.
Proof. apply obj_keys_fmap. Qed.

(** ** The traversal of [match] *)

Lemma scan_app count t rs1 rs2 st :
  scan count t (rs1 ++ rs2) st = scan_from count t (scan count t rs1 st) rs2.
Proof.
  revert st. induction rs1 as [|r rs1 IH]; intros st; [done|]. simpl.
  destruct (limit_reached count st.1); [done|]. apply IH.
Qed.

Lemma scan_from_app count t sc rs1 rs2 :
  scan_from count t sc (rs1 ++ rs2)
  = scan_from count t (scan_from count t sc rs1) rs2.
Proof. destruct sc; [done|]. apply scan_app. Qed.

Lemma obj_get_keys_Some (s : Socket) c : c ∈ Object_keys s → is_Some (obj_get c s).
Proof.
  intros Hc%Object_keys_elem. apply not_eq_None_Some.
  intros Hn. by apply obj_get_None in Hn.
Qed.

Lemma collect_single t r :
  collect t [r] = if truthy (name_of t r) then [value_of t r] else [].
Proof. unfold collect. simpl. by rewrite app_nil_r. Qed.

(** One turn of the loop. *)
Lemma match_loop_step fuel t count r points res vis :
  match_loop (S fuel) t count r points res vis =
  if limit_reached count res then Some (res, vis) else
  match children Object_keys t r with
  | [] => pop_continue fuel t count points (res ++ collect t [r]) (vis ++ [r])
  | first :: others =>
      match_loop fuel t count (At first) (rev others ++ points)
                 (res ++ collect t [r]) (vis ++ [r])
  end.
Proof.
  cbn [match_loop]. destruct (limit_reached count res); [done|].
  unfold children. rewrite collect_single.
  assert (Hres : (if truthy (name_of t r) then res ++ [value_of t r] else res)
                 = res ++ (if truthy (name_of t r) then [value_of t r] else [])).
  { destruct (truthy _); [done | by rewrite app_nil_r]. }
  rewrite Hres.
  destruct (Object_keys (socket_of t r)) as [|char others] eqn:Hkeys; [done|].
  destruct (obj_get_keys_Some (socket_of t r) char) as [l Hl].
  { rewrite Hkeys. left. }
  cbn [omap list_omap]. rewrite Hl.
  destruct others as [|c2 others]; [done|]. done.
Qed.

Lemma pops_scan d t count
    (IH : ∀ r, deep_enough d t r → ∀ fuel points res vis,
       match_loop (length (visit_order Object_keys d t r) + fuel) t count r
                  points res vis
       = after_scan fuel t count points
           (scan count t (visit_order Object_keys d t r) (res, vis))) :
  ∀ ls, Forall (λ l, deep_enough d t (At l)) ls →
  ∀ sc fuel points,
    after_scan (length (ls ≫= λ l, visit_order Object_keys d t (At l)) + fuel)
               t count (ls ++ points) sc
    = after_scan fuel t count points
        (scan_from count t sc (ls ≫= λ l, visit_order Object_keys d t (At l))).
Proof.
  induction ls as [|l ls IHls]; intros Hall sc fuel points.
  - simpl. by destruct sc.
  - apply Forall_cons in Hall as [Hl Hls]. rewrite bind_cons.
    destruct sc as [st|[res vis]]; [done|].
    cbn [after_scan pop_continue app fst snd].
    rewrite length_app, <-Nat.add_assoc, (IH _ Hl), (IHls Hls).
    cbn [scan_from]. by rewrite scan_app.
Qed.

(** The loop goes through the nodes in the order of visit. *)
Lemma loop_scan d : ∀ t count r, deep_enough d t r →
  ∀ fuel points res vis,
    match_loop (length (visit_order Object_keys d t r) + fuel) t count r
               points res vis
    = after_scan fuel t count points
        (scan count t (visit_order Object_keys d t r) (res, vis)).
Proof.
  induction d as [|d IH]; intros t count r Hdeep fuel points res vis; [done|].
  cbn [deep_enough visit_order] in *.
  cbn [length Nat.add]. rewrite match_loop_step. cbn [scan fst snd].
  destruct (limit_reached count res); [done|].
  destruct (children Object_keys t r) as [|first others].
  - done.
  - apply Forall_cons in Hdeep as [Hfirst Hothers].
    rewrite length_app, <-Nat.add_assoc, (IH _ _ _ Hfirst).
    rewrite (pops_scan d t count (IH t count)); [|by apply Forall_rev].
    by rewrite scan_app.
Qed.

(** With enough fuel the loop ends, and then it has gone through the nodes in
    the order of visit. *)
Lemma match_loop_total d t count r fuel :
  deep_enough d t r → length (visit_order Object_keys d t r) ≤ fuel →
  match_loop fuel t count r [] [] []
  = Some (scan_end (scan count t (visit_order Object_keys d t r) ([], []))).
Proof.
  intros Hdeep Hfuel.
  replace fuel with (length (visit_order Object_keys d t r)
                     + (fuel - length (visit_order Object_keys d t r))) by lia.
  rewrite (loop_scan _ _ _ _ Hdeep).
  by destruct (scan _ _ _ _) as [?|[? ?]].
Qed.

(** ** The traversal on the tree *)

Lemma children_okids t r s :
  shape t r s → children Object_keys t r = tloc <$> okids s.
Proof.
  intros Hsh. unfold children, okids. rewrite (shape_socket _ _ _ Hsh).
  induction (Object_keys (sk (tkids s))) as [|c cs IH]; [done|].
  cbn [omap list_omap]. rewrite sk_get.
  destruct (obj_get c (tkids s)); csimpl; by rewrite IH.
Qed.

Lemma omap_get_keys {K A} `{EqDecision K} (o : list (K * A)) :
  NoDup o.*1 → omap (λ k, obj_get k o) o.*1 = o.*2.
Proof.
  induction o as [|[k a] o IH]; intros Hnd; [done|].
  apply NoDup_cons in Hnd as [Hk Hnd]. csimpl. rewrite decide_True by done.
  f_equal. rewrite <-(IH Hnd). apply list_omap_ext. apply Forall2_same_length_lookup_2; [done|].
  intros i k1 k2 H1 H2. simplify_eq. rewrite decide_False; [done|].
  intros ->. apply Hk. by eapply list_elem_of_lookup_2.
Qed.

Lemma okids_perm s : NoDup (tkids s).*1 → okids s ≡ₚ (tkids s).*2.
Proof.
  intros Hnd. unfold okids. rewrite Object_keys_perm by by rewrite sk_keys.
  rewrite sk_keys. by rewrite omap_get_keys.
Qed.

Lemma okids_elem s k : k ∈ okids s → ∃ c, obj_get c (tkids s) = Some k.
Proof. unfold okids. rewrite list_elem_of_omap. intros (c & _ & ?). eauto. Qed.

Lemma subs_kid_length c k F : (c, k) ∈ F → length (subs k) ≤ length (subsF F).
Proof.
  intros (F1 & F2 & ->)%list_elem_of_split.
  rewrite subsF_app, subsF_cons, length_app. cbn [length].
  rewrite length_app, subs_unfold. cbn [length]. lia.
Qed.

Lemma bind_perm_ext {A B} (f g : A → list B) (l : list A) :
  (∀ x, x ∈ l → f x ≡ₚ g x) → l ≫= f ≡ₚ l ≫= g.
Proof.
  induction l as [|x l IH]; intros Hfg; [done|]. rewrite !bind_cons.
  apply Permutation_app; [apply Hfg; left | apply IH].
  intros y Hy. apply Hfg. by right.
Qed.

Lemma subsF_bind F : subsF F = F.*2 ≫= subs.
Proof.
  unfold subsF. induction F as [|[c k] F IH]; [done|]. csimpl. by rewrite IH.
Qed.

(** A node of the store below which the store is a tree is visited together
    with all the nodes of that tree, each of them once. *)
Lemma visit_tree t s : ∀ p d,
  ok p s → shape t (At (tloc s)) s → length (subs s) ≤ d →
  deep_enough d t (At (tloc s)) ∧
  visit_order Object_keys d t (At (tloc s)) ≡ₚ (At ∘ tloc) <$> subs s.
Proof.
  induction s as [l nm vl kids IH] using tree_ind'. intros p d Hok Hsh Hd.
  rewrite subs_unfold in Hd. cbn [length tkids tloc] in *.
  destruct d as [|d]; [lia|].
  cbn [deep_enough visit_order].
  rewrite (children_okids _ _ _ Hsh).
  set (s := T l nm vl kids) in *.
  assert (Hkid : ∀ k, k ∈ okids s →
            deep_enough d t (At (tloc k)) ∧
            visit_order Object_keys d t (At (tloc k)) ≡ₚ (At ∘ tloc) <$> subs k).
  { intros k [c Hc]%okids_elem.
    pose proof (obj_get_Some_elem _ _ _ Hc) as Hin.
    rewrite Forall_forall in IH. specialize (IH _ Hin). cbn [snd] in IH.
    destruct (ok_kid _ _ _ _ Hok Hc) as (_ & _ & Hokk).
    apply (IH _ _ Hokk); [by eapply shape_child|].
    pose proof (subs_kid_length _ _ _ Hin) as Hlen.
    unfold s in Hlen. cbn [tkids] in Hlen. lia. }
  split.
  - apply Forall_fmap, Forall_forall. intros k Hk. by apply Hkid.
  - rewrite subs_unfold. cbn [tkids]. csimpl. apply Permutation_skip.
    trans ((okids s) ≫= λ k, visit_order Object_keys d t (At (tloc k))).
    { destruct (okids s) as [|k0 ks]; [done|]. csimpl.
      apply Permutation_app_head.
      rewrite <-(Permutation_rev (tloc <$> ks)). by rewrite list_fmap_bind. }
    rewrite (bind_perm_ext _ (λ k, (At ∘ tloc) <$> subs k)) by (intros; by apply Hkid).
    rewrite okids_perm by by eapply ok_keys.
    rewrite subsF_bind. unfold s. cbn [tkids].
    generalize (kids.*2). intros ks.
    induction ks as [|k ks IHks]; [done|].
    csimpl. rewrite fmap_app. by apply Permutation_app_head.
Qed.

Lemma NoDup_bound (l : list nat) n :
  NoDup l → (∀ x, x ∈ l → x < n) → length l ≤ n.
Proof.
  intros Hnd Hlt. rewrite <-(length_seq n 0). apply submseteq_length.
  apply NoDup_submseteq; [done|]. intros x Hx. apply elem_of_seq.
  specialize (Hlt x Hx). lia.
Qed.

(** What [match] needs of the tree below the node of a query. *)
Lemma match_ghost t R q s :
  Tree_with t R → q ≠ EmptyString → t_walk R q = Some s →
  closest t Root q = Some (At (tloc s)) ∧
  shape t (At (tloc s)) s ∧ ok q s ∧ NoDup (tloc <$> subs s) ∧
  ∀ d, length (heap t) ≤ d →
    deep_enough d t (At (tloc s)) ∧
    visit_order Object_keys d t (At (tloc s)) ≡ₚ (At ∘ tloc) <$> subs s ∧
    length (visit_order Object_keys d t (At (tloc s))) ≤ length (heap t).
Proof.
  intros [Hsh Hsep Hok] Hq Hs.
  assert (Hshs : shape t (At (tloc s)) s).
  { pose proof (shape_walk _ _ _ _ _ Hsh Hs). by destruct q. }
  assert (Hseps : NoDup (tloc <$> subs s)).
  { pose proof (sep_walk _ _ _ _ Hsep Hs) as Hs'. rewrite subs_unfold.
    destruct q; [done|]. exact Hs'. }
  assert (Hoks : ok q s).
  { destruct (ok_walk _ _ _ _ Hok Hs) as [? _]. by rewrite str_nil in *. }
  assert (Hsize : length (subs s) ≤ length (heap t)).
  { rewrite <-(length_fmap tloc). apply NoDup_bound; [done|].
    intros l Hl. apply (shape_lt _ _ _ _ Hshs). rewrite subs_unfold in Hl. exact Hl. }
  split_and!; try done.
  - rewrite (closest_walk _ _ _ _ Hsh), Hs. by destruct q.
  - intros d Hd.
    destruct (visit_tree t s q d Hoks Hshs ltac:(lia)) as [Hdeep Hperm].
    split_and!; [done..|]. rewrite (Permutation_length Hperm), length_fmap. done.
Qed.

Lemma collect_locs t (ls : list loc) :
  collect t (At <$> ls)
  = (λ l, value (deref (heap t) l))
      <$> filter (λ l, truthy (name (deref (heap t) l)) = true) ls.
Proof.
  unfold collect. induction ls as [|l ls IH]; [done|]. csimpl.
  rewrite IH, filter_cons. cbn [name_of value_of].
  destruct (truthy (name (deref (heap t) l))); done.
Qed.

Lemma contents_filter t (P : string → Prop) `{!∀ k, Decision (P k)} :
  (filter (λ e, P e.1) (contents t)).*2
  = (λ l, value (deref (heap t) l)) <$> (filter (λ e, P e.1) (table t)).*2.
Proof.
  unfold contents. induction (table t) as [|[k l] tb IH]; [done|].
  csimpl. rewrite !filter_cons. cbn [fst]. case_decide; csimpl; by rewrite IH.
Qed.

#[local] Instance collect_perm t : Proper ((≡ₚ) ==> (≡ₚ)) (collect t).
Proof. intros l1 l2 Hl. unfold collect. by rewrite Hl. Qed.

(** The nodes with a key below the node of [q] are the nodes of the table
    entries whose key starts with [q]. *)
Lemma subtree_table t R q s :
  Inv_with t R → q ≠ EmptyString → t_walk R q = Some s →
  filter (λ l, truthy (name (deref (heap t) l)) = true) (tloc <$> subs s)
  ≡ₚ (filter (λ e, String.prefix q e.1 = true) (table t)).*2.
Proof.
  intros HI Hq Hs.
  destruct (match_ghost _ _ _ _ (Inv_tree _ _ HI) Hq Hs)
    as (_ & Hshs & Hoks & Hnd & _).
  pose proof HI as [Hsh Hsep Hok [Hndt Htab] Hproto Hown].
  assert (Hnode : ∀ x, x ∈ subs s → heap t !! tloc x = Some (node_of x)).
  { intros x Hx. rewrite subs_unfold in Hx. destruct Hshs as [[_ ?] Hh].
    apply elem_of_cons in Hx as [->|Hx]; [done | by apply Hh]. }
  apply NoDup_Permutation.
  - by apply NoDup_filter.
  - apply NoDup_fmap_2_strong.
    + intros [k1 l1] [k2 l2] [_ H1]%list_elem_of_filter [_ H2]%list_elem_of_filter Heq.
      simpl in Heq. subst l2. f_equal.
      eapply (tab_inj _ _ _ _ _ HI); by apply obj_get_elem.
    + apply NoDup_filter. by eapply NoDup_fmap_1.
  - intros l. rewrite list_elem_of_filter, !list_elem_of_fmap. split.
    + intros [Htr (x & -> & Hx)].
      rewrite (deref_Some _ _ _ (Hnode _ Hx)) in Htr. cbn [node_of name] in Htr.
      destruct (subs_walk _ _ _ Hoks Hx) as [q' Hq'].
      assert (t_walk R (q +:+ q') = Some x) as Hw.
      { by rewrite walk_app, Hs. }
      assert (obj_get (q +:+ q') (table t) = Some (tloc x)) as Hget.
      { apply Htab. exists x. split_and!; [done..|]. by apply truthy_not_None. }
      exists (q +:+ q', tloc x). split; [done|].
      apply list_elem_of_filter. split; [|by apply obj_get_Some_elem].
      apply prefix_spec. eauto.
    + intros ([k l'] & -> & [Hpre Hin]%list_elem_of_filter). cbn [fst snd] in *.
      apply prefix_spec in Hpre as [rest ->].
      apply (obj_get_elem _ _ _ Hndt) in Hin.
      destruct (tab_node _ _ _ _ HI Hin) as (x & Hx & <- & Hnm & Hk & Hlook & _).
      rewrite walk_app, Hs in Hx. cbn [mbind option_bind] in Hx.
      rewrite (deref_Some _ _ _ Hlook). cbn [node_of name]. rewrite Hnm.
      split; [by apply truthy_Some|]. exists x. split; [done|].
      by eapply walk_subs.
Qed.

(** ** What [scan] yields *)

Lemma collect_app t rs1 rs2 : collect t (rs1 ++ rs2) = collect t rs1 ++ collect t rs2.
Proof. apply bind_app. Qed.

Lemma collect_cons t r rs : collect t (r :: rs) = collect t [r] ++ collect t rs.
Proof. apply (collect_app t [r] rs). Qed.

Lemma collect_length t rs : length (collect t rs) ≤ length rs.
Proof.
  unfold collect. induction rs as [|r rs IH]; [done|]. rewrite bind_cons, length_app.
  destruct (truthy _); simpl; lia.
Qed.

Lemma scan_unlimited count t rs res vis :
  (∀ res', limit_reached count res' = false) →
  scan count t rs (res, vis) = inr (res ++ collect t rs, vis ++ rs).
Proof.
  intros Hlim. revert res vis. induction rs as [|r rs IH]; intros res vis.
  - by rewrite !app_nil_r.
  - cbn [scan fst snd]. rewrite Hlim, IH, (collect_cons t r rs).
    by rewrite <-!app_assoc.
Qed.

Lemma limit_none res : limit_reached None res = false.
Proof. done. Qed.

Lemma limit_zero res : limit_reached (Some 0%Z) res = false.
Proof. done. Qed.

Lemma limit_pos c res :
  (0 < c)%Z → limit_reached (Some c) res = bool_decide (Z.to_nat c ≤ length res).
Proof.
  intros Hc. unfold limit_reached.
  destruct (Z.eqb_spec c 0); [lia|]. cbn [negb andb].
  destruct (Z.leb_spec c (Z.of_nat (length res))).
  - rewrite bool_decide_eq_true_2; [done | lia].
  - rewrite bool_decide_eq_false_2; [done | lia].
Qed.

Lemma limit_neg c res : (c < 0)%Z → limit_reached (Some c) res = true.
Proof.
  intros Hc. unfold limit_reached.
  destruct (Z.eqb_spec c 0); [lia|]. cbn [negb andb]. apply Z.leb_le. lia.
Qed.

(** With a limit [n > 0]: the values are the first [n] of all, the nodes gone
    through are a first part of all, and each of them was gone through while
    fewer than [n] values had been collected. *)
Lemma scan_limited c t rs : (0 < c)%Z →
  ∀ res vis, length res ≤ Z.to_nat c →
  ∃ rs1 rs2,
    rs = rs1 ++ rs2 ∧
    scan_end (scan (Some c) t rs (res, vis))
    = (take (Z.to_nat c) (res ++ collect t rs), vis ++ rs1) ∧
    take (Z.to_nat c) (res ++ collect t rs) = res ++ collect t rs1 ∧
    (∀ ra r rb, rs1 = ra ++ r :: rb → length (res ++ collect t ra) < Z.to_nat c).
Proof.
  intros Hc. induction rs as [|r rs IH]; intros res vis Hres.
  - exists [], []. cbn [scan scan_end collect mbind list_bind]. 
    rewrite !app_nil_r, take_ge by lia. split_and!; try done.
    intros [|??] ? ? ?; done.
  - cbn [scan fst snd]. rewrite limit_pos by done. case_bool_decide as Hlim.
    + exists [], (r :: rs). cbn [scan_end].
      rewrite take_app_length' by lia. rewrite !app_nil_r.
      split_and!; try done. intros [|??] ? ? ?; done.
    + destruct (IH (res ++ collect t [r]) (vis ++ [r])) as (rs1 & rs2 & -> & Hend & Htake & Hmin).
      { rewrite length_app. pose proof (collect_length t [r]). simpl in *. lia. }
      exists (r :: rs1), rs2. split_and!.
      * done.
      * rewrite Hend, (collect_cons t r (rs1 ++ rs2)), !app_assoc.
        by rewrite <-(app_assoc vis [r] rs1).
      * by rewrite (collect_cons t r (rs1 ++ rs2)), (collect_cons t r rs1), !app_assoc.
      * intros [|r' ra] r0 rb Heq; simpl in Heq; simplify_eq.
        -- cbn [collect mbind list_bind]. rewrite app_nil_r. lia.
        -- rewrite (collect_cons t r' ra), app_assoc. by eapply Hmin.
Qed.

(** ** [match] on a store that satisfies the invariant *)

Lemma match_run_spec t q count fuel d :
  Tree t → q ≠ EmptyString → length (heap t) ≤ fuel → length (heap t) ≤ d →
  match_run fuel t q count
  = Some match _getClosestNode t q with
         | Some r => scan_end (scan count t (visit_order Object_keys d t r) ([], []))
         | None => ([], [])
         end.
Proof.
  intros [R HI] Hq Hfuel Hd. unfold match_run. destruct q as [|c q]; [done|].
  destruct (_getClosestNode t (String c q)) as [r|] eqn:Hr; [|done].
  unfold _getClosestNode in Hr.
  rewrite (closest_walk _ _ _ _ (tree_shape _ _ HI)) in Hr.
  destruct (t_walk R (String c q)) as [s|] eqn:Hs; [|done].
  cbn [fmap option_fmap option_map ref_at] in Hr. simplify_eq.
  destruct (match_ghost _ _ _ _ HI Hq Hs) as (_ & _ & _ & _ & Hd').
  destruct (Hd' d Hd) as (Hdeep & _ & Hlen).
  apply match_loop_total; [done | lia].
Qed.

Lemma contents_filter_prefix t q :
  (filter (λ e, String.prefix q e.1 = true) (contents t)).*2
  = (λ l, value (deref (heap t) l))
      <$> (filter (λ e, String.prefix q e.1 = true) (table t)).*2.
Proof.
  unfold contents. induction (table t) as [|[k l] tb IH]; [done|].
  csimpl. rewrite !filter_cons. cbn [fst]. case_decide; csimpl; by rewrite IH.
Qed.

Lemma match_all t q fuel :
  Inv t → q ≠ EmptyString → length (heap t) ≤ fuel →
  ∃ vs, match_ fuel t q None = Some vs ∧
        vs ≡ₚ (filter (λ e, String.prefix q e.1 = true) (contents t)).*2.
Proof.
  intros HIt Hq Hfuel. unfold match_.
  rewrite (match_run_spec t q None fuel (length (heap t)))
    by (done || by apply Inv_Tree).
  eexists. split; [done|]. destruct HIt as [R HI].
  unfold _getClosestNode. rewrite (closest_walk _ _ _ _ (inv_shape _ _ HI)).
  destruct (t_walk R q) as [s|] eqn:Hs.
  - cbn [fmap option_fmap option_map].
    replace (ref_at Root q s) with (At (tloc s)) by by destruct q.
    rewrite scan_unlimited by done. cbn [scan_end fst app].
    destruct (match_ghost _ _ _ _ (Inv_tree _ _ HI) Hq Hs) as (_ & _ & _ & _ & Hd').
    destruct (Hd' (length (heap t)) ltac:(done)) as (_ & Hperm & _).
    rewrite Hperm, list_fmap_compose, collect_locs.
    rewrite contents_filter_prefix.
    by rewrite (subtree_table _ _ _ _ HI Hq Hs).
  - cbn [fmap option_fmap option_map fst].
    rewrite contents_filter_prefix.
    assert (filter (λ e, String.prefix q e.1 = true) (table t) = []) as ->; [|done].
    apply elem_of_nil_inv. intros [k l] [Hpre Hin]%list_elem_of_filter.
    cbn [fst] in Hpre. apply prefix_spec in Hpre as [rest ->].
    apply (obj_get_elem _ _ _ (proj1 (inv_tab _ _ HI))) in Hin.
    destruct (tab_node _ _ _ _ HI Hin) as (x & Hx & _).
    apply walk_prefix_Some in Hx as (y & Hy & _). congruence.
Qed.

(** ** The store is a dictionary *)

Lemma obj_get_delete_eq {K A} `{EqDecision K} (k : K) (o : list (K * A)) :
  obj_get k (obj_delete k o) = None.
Proof. rewrite obj_get_delete. by rewrite decide_True. Qed.

Lemma put_socket_table t r s : table (put_socket t r s) = table t.
Proof. by destruct r. Qed.

Lemma proto_free_snoc ops o :
  proto_free (ops ++ [o]) ↔ proto_free ops ∧ sets_proto o = false.
Proof.
  unfold proto_free. rewrite Forall_app, Forall_singleton. done.
Qed.

Lemma run_snoc ops o : run (ops ++ [o]) = apply_op (run ops) o.
Proof. unfold run. by rewrite foldl_app. Qed.

Lemma contents_apply t o :
  sets_proto o = false → Inv t →
  contents (apply_op t o) = dict_op (contents t) o.
Proof.
  intros Ho HI. destruct o as [key v|query| | |]; try done.
  - cbn [apply_op dict_op]. case_decide as Hk; [by subst key|].
    apply contents_set; [done..|].
    cbn [sets_proto] in Ho. by apply bool_decide_eq_false in Ho.
  - by apply contents_remove.
Qed.

Lemma contents_run ops :
  proto_free ops → contents (run ops) = foldl dict_op [] ops.
Proof.
  induction ops as [|o ops IH] using rev_ind; [done|].
  intros [Hops Ho]%proto_free_snoc.
  rewrite run_snoc, foldl_app, contents_apply by (done || by apply run_Inv).
  by rewrite IH.
Qed.

Lemma run_proto ops : proto_free ops → table_proto (run ops) = None.
Proof. intros Hops. destruct (run_Inv ops Hops) as [R HI]. apply HI. Qed.

Lemma get_run ops k :
  proto_free ops →
  get (run ops) k = default undefined (obj_get k (foldl dict_op [] ops)).
Proof.
  intros Hops. by rewrite get_contents, contents_run by (done || by apply run_proto).
Qed.

Lemma stored_own ops k :
  proto_free ops →
  is_Some (obj_get k (foldl dict_op [] ops)) ↔ is_Some (obj_get k (table (run ops))).
Proof.
  intros Hops. rewrite <-contents_run by done. unfold contents.
  rewrite obj_get_fmap. by rewrite fmap_is_Some.
Qed.

Lemma dict_sets_get kvs key :
  key ≠ EmptyString →
  obj_get key (foldl dict_op [] (sets kvs))
  = snd <$> last (filter (λ kv, kv.1 = key) kvs).
Proof.
  intros Hkey. induction kvs as [|[k v] kvs IH] using rev_ind; [done|].
  unfold sets. rewrite fmap_app, foldl_app, filter_app. cbn [fmap list_fmap foldl dict_op fst snd].
  fold (sets kvs). rewrite filter_cons, filter_nil. cbn [fst].
  destruct (decide (k = key)) as [->|Hne].
  - rewrite decide_False by done. rewrite obj_get_set, decide_True by done.
    by rewrite last_snoc.
  - rewrite app_nil_r, <-IH. case_decide; [done|].
    rewrite obj_get_set. by rewrite decide_False.
Qed.

Lemma dict_sets_keys kvs :
  NoDup (foldl dict_op [] (sets kvs)).*1 ∧
  ∀ k, k ∈ (foldl dict_op [] (sets kvs)).*1 ↔ k ∈ kvs.*1 ∧ k ≠ EmptyString.
Proof.
  induction kvs as [|[k v] kvs [IHnd IH]] using rev_ind.
  - split; [apply NoDup_nil_2|]. intros k. cbn. rewrite elem_of_nil. tauto.
  - unfold sets. rewrite !fmap_app, foldl_app. cbn [fmap list_fmap foldl dict_op fst snd].
    fold (sets kvs). case_decide as Hk.
    + split; [done|]. intros k'. rewrite IH, elem_of_app, list_elem_of_singleton.
      split; [tauto|]. intros [[?| ->] ?]; [tauto | done].
    + split; [by apply obj_set_NoDup|]. intros k'.
      rewrite obj_set_keys, elem_of_app, list_elem_of_singleton.
      case_decide as Hin.
      * rewrite IH. split; [tauto|]. intros [[?| ->] ?]; [tauto|]. by apply IH.
      * rewrite elem_of_app, list_elem_of_singleton, IH.
        split; [|tauto]. intros [?|Heq]; [tauto|]. subst k'. tauto.
Qed.

Lemma sets_proto_free kvs : "__proto__" ∉ kvs.*1 → proto_free (sets kvs).
Proof.
  intros Hk. unfold proto_free, sets. apply Forall_fmap, Forall_forall.
  intros [k v] Hin. cbn. apply bool_decide_eq_false. intros ->.
  apply Hk. apply list_elem_of_fmap. by exists ("__proto__", v).
Qed.

Lemma closest_node t R p l :
  Tree_with t R → _getClosestNode t p = Some (At l) →
  ∃ x, t_walk R p = Some x ∧ tloc x = l ∧ p ≠ EmptyString ∧
       heap t !! l = Some (node_of x) ∧
       (tname x = None ∨ tname x = Some p) ∧
       (tkids x = [] → tname x = Some p) ∧ ok p x.
Proof.
  intros HI Hc. unfold _getClosestNode in Hc.
  rewrite (closest_walk _ _ _ _ (tree_shape _ _ HI)) in Hc.
  destruct (t_walk R p) as [x|] eqn:Hx; [|done].
  destruct p as [|c p]; [done|]. cbn in Hc. simplify_eq.
  pose proof (shape_walk _ _ _ _ _ (tree_shape _ _ HI) Hx) as [[_ Hl] _].
  destruct (ok_walk _ _ _ _ (tree_ok _ _ HI) Hx) as [Hok Hnm].
  rewrite str_nil in Hok, Hnm. destruct (Hnm ltac:(done)) as [? ?].
  exists x. split_and!; done.
Qed.

Lemma remove_walk_complete t k : ∀ r point,
  is_Some (closest t r k) → is_Some (remove_walk t r point k).
Proof.
  induction k as [|c k IH]; intros r point Hc; [by eexists|].
  cbn [closest remove_walk] in *.
  destruct (obj_get c (socket_of t r)) as [l|]; [by apply IH | by destruct Hc].
Qed.

Lemma remove_node_heap_length t k e :
  length (heap (remove_node t k e)) = length (heap t).
Proof.
  unfold remove_node, remove_prune.
  destruct (negb _); [cbn [table_delete label heap]; by rewrite length_insert|].
  destruct (remove_walk t Root None k) as [[[[|l] char]|]|];
    cbn [table_delete heap put_socket reset]; by rewrite ?length_insert.
Qed.

(** Below every node that has a key or a child there is a node with a key. *)
Lemma live_desc s : ∀ p,
  ok p s → (tkids s = [] → tname s ≠ None) →
  ∃ q y, t_walk s q = Some y ∧ tname y ≠ None.
Proof.
  induction s as [l nm vl kids IH] using tree_ind'. intros p Hok Hlive.
  destruct nm as [k|]; [by exists EmptyString, (T l (Some k) vl kids)|].
  destruct kids as [|[c k] kids]; [by specialize (Hlive eq_refl)|].
  assert (obj_get c (tkids (T l None vl ((c, k) :: kids))) = Some k) as Hk.
  { simpl. by rewrite decide_True. }
  destruct (ok_kid _ _ _ _ Hok Hk) as (_ & Hlk & Hokk).
  apply Forall_cons in IH as [IHk _]. cbn [snd] in IHk.
  destruct (IHk _ Hokk) as (q & y & Hy & Hn).
  { intros Hnil. rewrite (Hlk Hnil). done. }
  exists (String c q), y. split; [|done]. cbn [t_walk]. by rewrite Hk.
Qed.

Lemma filter_delete {A} (P : string * A → Prop) `{!∀ e, Decision (P e)}
    (d : list (string * A)) k v :
  NoDup d.*1 → obj_get k d = Some v →
  filter P d ≡ₚ (if decide (P (k, v)) then [(k, v)] else []) ++ filter P (obj_delete k d).
Proof.
  intros Hnd Hk. destruct (obj_get_split _ _ _ Hk) as (d1 & d2 & -> & Hd1).
  rewrite fmap_app, fmap_cons in Hnd. cbn [fst] in Hnd.
  apply NoDup_app in Hnd as (_ & Hdis & [Hd2 _]%NoDup_cons).
  rewrite obj_delete_split by done.
  rewrite !filter_app, filter_cons. case_decide; [|done].
  by rewrite <-Permutation_middle.
Qed.

(** [match] with the limit 0 is [match] without a limit. *)
Lemma match_limit_zero fuel t query :
  match_run fuel t query (Some 0%Z) = match_run fuel t query None.
Proof.
  unfold match_run. destruct query; [done|].
  destruct (_getClosestNode _ _) as [r|]; [|done].
  generalize (@nil loc) at 1 2. generalize (@nil val) at 1 2.
  generalize (@nil ref). revert r.
  induction fuel as [|fuel IH]; intros r vis res points; [done|].
  cbn [match_loop]. rewrite limit_zero, limit_none.
  destruct (Object_keys _) as [|char others].
  - destruct points; [done|]. apply IH.
  - destruct (obj_get char _); [apply IH | done].
Qed.

Lemma scan_vis_prefix count t rs : ∀ st,
  ∃ rs1 rs2, rs = rs1 ++ rs2 ∧ (scan_end (scan count t rs st)).2 = st.2 ++ rs1.
Proof.
  induction rs as [|r rs IH]; intros st.
  - exists [], []. cbn [scan scan_end]. split; [done|]. by rewrite app_nil_r.
  - cbn [scan]. destruct (limit_reached count st.1).
    + exists [], (r :: rs). cbn [scan_end]. split; [done|]. by rewrite app_nil_r.
    + destruct (IH (st.1 ++ collect t [r], st.2 ++ [r])) as (rs1 & rs2 & -> & Hvis).
      exists (r :: rs1), rs2. split; [done|]. rewrite Hvis. cbn [snd].
      by rewrite <-app_assoc.
Qed.

Lemma scan_res_prefix count t rs : ∀ st,
  ∃ more, (scan_end (scan count t rs st)).1 = st.1 ++ more.
Proof.
  induction rs as [|r rs IH]; intros st; cbn [scan].
  - exists []. cbn. by rewrite app_nil_r.
  - destruct (limit_reached count st.1).
    + exists []. cbn. by rewrite app_nil_r.
    + destruct (IH (st.1 ++ collect t [r], st.2 ++ [r])) as [more Hmore].
      eexists. rewrite Hmore. cbn [fst]. by rewrite <-app_assoc.
Qed.

Lemma obj_delete_set_absent {K A} `{EqDecision K} (k : K) (a : A) o :
  k ∉ o.*1 → obj_delete k (obj_set k a o) = o.
Proof.
  intros Hk. rewrite obj_set_absent by done.
  induction o as [|[k0 a0] o IH]; simpl.
  - by rewrite decide_True.
  - simpl in Hk. rewrite not_elem_of_cons in Hk. destruct Hk as [? ?].
    rewrite decide_False by done. by rewrite IH.
Qed.

Lemma obj_set_same {K A} `{EqDecision K} (k : K) (a : A) o :
  obj_get k o = Some a → obj_set k a o = o.
Proof.
  induction o as [|[k0 a0] o IH]; cbn; [done|]. case_decide.
  - by intros [= ->].
  - intros Hg. by rewrite IH.
Qed.

Lemma obj_set_set {K A} `{EqDecision K} (k : K) (a b : A) o :
  obj_set k b (obj_set k a o) = obj_set k b o.
Proof.
  induction o as [|[k0 a0] o IH]; cbn.
  - by rewrite decide_True.
  - case_decide; cbn; [by rewrite decide_True|].
    rewrite decide_False by done. by rewrite IH.
Qed.

Lemma set_loop_existing key : ∀ t node r,
  closest t node key = Some r → set_loop t node key = (t, r).
Proof.
  induction key as [|c rest IH]; intros t node r Hc; cbn in *.
  - by simplify_eq.
  - destruct (obj_get c (socket_of t node)); [by apply IH | done].
Qed.

(** ** The claims of the specification *)

(** C8. For every store state, [set] with the empty key leaves the store as
    it is, and [match] with the empty query returns the empty sequence
    without going through any node (and, being a function of the store,
    without changing it); both are ordinary results, with any fuel. *)
Theorem empty_key_ignored (t : Trie) (v : val) (fuel : nat) (count : option Z) :
  set t EmptyString v = t ∧
  match_run fuel t EmptyString count = Some ([], []) ∧
  match_ fuel t EmptyString count = Some [].
Proof. done. Qed.

(** C4 (as amended). For every sequence of calls of [set] none of which has
    the key [__proto__], [get] of a key that is not empty returns the value
    of the last call for that key, and [undefined] when there is none; the
    number of entries of the table is the number of distinct non-empty keys
    of the calls.  (A call with the empty key is ignored, so [get] of the
    empty key is [undefined].) *)
Theorem get_after_sets (kvs : list (string * val)) :
  let t := run (sets kvs) in
  "__proto__" ∉ kvs.*1 →
  (∀ key, key ≠ EmptyString → get t key = last_set key kvs) ∧
  get t EmptyString = undefined ∧
  length (table t)
  = length (remove_dups (filter (λ k, k ≠ EmptyString) kvs.*1)).
Proof.
  intros t Hpr%sets_proto_free. destruct (dict_sets_keys kvs) as [Hnd Hin].
  split_and!.
  - intros key Hkey. unfold t, last_set. by rewrite get_run, dict_sets_get.
  - unfold t. rewrite get_run by done.
    destruct (obj_get EmptyString _) as [v|] eqn:Hv; [|done].
    apply obj_get_Some_elem in Hv.
    assert (EmptyString ∈ (foldl dict_op [] (sets kvs)).*1) as Hk.
    { apply list_elem_of_fmap. by exists (EmptyString, v). }
    apply Hin in Hk. by destruct Hk.
  - rewrite <-(length_fmap fst (table t)), <-contents_keys. unfold t.
    rewrite contents_run by done. apply Permutation_length, NoDup_Permutation.
    + done.
    + apply NoDup_remove_dups.
    + intros k. rewrite Hin, elem_of_remove_dups, list_elem_of_filter. tauto.
Qed.

(** C1 (as amended). For every store built by the methods without a call
    [set('__proto__', v)] and every query that is not empty, [match]
    without a limit returns the values of the stored keys that start with
    the query, each once and no other value, in some order; for the empty
    query it returns the empty sequence.  The stored keys are the keys of
    the dictionary on which the same calls were made. *)
Theorem match_returns_prefix_values (ops : list op) (query : string) (fuel : nat) :
  let t := run ops in
  proto_free ops → query ≠ EmptyString → length (heap t) ≤ fuel →
  (∃ vs, match_ fuel t query None = Some vs ∧
         vs ≡ₚ (filter (λ e, String.prefix query e.1 = true)
                       (foldl dict_op [] ops)).*2) ∧
  match_ fuel t EmptyString None = Some [].
Proof.
  intros t Hops Hq Hfuel. split; [|done]. rewrite <-contents_run by done.
  apply match_all; [by apply run_Inv | done..].
Qed.

(** C7 (as amended). The result of [match] is a function of the store, and
    its order is the order of visit: a node, then what is below its first
    child, then what is below its other children, the last one first, where
    the children are taken in the order of [Object.keys] of the socket
    (digit characters ascending first, the other characters in the order in
    which the edges were created). *)
Theorem match_visit_order (ops : list op) (query : string) (fuel d : nat) :
  let t := run ops in
  query ≠ EmptyString → length (heap t) ≤ fuel → length (heap t) ≤ d →
  match_run fuel t query None
  = Some match _getClosestNode t query with
         | Some r => (collect t (visit_order Object_keys d t r),
                      visit_order Object_keys d t r)
         | None => ([], [])
         end.
Proof.
  intros t Hq Hfuel Hd.
  rewrite (match_run_spec t query None fuel d) by (done || apply run_Tree).
  destruct (_getClosestNode t query) as [r|]; [|done].
  by rewrite scan_unlimited.
Qed.

(** C5 (as amended). For every store built by the methods, every query and
    every limit [c > 0], [match] with the limit returns the first [c] values
    of what it returns without a limit, hence at most [c] values; the nodes
    it goes through are a first part of those it goes through without a
    limit, and it goes through a node only while fewer than [c] values have
    been collected. *)
Theorem match_limit (ops : list op) (query : string) (c : Z) (fuel : nat) :
  let t := run ops in
  (0 < c)%Z → length (heap t) ≤ fuel →
  ∃ all nodes res vis,
    match_run fuel t query None = Some (all, nodes) ∧
    match_run fuel t query (Some c) = Some (res, vis) ∧
    res = take (Z.to_nat c) all ∧ length res ≤ Z.to_nat c ∧
    vis `prefix_of` nodes ∧
    (∀ ra r rb, vis = ra ++ r :: rb → length (collect t ra) < Z.to_nat c).
Proof.
  intros t Hc Hfuel.
  destruct (decide (query = EmptyString)) as [->|Hq].
  { exists [], [], [], []. split_and!; try done.
    - by rewrite take_nil.
    - simpl. lia.
    - intros [|??] ? ? ?; done. }
  rewrite !(match_run_spec t query _ fuel (length (heap t)))
    by (done || apply run_Tree).
  destruct (_getClosestNode t query) as [r|].
  2:{ exists [], [], [], []. split_and!; try done.
      - by rewrite take_nil.
      - simpl. lia.
      - intros [|??] ? ? ?; done. }
  set (V := visit_order Object_keys (length (heap t)) t r).
  destruct (scan_limited c t V Hc [] []) as (rs1 & rs2 & HV & Hend & Htake & Hmin);
    [simpl; lia|].
  rewrite scan_unlimited by done. cbn [scan_end app] in *.
  exists (collect t V), V, (take (Z.to_nat c) (collect t V)), rs1.
  split_and!; try done.
  - by rewrite Hend.
  - rewrite length_take. lia.
  - by exists rs2.
Qed.

(** C3 (as amended). For every store built by the methods without a call
    [set('__proto__', v)] and every stored key [k]: [remove] of [k]
    returns; afterwards [get] of [k] is [undefined]; the stored keys and
    values are those of before without the entry of [k], so every other key
    has its value as before; every result of [match] without a limit is
    the result of before without the value of [k], up to the order; every
    node that remains is on the path of a key that remains; and every node
    on the path of a key that remains is the node it was. *)
Theorem remove_frame (ops : list op) (k : string) :
  let t := run ops in
  proto_free ops → is_Some (obj_get k (foldl dict_op [] ops)) →
  ∃ t', remove t k = Returns t' ∧
  get t' k = undefined ∧
  contents t = foldl dict_op [] ops ∧
  contents t' = obj_delete k (contents t) ∧
  (∀ k', k' ≠ k → get t' k' = get t k') ∧
  (∀ q fuel, q ≠ EmptyString → length (heap t) ≤ fuel →
     ∃ vs vs', match_ fuel t q None = Some vs ∧ match_ fuel t' q None = Some vs' ∧
               vs ≡ₚ (if String.prefix q k then [get t k] else []) ++ vs') ∧
  (∀ p r, p ≠ EmptyString → _getClosestNode t' p = Some r →
     ∃ k', String.prefix p k' = true ∧ is_Some (obj_get k' (contents t'))) ∧
  (∀ k' p, is_Some (obj_get k' (contents t')) → String.prefix p k' = true →
     _getClosestNode t' p = _getClosestNode t p ∧ is_Some (_getClosestNode t' p)).
Proof.
  intros t Hops [e He]%stored_own; [|done]. fold t in He.
  destruct (run_Inv ops Hops) as [R HI]. fold t in HI.
  exists (remove_node t k e). split; [by apply remove_own|].
  destruct (remove_spec _ _ _ _ HI He) as (R' & HI' & Htb & _ & Hback).
  set (t' := remove_node t k e) in *.
  assert (Hc : contents t' = obj_delete k (contents t)).
  { unfold t'. rewrite <-(apply_remove_own _ _ _ He).
    apply contents_remove. by exists R. }
  pose proof (inv_proto _ _ HI) as Hpr. pose proof (inv_proto _ _ HI') as Hpr'.
  assert (Hown : ∀ k', is_Some (obj_get k' (contents t'))
                       ↔ is_Some (obj_get k' (table t'))).
  { intros k'. unfold contents. by rewrite obj_get_fmap, fmap_is_Some. }
  split_and!.
  - by rewrite get_contents, Hc, obj_get_delete_eq.
  - by apply contents_run.
  - done.
  - intros k' Hk'. rewrite !get_contents, Hc, obj_get_delete by done.
    by rewrite decide_False.
  - intros q fuel Hq Hfuel.
    destruct (match_all t q fuel) as (vs & Hvs & Hperm); [by exists R | done..|].
    destruct (match_all t' q fuel) as (vs' & Hvs' & Hperm'); [by exists R' | done | |].
    { unfold t'. by rewrite remove_node_heap_length. }
    exists vs, vs'. split_and!; [done..|]. rewrite Hperm, Hperm', Hc.
    assert (Hget : obj_get k (contents t) = Some (get t k)).
    { rewrite (get_own _ _ _ He). unfold contents. by rewrite obj_get_fmap, He. }
    rewrite (filter_delete _ (contents t) k (get t k));
      [|by rewrite contents_keys; apply (inv_tab _ _ HI) | done].
    rewrite fmap_app. cbn [fst]. apply Permutation_app; [|done].
    destruct (String.prefix q k); [by rewrite decide_True | by rewrite decide_False].
  - intros p r Hp Hr.
    assert (∃ l, r = At l) as [l ->].
    { unfold _getClosestNode in Hr.
      rewrite (closest_walk _ _ _ _ (inv_shape _ _ HI')) in Hr.
      destruct (t_walk R' p); [|done]. destruct p; [done|]. cbn in Hr.
      simplify_eq. by eexists. }
    destruct (closest_node _ _ _ _ (Inv_tree _ _ HI') Hr)
      as (x & Hx & _ & _ & _ & _ & Hlive & Hokx).
    destruct (live_desc x p Hokx) as (q & y & Hy & Hn).
    { intros Hnil. by rewrite (Hlive Hnil). }
    exists (p +:+ q). split; [apply prefix_spec; by eexists|].
    apply Hown. exists (tloc y). apply (inv_tab _ _ HI').
    exists y. split_and!; [|done..]. by rewrite walk_app, Hx.
  - intros k' p [l Hl]%Hown [rest ->]%prefix_spec.
    destruct (tab_node _ _ _ _ HI' Hl) as (x' & Hx' & _).
    apply walk_prefix_Some in Hx' as (y' & Hy' & _).
    unfold _getClosestNode.
    rewrite (closest_walk _ _ _ _ (inv_shape _ _ HI')), Hy'.
    rewrite (closest_walk _ _ _ _ (inv_shape _ _ HI)).
    split; [|by eexists].
    destruct p as [|c p]; [done|].
    destruct (Hback (String c p) y') as (y & Hy & Hloc); [done..|].
    rewrite Hy. cbn. by rewrite Hloc.
Qed.

(** C6 (as amended). For every store built by the methods without a call
    [set('__proto__', v)] and every stored key whose node has no child: if
    no node on the way from the root to that node (the root included, the
    node itself excepted) has a key or two or more children, [remove] of
    the key resets the store: afterwards the root socket and the table are
    empty. *)
Theorem remove_only_chain_resets (ops : list op) (k : string) (e : loc) :
  let t := run ops in
  proto_free ops →
  obj_get k (table t) = Some e →
  socket (deref (heap t) e) = [] →
  (∀ p rest r, k = p +:+ rest → rest ≠ EmptyString →
     _getClosestNode t p = Some r →
     truthy (name_of t r) = false ∧ length (socket_of t r) < 2) →
  remove t k = Returns (reset t) ∧
  rootSocket (reset t) = [] ∧ table (reset t) = [] ∧ table_proto (reset t) = None.
Proof.
  intros t Hops He Hleaf Hplain.
  destruct (run_Inv ops Hops) as [R HI]. fold t in HI.
  destruct (tab_node _ _ _ _ HI He) as (x & Hx & Hl & Hname & Hk & Hlook & Hokx).
  rewrite (deref_Some _ _ _ Hlook) in Hleaf. cbn [node_of socket] in Hleaf.
  split; [|done]. rewrite (remove_own _ _ _ He). f_equal.
  unfold remove_node, remove_prune. rewrite (deref_Some _ _ _ Hlook).
  cbn [node_of socket].
  rewrite Hleaf. cbn [Object_keys length Nat.eqb negb].
  destruct (remove_walk_spec t k Root R EmptyString None x
              (inv_shape _ _ HI) (inv_ok _ _ HI) Hx) as (point' & Hw & Hcase).
  rewrite Hw.
  destruct Hcase as [[-> _]|(q1 & c & q2 & y & z & Hkq & -> & Hy & Ha & _)]; [done|].
  exfalso.
  destruct (Hplain q1 (String c q2) (ref_at Root q1 y) Hkq ltac:(done)) as [Htr Hlen].
  { unfold _getClosestNode. by rewrite (closest_walk _ _ _ _ (inv_shape _ _ HI)), Hy. }
  pose proof (shape_walk _ _ _ _ _ (inv_shape _ _ HI) Hy) as Hshy.
  rewrite (shape_name _ _ _ Hshy) in Htr.
  rewrite (shape_socket _ _ _ Hshy), sk_length in Hlen.
  unfold anchor in Ha. rewrite Htr in Ha. cbn [orb] in Ha.
  apply Nat.leb_le in Ha. lia.
Qed.

(** ** Further properties of the methods *)

(** X1. Without a call [set('__proto__', v)] the store is a dictionary:
    after any sequence of calls the stored keys and values are those of a
    plain dictionary on which the same calls were made ([set] with the
    empty key doing nothing), and [get] is the lookup in it. *)
Theorem store_is_dictionary (ops : list op) :
  proto_free ops →
  contents (run ops) = foldl dict_op [] ops ∧
  ∀ k, get (run ops) k = default undefined (obj_get k (foldl dict_op [] ops)).
Proof.
  intros Hops. split; [by apply contents_run|]. intros k. by apply get_run.
Qed.

(** X2. In every store built by the methods without a call
    [set('__proto__', v)], [get] after [set] of a key that is neither empty
    nor [__proto__] returns the value set, and the value of every other key
    is as before. *)
Theorem set_then_get (ops : list op) (key : string) (v : val) :
  let t := run ops in
  proto_free ops → key ≠ EmptyString → key ≠ "__proto__" →
  get (set t key v) key = v ∧ ∀ k', k' ≠ key → get (set t key v) k' = get t k'.
Proof.
  intros t Hops Hkey Hpr.
  assert (proto_free (ops ++ [OpSet key v])) as Hops'.
  { apply proto_free_snoc. split; [done|]. cbn. by apply bool_decide_eq_false. }
  assert (∀ k', get (set t key v) k'
                = default undefined (obj_get k' (obj_set key v (foldl dict_op [] ops))))
    as Hget.
  { intros k'. change (set t key v) with (apply_op (run ops) (OpSet key v)).
    rewrite <-run_snoc, get_run, foldl_app by done. cbn [foldl dict_op].
    by rewrite decide_False. }
  split.
  - by rewrite Hget, obj_get_set, decide_True.
  - intros k' Hk'. rewrite Hget, obj_get_set, decide_False by done.
    unfold t. by rewrite get_run.
Qed.

(** X3. After [reset], whatever the store was, every [get] is [undefined],
    every [match] returns nothing and visits nothing, and the root socket
    and the table are empty. *)
Theorem reset_empties (t : Trie) :
  (∀ k, get (reset t) k = undefined) ∧
  (∀ q count fuel, match_run fuel (reset t) q count = Some ([], [])) ∧
  rootSocket (reset t) = [] ∧ table (reset t) = [] ∧ contents (reset t) = [].
Proof.
  split_and!; try done.
  - intros k. unfold get. rewrite table_get_plain by done. cbn.
    by destruct (inherited_name k).
  - intros q count fuel. by destruct q.
Qed.

(** X4. In every store built by the methods without a call
    [set('__proto__', v)], following the characters of a non-empty string
    from the root reaches a node exactly when the string is the beginning
    of a stored key. *)
Theorem node_iff_prefix_of_key (ops : list op) (p : string) :
  let t := run ops in
  proto_free ops → p ≠ EmptyString →
  (is_Some (_getClosestNode t p) ↔
   ∃ k, String.prefix p k = true ∧ is_Some (obj_get k (foldl dict_op [] ops))).
Proof.
  intros t Hops Hp. destruct (run_Inv ops Hops) as [R HI]. fold t in HI.
  assert (∀ k, is_Some (obj_get k (foldl dict_op [] ops))
               ↔ is_Some (obj_get k (table t))) as Hown
    by (intros k; by apply stored_own).
  split.
  - intros [r Hr].
    assert (∃ l, r = At l) as [l ->].
    { unfold _getClosestNode in Hr.
      rewrite (closest_walk _ _ _ _ (inv_shape _ _ HI)) in Hr.
      destruct (t_walk R p); [|done]. destruct p; [done|]. cbn in Hr.
      simplify_eq. by eexists. }
    destruct (closest_node _ _ _ _ (Inv_tree _ _ HI) Hr)
      as (x & Hx & _ & _ & _ & _ & Hlive & Hokx).
    destruct (live_desc x p Hokx) as (q & y & Hy & Hn).
    { intros Hnil. by rewrite (Hlive Hnil). }
    exists (p +:+ q). split; [apply prefix_spec; by eexists|].
    apply Hown. exists (tloc y). apply (inv_tab _ _ HI).
    exists y. split_and!; [|done..]. by rewrite walk_app, Hx.
  - intros (k & [rest ->]%prefix_spec & [l Hl]%Hown).
    destruct (tab_node _ _ _ _ HI Hl) as (x & Hx & _).
    apply walk_prefix_Some in Hx as (y & Hy & _).
    unfold _getClosestNode.
    rewrite (closest_walk _ _ _ _ (inv_shape _ _ HI)), Hy. by eexists.
Qed.

(** X5. In every store built by the methods, [match] ends for every query
    and every limit once the fuel is at least the number of nodes ever
    created, and it goes through no node twice. *)
Theorem match_ends_and_visits_once (ops : list op) (q : string)
    (count : option Z) (fuel : nat) :
  let t := run ops in
  length (heap t) ≤ fuel →
  ∃ res vis, match_run fuel t q count = Some (res, vis) ∧ NoDup vis.
Proof.
  intros t Hfuel.
  destruct (decide (q = EmptyString)) as [->|Hq].
  { exists [], []. split; [done | apply NoDup_nil_2]. }
  destruct (run_Tree ops) as [R HI]. fold t in HI.
  rewrite (match_run_spec t q count fuel (length (heap t))) by (done || by exists R).
  unfold _getClosestNode. rewrite (closest_walk _ _ _ _ (tree_shape _ _ HI)).
  destruct (t_walk R q) as [s|] eqn:Hs.
  2:{ exists [], []. split; [done | apply NoDup_nil_2]. }
  cbn [fmap option_fmap option_map].
  replace (ref_at Root q s) with (At (tloc s)) by by destruct q.
  destruct (match_ghost _ _ _ _ HI Hq Hs) as (_ & _ & _ & Hnd & Hd).
  destruct (Hd (length (heap t)) ltac:(done)) as (_ & Hperm & _).
  set (V := visit_order Object_keys (length (heap t)) t (At (tloc s))) in *.
  destruct (scan_vis_prefix count t V ([], [])) as (rs1 & rs2 & HV & Hvis).
  destruct (scan_end (scan count t V ([], []))) as [res vis]. cbn [snd app] in Hvis.
  exists res, vis. split; [done|]. subst vis.
  assert (NoDup V) as HndV.
  { rewrite Hperm, list_fmap_compose. apply NoDup_fmap_2; [|done].
    intros ? ? ?. by simplify_eq. }
  rewrite HV in HndV. by apply NoDup_app in HndV as [? _].
Qed.

(** X6. Whatever the store: the limit 0 is no limit, and with a negative
    limit [match] returns nothing and visits nothing. *)
Theorem match_nonpositive_limit (t : Trie) (q : string) (c : Z) (fuel : nat) :
  match_run fuel t q (Some 0%Z) = match_run fuel t q None ∧
  ((c < 0)%Z → 0 < fuel → match_run fuel t q (Some c) = Some ([], [])).
Proof.
  split; [apply match_limit_zero|]. intros Hc Hfuel. unfold match_run.
  destruct q; [done|]. destruct (_getClosestNode _ _) as [r|]; [|done].
  destruct fuel as [|fuel]; [lia|]. cbn [match_loop]. by rewrite limit_neg.
Qed.

Lemma set_stored t key v l :
  Inv t → obj_get key (table t) = Some l →
  set t key v
  = mkTrie (rootSocket t) (table t) (table_proto t)
      (<[l := mkNode (socket (deref (heap t) l)) (name (deref (heap t) l)) v]>
         (heap t)).
Proof.
  intros [R HI] Hl.
  destruct (tab_node _ _ _ _ HI Hl) as (x & Hx & Hloc & Hnm & Hkey & Hheap & _).
  assert (closest t Root key = Some (At l)) as Hc.
  { rewrite (closest_walk _ _ _ _ (inv_shape _ _ HI)), Hx. cbn.
    destruct key; [done|]. cbn. by rewrite Hloc. }
  assert (key ≠ "__proto__") as Hpr.
  { intros ->. pose proof (inv_own _ _ HI). congruence. }
  unfold set. rewrite (set_loop_existing _ _ _ _ Hc).
  destruct key; [done|]. rewrite table_put_own by done.
  cbn [label rootSocket table table_proto heap].
  rewrite (obj_set_same _ _ _ Hl).
  unfold deref. rewrite Hheap. cbn. by rewrite Hnm.
Qed.

(** X7. In a store built by the methods without a call
    [set('__proto__', v)], [set] of a key that is stored creates no node
    and changes no socket, no key and no entry of the table: the value of
    the node of that key is all that changes. *)
Theorem set_stored_key (ops : list op) (key : string) (v : val) (l : loc) :
  let t := run ops in
  proto_free ops → obj_get key (table t) = Some l →
  set t key v
  = mkTrie (rootSocket t) (table t) (table_proto t)
      (<[l := mkNode (socket (deref (heap t) l)) (name (deref (heap t) l)) v]>
         (heap t)).
Proof. intros t Hops. by apply set_stored, run_Inv. Qed.

(** X8. In every store built by the methods without a call
    [set('__proto__', v)], [set] of a key that is not stored (and is neither
    empty nor [__proto__]) followed by [remove] of that key gives back the
    stored keys and values of before, in their order. *)
Theorem set_then_remove (ops : list op) (key : string) (v : val) :
  let t := run ops in
  proto_free ops → key ≠ EmptyString → key ≠ "__proto__" →
  obj_get key (foldl dict_op [] ops) = None →
  ∃ t', remove (set t key v) key = Returns t' ∧ contents t' = contents t.
Proof.
  intros t Hops Hkey Hpr Habs.
  assert (Inv (set t key v)) as HI1.
  { apply (Inv_apply t (OpSet key v)); [|by apply run_Inv].
    cbn. by apply bool_decide_eq_false. }
  assert (Hc1 : contents (set t key v) = obj_set key v (contents t)).
  { apply contents_set; [by apply run_Inv | done..]. }
  assert (is_Some (obj_get key (table (set t key v)))) as [e He].
  { assert (is_Some (obj_get key (contents (set t key v)))) as Hs.
    { rewrite Hc1, obj_get_set, decide_True by done. by eexists. }
    unfold contents in Hs. by rewrite obj_get_fmap, fmap_is_Some in Hs. }
  exists (remove_node (set t key v) key e). split; [by apply remove_own|].
  rewrite <-(apply_remove_own _ _ _ He), contents_remove, Hc1 by done.
  apply obj_delete_set_absent. unfold t. rewrite contents_run by done.
  by apply obj_get_None.
Qed.

(** ** [Object.keys] of the table, [toObject], [toArray] and [forEach] *)

Lemma index_keys_snd (ks : list string) :
  (omap (λ k, (λ n, (n, k)) <$> array_index k) ks).*2
  = filter (λ k, array_index k ≠ None) ks.
Proof.
  induction ks as [|k ks IH]; [done|]. cbn [omap list_omap].
  rewrite filter_cons. destruct (array_index k) as [n|] eqn:Hk; cbn.
  - rewrite decide_True by done. by rewrite <-IH.
  - rewrite decide_False by (by intros []). done.
Qed.

Lemma Object_keys_str_perm {A} (o : list (string * A)) :
  Object_keys_str o ≡ₚ o.*1.
Proof.
  unfold Object_keys_str. rewrite merge_sort_Permutation, index_keys_snd.
  assert (filter (λ k, array_index k = None) o.*1
          = filter (λ k, ¬ array_index k ≠ None) o.*1) as ->.
  { apply list_filter_iff. intros k. split.
    - intros ->. by intros [].
    - intros H. destruct (array_index k); [|done]. by destruct H. }
  apply filter_app_complement.
Qed.

Lemma Object_keys_str_plain {A} (o : list (string * A)) :
  (∀ k, k ∈ o.*1 → array_index k = None) → Object_keys_str o = o.*1.
Proof.
  intros Hplain. unfold Object_keys_str.
  assert (omap (λ k, (λ n, (n, k)) <$> array_index k) o.*1 = []) as ->.
  { induction o.*1 as [|k ks IH]; [done|]. cbn [omap list_omap].
    rewrite (Hplain k) by left. cbn. apply IH. intros k' Hk'. apply Hplain. by right. }
  cbn. induction o.*1 as [|k ks IH]; [done|].
  rewrite filter_cons, decide_True by (apply Hplain; left).
  f_equal. apply IH. intros k' Hk'. apply Hplain. by right.
Qed.

Lemma table_value_get t key :
  is_Some (obj_get key (table t)) → table_value t key = Some (get t key).
Proof.
  intros [l Hl]. unfold table_value. rewrite (get_own _ _ _ Hl). by rewrite Hl.
Qed.

Lemma toArray_loop_spec t keys : ∀ arr,
  (∀ k, k ∈ keys → is_Some (obj_get k (table t))) →
  toArray_loop t keys arr = Some (arr ++ (get t <$> keys)).
Proof.
  induction keys as [|k keys IH]; intros arr Hin; cbn [toArray_loop fmap list_fmap].
  - by rewrite app_nil_r.
  - rewrite table_value_get by (apply Hin; left). cbn.
    rewrite IH by (intros; apply Hin; by right). by rewrite <-app_assoc.
Qed.

Lemma listing_loop_spec (f : val → val) t keys : ∀ obj,
  (∀ k, k ∈ keys → is_Some (obj_get k (table t))) →
  NoDup keys → (∀ k, k ∈ keys → k ∉ obj.*1) →
  iterable_loop f t keys obj = Some (obj ++ ((λ k, (k, f (get t k))) <$> keys)).
Proof.
  induction keys as [|k keys IH]; intros obj Hin Hnd Hfresh;
    cbn [iterable_loop fmap list_fmap].
  - by rewrite app_nil_r.
  - rewrite table_value_get by (apply Hin; left). cbn.
    apply NoDup_cons in Hnd as [Hk Hnd].
    rewrite obj_set_absent by (apply Hfresh; left).
    rewrite IH; [by rewrite <-app_assoc | intros; apply Hin; by right | done |].
    intros k' Hk'. rewrite fmap_app, elem_of_app. cbn. rewrite list_elem_of_singleton.
    intros [?| ->]; [|done]. by apply (Hfresh k'); [right|].
Qed.

Lemma toObject_iterable t keys obj :
  toObject_loop t keys obj = iterable_loop id t keys obj.
Proof. revert obj. induction keys as [|k keys IH]; intros obj; [done|].
  cbn. destruct (table_value t k); [|done]. cbn. apply IH. Qed.

Lemma keys_in_table t k :
  k ∈ Object_keys_str (table t) → is_Some (obj_get k (table t)).
Proof.
  rewrite Object_keys_str_perm. intros Hk.
  destruct (obj_get k (table t)) eqn:Hg; [done|].
  by apply obj_get_None in Hg.
Qed.

Lemma get_values t :
  NoDup (table t).*1 → get t <$> (table t).*1 = (contents t).*2.
Proof.
  intros Hnd. unfold contents. rewrite <-!list_fmap_compose.
  apply list_fmap_ext. intros i [k l] Hi. cbn.
  apply list_elem_of_lookup_2 in Hi.
  by rewrite (get_own _ _ _ (obj_get_elem _ _ _ Hnd Hi)).
Qed.

(** X9. In a store built by the methods without a call
    [set('__proto__', v)], [toArray] does not fail; it lists the value that
    [get] gives for every key of the table, in the order of [Object.keys],
    and these are the values of the dictionary, every one once. *)
Theorem toArray_values (ops : list op) :
  let t := run ops in
  proto_free ops →
  ∃ vs, toArray t = Some vs ∧
        vs = get t <$> Object_keys_str (table t) ∧
        vs ≡ₚ (foldl dict_op [] ops).*2.
Proof.
  intros t Hops. eexists. split_and!; [|done|].
  - unfold toArray. rewrite toArray_loop_spec; [done|]. apply keys_in_table.
  - unfold t. rewrite <-contents_run by done.
    destruct (run_Inv ops Hops) as [R HI].
    rewrite Object_keys_str_perm. by rewrite get_values by apply (inv_tab _ _ HI).
Qed.

(** X10. In a store built by the methods without a call
    [set('__proto__', v)] in which no key is an array index, [toArray]
    lists the values in the order in which their keys were first set (a key
    removed and set again counting from its last [set]). *)
Theorem toArray_insertion_order (ops : list op) :
  let t := run ops in
  proto_free ops →
  (∀ k, k ∈ (table t).*1 → array_index k = None) →
  toArray t = Some (foldl dict_op [] ops).*2.
Proof.
  intros t Hops Hplain. unfold toArray.
  rewrite toArray_loop_spec by apply keys_in_table. cbn [app]. f_equal.
  rewrite Object_keys_str_plain by done. unfold t at 2.
  rewrite <-contents_run by done. fold t.
  destruct (run_Inv ops Hops) as [R HI].
  by apply get_values, (inv_tab _ _ HI).
Qed.

(** X11. In a store built by the methods without a call
    [set('__proto__', v)], [toObject] does not fail and returns an object
    with the keys of the table, in the order of [Object.keys], in which
    every key has the value of the dictionary. *)
Theorem toObject_snapshot (ops : list op) :
  let t := run ops in
  proto_free ops →
  ∃ obj, toObject t = Some obj ∧
         obj.*1 = Object_keys_str (table t) ∧
         ∀ k, obj_get k obj = obj_get k (foldl dict_op [] ops).
Proof.
  intros t Hops. destruct (run_Inv ops Hops) as [R HI]. fold t in HI.
  pose proof (proj1 (inv_tab _ _ HI)) as Hnd.
  assert (NoDup (Object_keys_str (table t))) as Hnd'
    by by rewrite Object_keys_str_perm.
  eexists. split_and!.
  - unfold toObject. rewrite toObject_iterable.
    apply listing_loop_spec; [apply keys_in_table | done | intros k _; apply not_elem_of_nil].
  - cbn [app]. rewrite <-list_fmap_compose. apply list_fmap_id.
  - intros k. cbn [app id]. rewrite <-contents_run by done. fold t.
    destruct (decide (k ∈ (table t).*1)) as [Hk|Hk].
    + assert (k ∈ Object_keys_str (table t)) as Hk' by by rewrite Object_keys_str_perm.
      apply list_elem_of_fmap in Hk as ([k0 l] & -> & Hkl). cbn.
      rewrite (obj_get_elem k0 (get t k0) ((λ k, (k, get t k)) <$> _)).
      * symmetry. apply obj_get_elem; [by rewrite contents_keys|].
        unfold contents. apply list_elem_of_fmap. exists (k0, l). split; [|done].
        cbn. by rewrite (get_own _ _ _ (obj_get_elem _ _ _ Hnd Hkl)).
      * rewrite <-list_fmap_compose. by rewrite list_fmap_id.
      * apply list_elem_of_fmap. by exists k0.
    + rewrite (proj2 (obj_get_None k (contents t))) by by rewrite contents_keys.
      apply obj_get_None. rewrite <-list_fmap_compose, list_fmap_id.
      by rewrite Object_keys_str_perm.
Qed.

(** X12. [forEach] in a store built by the methods without a call
    [set('__proto__', v)].  Without a callback it does nothing.  With a
    callback it calls it once for every key of the table, in the order of
    [Object.keys], with the copy of the value of that key, the key, and one
    and the same object that holds the copy of every value under its
    key. *)
Theorem forEach_calls {S : Type} (Object_assign : val → val) (ops : list op)
    (f : val → string → list (string * val) → S → S) (s : S) :
  let t := run ops in
  let keys := Object_keys_str (table t) in
  let iterableTable := (λ k, (k, Object_assign (get t k))) <$> keys in
  proto_free ops →
  forEach Object_assign t None s = Some s ∧
  forEach Object_assign t (Some f) s
  = Some (foldl (λ s k, f (Object_assign (get t k)) k iterableTable s) s keys).
Proof.
  intros t keys it Hops. split; [done|].
  destruct (run_Inv ops Hops) as [R HI]. fold t in HI.
  pose proof (proj1 (inv_tab _ _ HI)) as Hnd.
  assert (NoDup keys) as Hnd' by (unfold keys; by rewrite Object_keys_str_perm).
  unfold forEach.
  rewrite listing_loop_spec;
    [|apply keys_in_table | done | intros k _; apply not_elem_of_nil].
  cbn [app mbind option_bind]. fold keys. fold it. f_equal.
  assert (∀ k, k ∈ keys →
    default undefined (obj_get k it) = Object_assign (get t k)) as Hval.
  { intros k Hk. rewrite (obj_get_elem k (Object_assign (get t k)) it); [done| |].
    - unfold it. rewrite <-list_fmap_compose. by rewrite list_fmap_id.
    - apply list_elem_of_fmap. by exists k. }
  clear Hnd'. revert s Hval. generalize it. clear.
  induction keys as [|k keys IH]; intros it s Hval; [done|].
  cbn [forEach_loop foldl]. rewrite Hval by left.
  apply IH. intros k' Hk'. apply Hval. by right.
Qed.

(** ** The shape of the store *)

Lemma kids_disjoint F : ∀ c1 c2 k1 k2 x1 x2,
  NoDup (locsF F) → obj_get c1 F = Some k1 → obj_get c2 F = Some k2 →
  c1 ≠ c2 → x1 ∈ subs k1 → x2 ∈ subs k2 → tloc x1 ≠ tloc x2.
Proof.
  assert (∀ c k x (G : list (ascii * tree)),
    obj_get c G = Some k → x ∈ subs k → x ∈ subsF G) as Hsub.
  { intros c k x G Hk Hx. apply obj_get_Some_elem in Hk.
    rewrite subs_unfold in Hx. apply elem_of_cons in Hx.
    apply elem_of_subsF. eauto. }
  induction F as [|[c k] F IH]; intros c1 c2 k1 k2 x1 x2 Hnd H1 H2 Hne Hx1 Hx2;
    [done|].
  rewrite locsF_cons in Hnd.
  change (tloc k :: locsF (tkids k) ++ locsF F)
    with ((tloc k :: locsF (tkids k)) ++ locsF F) in Hnd.
  apply NoDup_app in Hnd as (_ & Hdis & HndF).
  assert (∀ y, y ∈ subs k → tloc y ∈ tloc k :: locsF (tkids k)) as Hk.
  { intros y Hy. rewrite subs_unfold in Hy. apply elem_of_cons in Hy as [->|Hy].
    - left.
    - right. apply list_elem_of_fmap. eauto. }
  cbn in H1, H2. destruct (decide (c = c1)), (decide (c = c2)); simplify_eq.
  - intros Heq. apply (Hdis _ (Hk _ Hx1)). rewrite Heq.
    apply list_elem_of_fmap. exists x2. split; [done | by eapply Hsub].
  - intros Heq. apply (Hdis _ (Hk _ Hx2)). rewrite <-Heq.
    apply list_elem_of_fmap. exists x1. split; [done | by eapply Hsub].
  - by apply (IH c1 c2 k1 k2 x1 x2).
Qed.

Lemma walk_inj p1 : ∀ p2 r s x1 x2,
  sep r s → (r = Root ∨ r = At (tloc s)) →
  (r = Root → p1 ≠ EmptyString ∧ p2 ≠ EmptyString) →
  t_walk s p1 = Some x1 → t_walk s p2 = Some x2 → tloc x1 = tloc x2 →
  p1 = p2.
Proof.
  assert (∀ r s c k rest x, sep r s → r = At (tloc s) →
    obj_get c (tkids s) = Some k → t_walk k rest = Some x → tloc x ≠ tloc s)
    as Hbelow.
  { intros r s c k rest x Hsep -> Hk Hx Heq.
    apply (sep_notin _ _ x Hsep).
    - apply walk_subs in Hx. apply obj_get_Some_elem in Hk.
      rewrite subs_unfold in Hx. apply elem_of_cons in Hx.
      apply elem_of_subsF. eauto.
    - rewrite Heq. cbn. left. }
  induction p1 as [|c1 r1 IH]; intros [|c2 r2] r s x1 x2 Hsep Hr Hne H1 H2 Heq;
    [done|..]; cbn in H1, H2.
  - destruct Hr as [->| ->]; [by destruct Hne as [? _]|]. injection H1 as <-.
    destruct (obj_get c2 (tkids s)) as [k|] eqn:Hk; [|done].
    by destruct (Hbelow _ _ _ _ _ _ Hsep eq_refl Hk H2).
  - destruct Hr as [->| ->]; [by destruct Hne as [_ ?]|]. injection H2 as <-.
    destruct (obj_get c1 (tkids s)) as [k|] eqn:Hk; [|done].
    by destruct (Hbelow _ _ _ _ _ _ Hsep eq_refl Hk H1).
  - destruct (obj_get c1 (tkids s)) as [k1|] eqn:Hk1; [|done].
    destruct (obj_get c2 (tkids s)) as [k2|] eqn:Hk2; [|done].
    destruct (decide (c1 = c2)) as [->|Hc].
    + simplify_eq. f_equal.
      apply (IH r2 (At (tloc k1)) k1 x1 x2); [|by right|done|done|done|done].
      by eapply sep_child.
    + exfalso. apply (kids_disjoint (tkids s) c1 c2 k1 k2 x1 x2);
        [|done|done|done|by eapply walk_subs|by eapply walk_subs|done].
      unfold sep in Hsep. by apply NoDup_app in Hsep as (_ & _ & ?).
Qed.

(** X13. The store built by the methods is a tree: no node is reached from
    the root along two different strings. *)
Theorem paths_unique (ops : list op) (p1 p2 : string) (l : loc) :
  let t := run ops in
  _getClosestNode t p1 = Some (At l) → _getClosestNode t p2 = Some (At l) →
  p1 = p2.
Proof.
  intros t H1 H2. destruct (run_Tree ops) as [R HI]. fold t in HI.
  destruct (closest_node _ _ _ _ HI H1) as (x1 & Hx1 & Hl1 & Hp1 & _).
  destruct (closest_node _ _ _ _ HI H2) as (x2 & Hx2 & Hl2 & Hp2 & _).
  apply (walk_inj p1 p2 Root R x1 x2); [apply (tree_sep _ _ HI)|by left|done..|].
  by rewrite Hl1, Hl2.
Qed.

Lemma set_loop_fresh rest : ∀ t l n,
  heap t !! l = Some n → socket n = [] →
  length (heap (set_loop t (At l) rest).1) = length (heap t) + String.length rest.
Proof.
  induction rest as [|c rest IH]; intros t l n Hl Hn; cbn [set_loop].
  - cbn. lia.
  - cbn [socket_of]. unfold deref at 1. rewrite Hl, Hn. cbn [obj_get].
    pose proof (lookup_lt_Some _ _ _ Hl) as Hlt.
    erewrite IH.
    + cbn. rewrite length_insert, length_app. cbn. lia.
    + cbn. rewrite list_lookup_insert_ne by lia.
      rewrite lookup_app_r by lia. by rewrite Nat.sub_diag.
    + done.
Qed.

Lemma set_loop_alloc key : ∀ t r s,
  shape t r s →
  length (heap (set_loop t r key).1) = length (heap t) + missing t r key.
Proof.
  induction key as [|c rest IH]; intros t r s Hs; cbn [set_loop missing].
  - cbn. lia.
  - rewrite (shape_socket _ _ _ Hs), sk_get.
    destruct (obj_get c (tkids s)) as [k|] eqn:Hk; cbn [fmap option_fmap option_map].
    + apply (IH t (At (tloc k)) k). by eapply shape_child.
    + erewrite set_loop_fresh.
      * destruct r; cbn; rewrite ?length_insert, length_app; cbn; lia.
      * destruct r as [|l0]; cbn.
        -- rewrite lookup_app_r by lia. by rewrite Nat.sub_diag.
        -- destruct Hs as [[_ Hl0] _]. apply lookup_lt_Some in Hl0.
           rewrite list_lookup_insert_ne by lia.
           rewrite lookup_app_r by lia. by rewrite Nat.sub_diag.
      * done.
Qed.

(** X14. Nodes are created when they are needed only: in a store built by
    the methods, [set] creates one node for every character of the key from
    the first one for which the tree has no node on, and no other. *)
Theorem set_creates_missing_nodes (ops : list op) (key : string) (v : val) :
  let t := run ops in
  length (heap (set t key v)) = length (heap t) + missing t Root key.
Proof.
  intros t. destruct (run_Tree ops) as [R HI]. fold t in HI.
  pose proof (set_loop_alloc key t Root R (tree_shape _ _ HI)) as Hlen.
  unfold set. destruct key as [|c rest]; [cbn; lia|].
  destruct (set_loop t Root (String c rest)) as [t' [|l]]; cbn [fst] in Hlen;
    [done|].
  rewrite table_put_heap. cbn [label heap]. by rewrite length_insert.
Qed.

(** X15. In a store built by the methods without a call
    [set('__proto__', v)], when the query is a stored key and the limit is
    not negative, the result of [match] begins with the value of that
    key. *)
Theorem match_own_value_first (ops : list op) (q : string) (count : option Z)
    (fuel : nat) :
  let t := run ops in
  proto_free ops →
  is_Some (obj_get q (foldl dict_op [] ops)) →
  (∀ c, count = Some c → (0 ≤ c)%Z) →
  length (heap t) ≤ fuel →
  ∃ rest, match_ fuel t q count = Some (get t q :: rest).
Proof.
  intros t Hops [l Hl]%stored_own Hcount Hfuel; [|done]. fold t in Hl.
  destruct (run_Inv ops Hops) as [R HI]. fold t in HI.
  destruct (tab_node _ _ _ _ HI Hl) as (x & Hx & Hloc & Hnm & Hq & Hheap & _).
  unfold match_.
  rewrite (match_run_spec t q count fuel (length (heap t)))
    by (done || by apply Inv_Tree; exists R).
  unfold _getClosestNode. rewrite (closest_walk _ _ _ _ (inv_shape _ _ HI)), Hx.
  cbn [fmap option_fmap option_map].
  replace (ref_at Root q x) with (At l) by (destruct q; [done | by rewrite <-Hloc]).
  pose proof (lookup_lt_Some _ _ _ Hheap) as Hlt.
  destruct (length (heap t)) as [|d] eqn:Hd; [lia|]. cbn [visit_order scan fst].
  assert (limit_reached count [] = false) as ->.
  { destruct count as [c|]; [|done]. specialize (Hcount c eq_refl). cbn.
    destruct (Z.eqb_spec c 0); [done|]. cbn. apply Z.leb_gt. lia. }
  assert (collect t [At l] = [get t q]) as ->.
  { rewrite (get_own _ _ _ Hl). unfold collect. cbn. unfold deref.
    rewrite Hheap. cbn. rewrite Hnm. destruct q; [done|]. done. }
  cbn [app snd].
  match goal with |- context [scan count t ?rs ?st] =>
    destruct (scan_res_prefix count t rs st) as [more Hmore] end.
  exists more. cbn [fst] in Hmore. by rewrite Hmore.
Qed.

(** X16. In a store built by the methods without a call
    [set('__proto__', v)], [remove] of a stored key that is the beginning
    of another stored key creates and deletes no node and changes no
    socket: the node of the key loses its key and its value, the table
    loses its entry, and nothing else changes. *)
Theorem remove_key_with_longer_keys (ops : list op) (k k' : string) (l : loc) :
  let t := run ops in
  proto_free ops →
  obj_get k (table t) = Some l →
  is_Some (obj_get k' (table t)) → String.prefix k k' = true → k' ≠ k →
  remove t k
  = Returns (mkTrie (rootSocket t) (obj_delete k (table t)) (table_proto t)
      (<[l := mkNode (socket (deref (heap t) l)) None undefined]> (heap t))).
Proof.
  intros t Hops Hl [l' Hl'] [rest ->]%prefix_spec Hne.
  destruct (run_Inv ops Hops) as [R HI]. fold t in HI.
  destruct (tab_node _ _ _ _ HI Hl) as (x & Hx & Hloc & Hnm & Hk & Hheap & Hok).
  destruct (tab_node _ _ _ _ HI Hl') as (x' & Hx' & _).
  rewrite walk_app, Hx in Hx'. cbn in Hx'.
  destruct rest as [|c rest]; [by rewrite str_app_nil_r in Hne|].
  cbn in Hx'. destruct (obj_get c (tkids x)) as [y|] eqn:Hy; [|done].
  rewrite (remove_own _ _ _ Hl). f_equal. unfold remove_node.
  unfold deref at 1. rewrite Hheap. cbn [socket node_of].
  rewrite Object_keys_length.
  2:{ unfold sk. rewrite obj_keys_fmap. by eapply ok_keys. }
  unfold sk. rewrite length_fmap.
  destruct (tkids x); [done|]. done.
Qed.

(** X17. In every store built by the methods without a call
    [set('__proto__', v)], for a key that is not the name of a property of
    [Object.prototype]: [remove] returns, and a second [remove] of the same
    key returns and changes nothing. *)
Theorem remove_twice (ops : list op) (k : string) :
  let t := run ops in
  proto_free ops → inherited_name k = false →
  ∃ t1, remove t k = Returns t1 ∧ remove t1 k = Returns t1.
Proof.
  intros t Hops Hk.
  assert (proto_free (ops ++ [OpRemove k])) as Hops'
    by (by apply proto_free_snoc).
  pose proof (run_Inv _ Hops') as [R1 HI1]. rewrite run_snoc in HI1. fold t in HI1.
  pose proof (run_Inv _ Hops) as [R HI]. fold t in HI.
  assert (Hc : contents (apply_op t (OpRemove k)) = obj_delete k (contents t))
    by (apply contents_remove; by exists R).
  assert (Habs : obj_get k (table (apply_op t (OpRemove k))) = None).
  { destruct (obj_get k (table _)) as [l|] eqn:Hl; [|done].
    assert (obj_get k (contents (apply_op t (OpRemove k))) ≠ None) as Hn.
    { unfold contents. by rewrite obj_get_fmap, Hl. }
    by rewrite Hc, obj_get_delete_eq in Hn. }
  assert (∃ t1, remove t k = Returns t1) as [t1 Ht1].
  { destruct (obj_get k (table t)) as [e|] eqn:He.
    - rewrite (remove_own _ _ _ He). by eexists.
    - rewrite remove_absent, Hk by (done || apply (inv_proto _ _ HI)). by eexists. }
  exists t1. split; [done|].
  cbn [apply_op] in HI1, Habs. rewrite Ht1 in HI1, Habs. cbn [store_after] in *.
  by rewrite remove_absent, Hk by (done || apply (inv_proto _ _ HI1)).
Qed.

Lemma relabel_put t l nm v1 v2 key :
  l < length (heap t) →
  table_put (label (table_put (label t l nm v1) key l) l nm v2) key l
  = table_put (label t l nm v2) key l.
Proof.
  intros Hl. unfold table_put, label. case_decide; cbn.
  - f_equal. rewrite deref_insert, decide_True by done. cbn.
    by rewrite list_insert_insert_eq.
  - f_equal; [by rewrite obj_set_set|].
    rewrite deref_insert, decide_True by done. cbn.
    by rewrite list_insert_insert_eq.
Qed.

(** X18. In a store built by the methods, of two [set] of the same key in a
    row the first one leaves no trace: the store is the one that the second
    [set] alone gives. *)
Theorem set_overwrites (ops : list op) (key : string) (v1 v2 : val) :
  let t := run ops in set (set t key v1) key v2 = set t key v2.
Proof.
  intros t. destruct (decide (key = EmptyString)) as [->|Hkey]; [done|].
  destruct (run_Tree ops) as [R HT]. fold t in HT.
  destruct (Tree_set t R key v1 HT Hkey)
    as [HT1 (x & Hx & Hend & _ & _ & Hset1 & _)].
  assert (Hc : closest (set t key v1) Root key = Some (At (tloc x))).
  { rewrite (closest_walk _ _ _ _ (tree_shape _ _ HT1)), Hx. by destruct key. }
  assert (Hlt : tloc x < length (heap (set t key v1))).
  { pose proof (shape_walk _ _ _ _ _ (tree_shape _ _ HT1) Hx) as Hs.
    destruct key; [done|]. cbn [ref_at] in Hs. destruct Hs as [[_ Hlook] _].
    by eapply lookup_lt_Some. }
  destruct (set_loop t Root key) as [t' r] eqn:Hsl. cbn [snd] in Hend. subst r.
  assert (∀ v, set t key v = table_put (label t' (tloc x) (Some key) v) key (tloc x))
    as Hset.
  { intros v. unfold set. rewrite Hsl. by destruct key. }
  unfold set at 1. rewrite (set_loop_existing _ _ _ _ Hc).
  rewrite !Hset. rewrite Hset, table_put_heap in Hlt. cbn [label heap] in Hlt.
  rewrite length_insert in Hlt.
  destruct key; [done|]. by apply relabel_put.
Qed.

(** X19. In a store built by the methods the result of [match] and the
    nodes it goes through do not depend on the fuel, once the fuel is at
    least the number of nodes ever created. *)
Theorem match_fuel_irrelevant (ops : list op) (q : string) (count : option Z)
    (fuel fuel' : nat) :
  let t := run ops in
  length (heap t) ≤ fuel → length (heap t) ≤ fuel' →
  match_run fuel t q count = match_run fuel' t q count.
Proof.
  intros t H1 H2. destruct (decide (q = EmptyString)) as [->|Hq]; [done|].
  rewrite (match_run_spec t q count fuel (length (heap t)))
    by (done || apply run_Tree).
  by rewrite (match_run_spec t q count fuel' (length (heap t)))
    by (done || apply run_Tree).
Qed.

(** ** The table and the keys that it inherits *)

(** X20. After every sequence of calls without a call [set('__proto__',
    v)], the table has exactly one entry per node with a key that can be
    reached from the root: its keys are distinct, every entry leads to the
    node reached along its key, which has that key as name; every node
    reached from the root that has a key has its path as key and is the
    entry of that key; and no node is the entry of two keys. *)
Theorem index_matches_terminals (ops : list op) :
  let t := run ops in
  proto_free ops →
  NoDup (table t).*1 ∧
  (∀ k l, obj_get k (table t) = Some l →
     _getClosestNode t k = Some (At l) ∧ name (deref (heap t) l) = Some k
     ∧ k ≠ EmptyString) ∧
  (∀ p l, _getClosestNode t p = Some (At l) →
     truthy (name (deref (heap t) l)) = true →
     name (deref (heap t) l) = Some p ∧ obj_get p (table t) = Some l) ∧
  (∀ k1 k2 l, obj_get k1 (table t) = Some l → obj_get k2 (table t) = Some l →
     k1 = k2).
Proof.
  intros t Hops. destruct (run_Inv ops Hops) as [R HI]. fold t in HI. split_and!.
  - exact (proj1 (inv_tab _ _ HI)).
  - intros k l Hl.
    destruct (tab_node _ _ _ _ HI Hl) as (x & Hx & Hloc & Hnm & Hk & Hlook & _).
    split_and!; [|by rewrite (deref_Some _ _ _ Hlook) | done].
    unfold _getClosestNode. rewrite (closest_walk _ _ _ _ (inv_shape _ _ HI)), Hx.
    destruct k; [done|]. cbn. by rewrite Hloc.
  - intros p l Hc Htr.
    destruct (closest_node _ _ _ _ (Inv_tree _ _ HI) Hc)
      as (x & Hx & Hloc & Hp & Hlook & Hnm & _).
    rewrite (deref_Some _ _ _ Hlook) in *. cbn [node_of name] in *.
    apply truthy_not_None in Htr. destruct Hnm as [?|Hnm]; [done|].
    split; [done|]. apply (proj2 (inv_tab _ _ HI)). exists x. by rewrite Hnm.
  - intros k1 k2 l. by apply (tab_inj _ _ _ _ _ HI).
Qed.

(** X21. In every store built by the methods without a call
    [set('__proto__', v)], [remove] of a key that is not stored throws when
    the key is the name of a property of [Object.prototype], and returns
    with the store unchanged when it is not. *)
Theorem remove_absent_key (ops : list op) (k : string) :
  let t := run ops in
  proto_free ops → obj_get k (foldl dict_op [] ops) = None →
  remove t k = if inherited_name k then Throws else Returns t.
Proof.
  intros t Hops Hk. apply remove_absent; [by apply run_proto|].
  destruct (obj_get k (table t)) as [e|] eqn:He; [|done].
  assert (is_Some (obj_get k (foldl dict_op [] ops))) as [? ?]
    by (apply stored_own; [done | by eexists]).
  congruence.
Qed.

(** X22. In a store in which every key that the table has of its own labels
    a complete path of edges from the root, the second walk of [remove]
    does not return early for such a key, [remove] returns, and afterwards
    the table has no entry of its own for the key. *)
Theorem remove_own_key_completes (t : Trie) (k : string) (e : loc) :
  (∀ k l, obj_get k (table t) = Some l → is_Some (_getClosestNode t k)) →
  obj_get k (table t) = Some e →
  is_Some (remove_walk t Root None k) ∧
  ∃ t', remove t k = Returns t' ∧ obj_get k (table t') = None.
Proof.
  intros Hpaths He.
  assert (is_Some (remove_walk t Root None k)) as [pt Hpt]
    by (eapply remove_walk_complete, Hpaths, He).
  split; [by eexists|]. eexists. split; [by apply remove_own|].
  unfold remove_node, remove_prune. rewrite Hpt.
  destruct (negb _); [apply obj_get_delete_eq|].
  destruct pt as [[node char]|]; [|done].
  cbn [table_delete table]. apply obj_get_delete_eq.
Qed.

Lemma set_loop_table key : ∀ t r, table (set_loop t r key).1 = table t.
Proof.
  induction key as [|c key IH]; intros t r; [done|]. cbn [set_loop].
  destruct (obj_get c (socket_of t r)); [apply IH|].
  by rewrite IH, put_socket_table.
Qed.

Lemma set_table t key v :
  obj_get "__proto__" (table t) = None →
  obj_get "__proto__" (table (set t key v)) = None.
Proof.
  intros Ht. unfold set. destruct key as [|c key]; [done|].
  pose proof (set_loop_table (String c key) t Root) as Htb.
  destruct (set_loop t Root (String c key)) as [t' [|l]]; cbn [fst] in Htb;
    [by rewrite Htb|].
  unfold table_put. case_decide as Hk; cbn [label table]; rewrite Htb; [done|].
  rewrite obj_get_set. by rewrite decide_False.
Qed.

Lemma remove_table_sub t k k' :
  obj_get k' (table t) = None →
  obj_get k' (table (store_after t (remove t k))) = None.
Proof.
  intros Ht.
  assert (obj_get k' (table (remove_prune t k)) = None) as Hprune.
  { unfold remove_prune.
    destruct (remove_walk t Root None k) as [[[node char]|]|]; [|done..].
    cbn [table_delete table]. rewrite put_socket_table, obj_get_delete.
    by case_decide. }
  unfold remove. destruct (table_get t k) as [e|v| |]; cbn [store_after]; try done.
  - unfold remove_node. destruct (negb _); [|done].
    cbn [table_delete label table]. rewrite obj_get_delete. by case_decide.
  - unfold remove_payload. destruct (val_truthy _); [|done].
    destruct (val_socket_keys _) as [[|n]|]; cbn [store_after]; [done| |done].
    cbn [table_delete label table]. rewrite obj_get_delete. by case_decide.
Qed.

(** The table never has a property [__proto__] of its own. *)
Lemma run_no_own_proto ops : obj_get "__proto__" (table (run ops)) = None.
Proof.
  induction ops as [|o ops IH] using rev_ind; [done|]. rewrite run_snoc.
  destruct o as [key v|query| | |]; cbn [apply_op]; try done.
  - by apply set_table.
  - by apply remove_table_sub.
Qed.

Lemma set_proto_gen t R key v :
  Tree_with t R → key ≠ EmptyString → key = "__proto__" →
  obj_get key (table t) = None →
  table (set t key v) = table t ∧ get (set t key v) key = v ∧
  ∃ l, table_proto (set t key v) = Some l
       ∧ _getClosestNode (set t key v) key = Some (At l).
Proof.
  intros HT Hkey Hpr Hno.
  destruct (Tree_set t R key v HT Hkey)
    as [HT1 (x & Hx & Hend & Hxn & Hxv & Hset & Htb)].
  assert (Hc : _getClosestNode (set t key v) key = Some (At (tloc x))).
  { unfold _getClosestNode.
    rewrite (closest_walk _ _ _ _ (tree_shape _ _ HT1)), Hx. by destruct key. }
  destruct (closest_node _ _ _ _ HT1 Hc) as (x' & Hx' & _ & _ & Hlook & _).
  rewrite Hx in Hx'. injection Hx' as <-.
  assert (Hpr' : table_proto (set t key v) = Some (tloc x)).
  { rewrite Hset. unfold table_put. by rewrite decide_True. }
  assert (Htab : table (set t key v) = table t).
  { rewrite Hset. unfold table_put. rewrite decide_True by done.
    cbn [table]. exact Htb. }
  split_and!; [exact Htab| |exists (tloc x); split; [exact Hpr' | exact Hc]].
  unfold get, table_get. rewrite Htab, Hno, decide_True, Hpr' by done.
  rewrite (deref_Some _ _ _ Hlook). exact Hxv.
Qed.

(** X23. In every store built by the methods, [set('__proto__', v)] gives
    the table no entry: it makes the node at the end of the path of
    [__proto__] the prototype of the table, so that [get('__proto__')]
    returns [v] while the keys of the table are those of before. *)
Theorem set_proto_key (ops : list op) (v : val) :
  let t := run ops in
  let t' := set t "__proto__" v in
  table t' = table t ∧ get t' "__proto__" = v ∧
  ∃ l, table_proto t' = Some l ∧ _getClosestNode t' "__proto__" = Some (At l).
Proof.
  intros t t'. destruct (run_Tree ops) as [R HT].
  apply (set_proto_gen (run ops) R "__proto__" v HT);
    [discriminate | reflexivity | apply run_no_own_proto].
Qed.


(** What the table inherits from a node that is its prototype. *)
Lemma table_get_inherited s l :
  table_proto s = Some l →
  (obj_get "value" (table s) = None → table_get s "value" = Payload l) ∧
  (obj_get "name" (table s) = None →
     table_get s "name" = if truthy (name (deref (heap s) l)) then Foreign else Absent) ∧
  (obj_get "socket" (table s) = None → table_get s "socket" = Foreign).
Proof.
  intros Hpr. unfold table_get. rewrite Hpr.
  split_and!; intros ->; rewrite decide_False by discriminate.
  - rewrite decide_False by discriminate. rewrite decide_False by discriminate.
    by rewrite decide_True.
  - rewrite decide_False by discriminate. by rewrite decide_True.
  - by rewrite decide_True.
Qed.

Lemma proto_node_gen t R key v :
  Tree_with t R → key ≠ EmptyString → key = "__proto__" →
  obj_get "value" (table t) = None → obj_get "name" (table t) = None →
  obj_get "socket" (table t) = None →
  let t' := set t key v in
  get t' "value" = (if val_truthy v then val_value v else v) ∧
  get t' "name" = undefined ∧ get t' "socket" = undefined ∧
  remove t' "name" = Throws ∧ remove t' "socket" = Throws ∧
  (val_truthy v = false → remove t' "value" = Returns t') ∧
  (val_truthy v = true → val_socket_keys v = None → remove t' "value" = Throws).
Proof.
  intros HT Hkey Hpr Hv Hn Hs t'.
  destruct (Tree_set t R key v HT Hkey)
    as [HT1 (x & Hx & Hend & Hxn & Hxv & Hset & Htb)].
  assert (Hc : _getClosestNode t' key = Some (At (tloc x))).
  { unfold _getClosestNode.
    rewrite (closest_walk _ _ _ _ (tree_shape _ _ HT1)), Hx. by destruct key. }
  destruct (closest_node _ _ _ _ HT1 Hc) as (x' & Hx' & _ & _ & Hlook & _).
  rewrite Hx in Hx'. injection Hx' as <-.
  assert (Hpr' : table_proto t' = Some (tloc x)).
  { unfold t'. rewrite Hset. unfold table_put. by rewrite decide_True. }
  assert (Htab : table t' = table t).
  { unfold t'. rewrite Hset. unfold table_put. rewrite decide_True by done.
    cbn [table]. exact Htb. }
  destruct (table_get_inherited t' (tloc x) Hpr') as (Hgv & Hgn & Hgs).
  rewrite Htab in Hgv, Hgn, Hgs.
  specialize (Hgv Hv). specialize (Hgn Hn). specialize (Hgs Hs).
  unfold t' in *. rewrite (deref_Some _ _ _ Hlook) in Hgn.
  cbn [node_of name] in Hgn.
  rewrite Hxn, (truthy_Some _ Hkey) in Hgn.
  unfold get, remove. rewrite Hgv, Hgn, Hgs.
  unfold remove_payload. rewrite (deref_Some _ _ _ Hlook). cbn [node_of value].
  rewrite Hxv. split_and!; try done; [by intros -> | by intros -> ->].
Qed.

(** X24. In every store built by the methods in which [value], [name] and
    [socket] are not stored keys, after [set('__proto__', v)] the table
    answers these three keys with the properties of the node of
    [__proto__]: [get('value')] is [v] when [v] is falsy and [v.value]
    otherwise, [get('name')] and [get('socket')] are [undefined],
    [remove('name')] and [remove('socket')] throw, and [remove('value')]
    does nothing when [v] is falsy and throws when [v] is truthy and has no
    property [socket]. *)
Theorem proto_node_properties (ops : list op) (v : val) :
  let t := run ops in
  let t' := set t "__proto__" v in
  obj_get "value" (table t) = None → obj_get "name" (table t) = None →
  obj_get "socket" (table t) = None →
  get t' "value" = (if val_truthy v then val_value v else v) ∧
  get t' "name" = undefined ∧ get t' "socket" = undefined ∧
  remove t' "name" = Throws ∧ remove t' "socket" = Throws ∧
  (val_truthy v = false → remove t' "value" = Returns t') ∧
  (val_truthy v = true → val_socket_keys v = None → remove t' "value" = Throws).
Proof.
  intros t t' Hv Hn Hs. destruct (run_Tree ops) as [R HT].
  apply (proto_node_gen (run ops) R "__proto__" v HT);
    [discriminate | reflexivity | exact Hv | exact Hn | exact Hs].
Qed.
End Trie.

(** ** The claims on concrete stores *)

(** C1 as stated fails for the empty query: the key ["a"] starts with the
    empty string, and [match] of the empty string returns nothing. *)
Lemma match_empty_query_counterexample :
  let ops := [OpSet "a" (Some 1)] in
  ¬ ∃ vs, match_ 5 (run ops) EmptyString None = Some vs ∧
          vs ≡ₚ (filter (λ e, String.prefix EmptyString e.1 = true)
                        (foldl dict_op [] ops)).*2.
Proof.
  intros ops (vs & Hvs & Hperm). vm_compute in Hvs. simplify_eq.
  vm_compute in Hperm. by apply Permutation_nil_cons in Hperm.
Qed.

Lemma match_returns_prefix_values_witness :
  let ops := [OpSet "ab" (Some 1); OpSet "ac" (Some 2); OpSet "b" (Some 3)] in
  (proto_free ops ∧ "a" ≠ EmptyString ∧ length (heap (run ops)) ≤ 20) ∧
  (∃ vs, match_ 20 (run ops) "a" None = Some vs ∧
         vs ≡ₚ (filter (λ e, String.prefix "a" e.1 = true)
                       (foldl dict_op [] ops)).*2) ∧
  match_ 20 (run ops) EmptyString None = Some [].
Proof.
  intros ops; subst ops.
  assert (proto_free [OpSet "ab" (Some 1); OpSet "ac" (Some 2); OpSet "b" (Some 3)])
    as H0 by repeat constructor.
  assert ("a" ≠ EmptyString ∧
          length (heap (run [OpSet "ab" (Some 1); OpSet "ac" (Some 2);
                             OpSet "b" (Some 3)])) ≤ 20) as [H1 H2].
  { split; [discriminate | vm_compute; lia]. }
  split; [split_and!; [exact H0 | exact H1 | exact H2]|].
  exact (match_returns_prefix_values
           [OpSet "ab" (Some 1); OpSet "ac" (Some 2); OpSet "b" (Some 3)] "a" 20
           H0 H1 H2).
Defined.

(** C2 fails in the program.  After [set('__proto__', 1)] on a new store the
    node at the end of the path of [__proto__] can be reached from the root
    and has the key as name, and the table has no entry: the assignment
    [this.table['__proto__'] = node] has made the node the prototype of the
    table. *)
Theorem index_misses_proto_key :
  let t := run [OpSet "__proto__" (Some 1)] in
  _getClosestNode t "__proto__" = Some (At 8) ∧
  name (deref (heap t) 8) = Some "__proto__" ∧
  table t = [] ∧ Object_keys_str (table t) = [] ∧ table_proto t = Some 8.
Proof. vm_compute. done. Qed.

(** C3 as stated fails for the results of [match] with a limit: with the
    keys ["ab"], ["ac"] and ["ad"], [match] of ["a"] with the limit 2
    returns the values of ["ab"] and ["ad"]; after [remove] of ["ab"] it
    returns those of ["ac"] and ["ad"], which is not the result of before
    without the value of ["ab"]. *)
Lemma remove_frame_counterexample :
  let t := run [OpSet "ab" (Some 1); OpSet "ac" (Some 2); OpSet "ad" (Some 3)] in
  ¬ ∃ t' vs vs',
      remove t "ab" = Returns t' ∧
      match_ 10 t "a" (Some 2%Z) = Some vs ∧
      match_ 10 t' "a" (Some 2%Z) = Some vs' ∧
      vs ≡ₚ [get t "ab"] ++ vs'.
Proof.
  intros t (t' & vs & vs' & Hr & Hvs & Hvs' & Hp). subst t.
  vm_compute in Hr. injection Hr as <-.
  vm_compute in Hvs. vm_compute in Hvs'. simplify_eq.
  apply Permutation_length in Hp. vm_compute in Hp. discriminate.
Qed.

Lemma remove_frame_witness :
  let ops := [OpSet "abc" (Some 1); OpSet "ad" (Some 2); OpSet "a" (Some 3)] in
  let t := run ops in
  (proto_free ops ∧ is_Some (obj_get "abc" (foldl dict_op [] ops))) ∧
  ∃ t', remove t "abc" = Returns t' ∧
        get t' "abc" = undefined ∧
        contents t' = obj_delete "abc" (contents t) ∧
        _getClosestNode t' "ab" = None ∧
        _getClosestNode t' "ad" = _getClosestNode t "ad".
Proof.
  intros ops t; subst t ops.
  assert (proto_free [OpSet "abc" (Some 1); OpSet "ad" (Some 2); OpSet "a" (Some 3)])
    as H0 by repeat constructor.
  assert (is_Some (obj_get "abc" (foldl dict_op []
            [OpSet "abc" (Some 1); OpSet "ad" (Some 2); OpSet "a" (Some 3)]))) as H1.
  { vm_compute. by eexists. }
  split; [split; [exact H0 | exact H1]|].
  destruct (remove_frame
              [OpSet "abc" (Some 1); OpSet "ad" (Some 2); OpSet "a" (Some 3)]
              "abc" H0 H1)
    as (t' & Hr & Hget & _ & Hc & _ & _ & _ & Hkeep).
  exists t'. split_and!; [exact Hr | exact Hget | exact Hc | |].
  - vm_compute in Hr. injection Hr as <-. vm_compute. reflexivity.
  - apply (Hkeep "ad" "ad"); [|reflexivity].
    rewrite Hc. vm_compute. by eexists.
Defined.

(** C4 as stated fails for a call with the empty key: the call is ignored. *)
Lemma get_after_sets_counterexample :
  let kvs := [(EmptyString, Some 7)] in
  ¬ (get (run (sets kvs)) EmptyString = last_set EmptyString kvs ∧
     length (table (run (sets kvs))) = length (remove_dups kvs.*1)).
Proof. intros kvs [H _]. vm_compute in H. discriminate. Qed.

Lemma get_after_sets_witness :
  let kvs := [("a", Some 1); ("b", Some 2); ("a", Some 3)] in
  (("__proto__" ∉ kvs.*1) ∧ "a" ≠ EmptyString) ∧
  get (run (sets kvs)) "a" = last_set "a" kvs ∧
  length (table (run (sets kvs)))
  = length (remove_dups (filter (λ k, k ≠ EmptyString) kvs.*1)).
Proof.
  intros kvs; subst kvs.
  assert ("__proto__" ∉ [("a", Some 1); ("b", Some 2); ("a", Some 3)].*1) as H0.
  { cbn. intros Hin. repeat (apply elem_of_cons in Hin as [Hin|Hin]; [discriminate|]).
    by apply elem_of_nil in Hin. }
  assert ("a" ≠ EmptyString) as H by discriminate.
  split; [split; [exact H0 | exact H]|].
  destruct (get_after_sets [("a", Some 1); ("b", Some 2); ("a", Some 3)] H0)
    as (Hget & _ & Hlen).
  split; [exact (Hget "a" H) | exact Hlen].
Defined.

(** C5 as stated fails for the limit 0, which stands for no limit. *)
Lemma match_limit_counterexample :
  let t := run [OpSet "a" (Some 1)] in
  ¬ ∃ res, match_ 5 t "a" (Some 0%Z) = Some res ∧ (Z.of_nat (length res) ≤ 0)%Z.
Proof.
  intros t (res & Hres & Hlen). vm_compute in Hres. simplify_eq.
  simpl in Hlen. lia.
Qed.

Lemma match_limit_witness :
  let t := run [OpSet "ab" (Some 1); OpSet "ac" (Some 2); OpSet "ad" (Some 3)] in
  ((0 < 2)%Z ∧ length (heap t) ≤ 20) ∧
  ∃ all nodes res vis,
    match_run 20 t "a" None = Some (all, nodes) ∧
    match_run 20 t "a" (Some 2%Z) = Some (res, vis) ∧
    res = take (Z.to_nat 2) all ∧ length res ≤ Z.to_nat 2 ∧
    vis `prefix_of` nodes ∧
    (∀ ra r rb, vis = ra ++ r :: rb → length (collect t ra) < Z.to_nat 2).
Proof.
  intros t; subst t.
  assert ((0 < 2)%Z ∧
          length (heap (run [OpSet "ab" (Some 1); OpSet "ac" (Some 2);
                             OpSet "ad" (Some 3)])) ≤ 20) as [H1 H2].
  { split; [lia | vm_compute; lia]. }
  split; [split; [exact H1 | exact H2]|].
  exact (match_limit [OpSet "ab" (Some 1); OpSet "ac" (Some 2); OpSet "ad" (Some 3)]
           "a" 2 20 H1 H2).
Defined.

(** C6 as stated fails when the node of the key has a child: the path of
    ["a"] has no node with a key above it and no node with two children,
    and [remove] of ["a"] keeps the key ["ab"]. *)
Lemma remove_only_chain_resets_counterexample :
  let t := run [OpSet "a" (Some 1); OpSet "ab" (Some 2)] in
  is_Some (obj_get "a" (table t)) ∧
  (∀ p rest r, "a" = p +:+ rest → _getClosestNode t p = Some r →
     (rest ≠ EmptyString → truthy (name_of t r) = false) ∧
     length (socket_of t r) < 2) ∧
  ¬ ∃ t', remove t "a" = Returns t' ∧ rootSocket t' = [] ∧ table t' = [].
Proof.
  intros t; subst t. split_and!.
  - vm_compute. by eexists.
  - intros p rest r Heq Hr. destruct p as [|c1 [|c2 p]].
    + vm_compute in Hr. simplify_eq. split; [reflexivity | vm_compute; lia].
    + rewrite str_cons, str_nil in Heq. simplify_eq. vm_compute in Hr. simplify_eq.
      split; [done | vm_compute; lia].
    + rewrite !str_cons in Heq. simplify_eq.
  - intros (t' & Hr & H & _). vm_compute in Hr. injection Hr as <-.
    vm_compute in H. discriminate.
Qed.

Lemma remove_only_chain_resets_witness :
  let ops := [OpSet "ab" (Some 1)] in
  let t := run ops in
  (proto_free ops ∧
   obj_get "ab" (table t) = Some 1 ∧ socket (deref (heap t) 1) = [] ∧
   ∀ p rest r, "ab" = p +:+ rest → rest ≠ EmptyString →
     _getClosestNode t p = Some r →
     truthy (name_of t r) = false ∧ length (socket_of t r) < 2) ∧
  remove t "ab" = Returns (reset t) ∧
  rootSocket (reset t) = [] ∧ table (reset t) = [] ∧ table_proto (reset t) = None.
Proof.
  intros ops t; subst t ops.
  assert (proto_free [OpSet "ab" (Some 1)]) as H0 by repeat constructor.
  assert (obj_get "ab" (table (run [OpSet "ab" (Some 1)])) = Some 1) as H1
    by (vm_compute; reflexivity).
  assert (socket (deref (heap (run [OpSet "ab" (Some 1)])) 1) = []) as H2
    by (vm_compute; reflexivity).
  assert (∀ p rest r, "ab" = p +:+ rest → rest ≠ EmptyString →
            _getClosestNode (run [OpSet "ab" (Some 1)]) p = Some r →
            truthy (name_of (run [OpSet "ab" (Some 1)]) r) = false ∧
            length (socket_of (run [OpSet "ab" (Some 1)]) r) < 2) as H3.
  { intros p rest r Heq Hrest Hr. destruct p as [|c1 [|c2 [|c3 p]]].
    - vm_compute in Hr. simplify_eq. split; [reflexivity | vm_compute; lia].
    - rewrite str_cons, str_nil in Heq. simplify_eq. vm_compute in Hr. simplify_eq.
      split; [reflexivity | vm_compute; lia].
    - rewrite !str_cons, str_nil in Heq. simplify_eq.
    - rewrite !str_cons in Heq. simplify_eq. }
  split; [split_and!; [exact H0 | exact H1 | exact H2 | exact H3]|].
  exact (remove_only_chain_resets [OpSet "ab" (Some 1)] "ab" 1 H0 H1 H2 H3).
Defined.

(** C7 as stated fails when a character is a digit: the edge ["b"] was
    created before the edge ["1"], and [match] goes to ["1"] first. *)
Lemma match_visit_order_counterexample :
  let t := run [OpSet "ab" (Some 1); OpSet "a1" (Some 2)] in
  ¬ (match_run 10 t "a" None
     = Some (collect t (visit_order insertion_order 10 t (At 0)),
             visit_order insertion_order 10 t (At 0))).
Proof. intros t H. vm_compute in H. discriminate. Qed.

Lemma match_visit_order_witness :
  let t := run [OpSet "ab" (Some 1); OpSet "a1" (Some 2); OpSet "ac" (Some 3)] in
  ("a" ≠ EmptyString ∧ length (heap t) ≤ 10 ∧ length (heap t) ≤ 10) ∧
  match_run 10 t "a" None
  = Some match _getClosestNode t "a" with
         | Some r => (collect t (visit_order Object_keys 10 t r),
                      visit_order Object_keys 10 t r)
         | None => ([], [])
         end.
Proof.
  intros t; subst t.
  assert ("a" ≠ EmptyString) as H1 by discriminate.
  assert (length (heap (run [OpSet "ab" (Some 1); OpSet "a1" (Some 2);
                             OpSet "ac" (Some 3)])) ≤ 10) as H2
    by (vm_compute; lia).
  split; [split_and!; [exact H1 | exact H2 | exact H2]|].
  exact (match_visit_order
           [OpSet "ab" (Some 1); OpSet "a1" (Some 2); OpSet "ac" (Some 3)]
           "a" 10 10 H1 H2 H2).
Defined.

(** C9 fails in the program.  The key ["constructor"] is not in the table,
    but [this.table['constructor']] is the function that every object
    inherits, [remove] takes it for a node, and [Object.keys] of its
    property [socket], which is [undefined], throws a TypeError.  The same
    happens at the second of two [remove] of a key that was stored. *)
Theorem remove_inherited_name_throws :
  let t := run [OpSet "a" (Some 1)] in
  let t2 := run [OpSet "constructor" (Some 1); OpRemove "constructor"] in
  obj_get "constructor" (table t) = None ∧
  remove t "constructor" = Throws ∧
  obj_get "constructor" (table t2) = None ∧
  remove t2 "constructor" = Throws.
Proof. vm_compute. done. Qed.

(** C10 fails in the program.  After [set('__proto__', 1)], [set('a', 2)]
    and [remove('__proto__')] every key of the table labels a complete
    path; the table still answers the node of [__proto__], which the
    [remove] has cut off and which is its prototype; a second
    [remove('__proto__')] finds no edge at the root, returns early and
    leaves everything as it is, [get('__proto__')] included. *)
Theorem remove_walk_abandons :
  let t := run [OpSet "__proto__" (Some 1); OpSet "a" (Some 2);
                OpRemove "__proto__"] in
  table t = [("a", 9)] ∧ _getClosestNode t "a" = Some (At 9) ∧
  table_get t "__proto__" = Found 8 ∧
  remove_walk t Root None "__proto__" = None ∧
  remove t "__proto__" = Returns t ∧
  get t "__proto__" = Some 1.
Proof. vm_compute. done. Qed.

(** The order of the result of [match] without a limit is not kept by
    [remove] either: with the keys ["ab"], ["ac"] and ["ad"] the values
    come as 1, 3, 2, and after [remove] of ["ab"] as 2, 3. *)
Example remove_changes_match_order :
  let t := run [OpSet "ab" (Some 1); OpSet "ac" (Some 2); OpSet "ad" (Some 3)] in
  match_ 10 t "a" None = Some [Some 1; Some 3; Some 2] ∧
  match_ 10 (store_after t (remove t "ab")) "a" None = Some [Some 2; Some 3].
Proof. vm_compute. done. Qed.

(** ** Instances of the further properties *)

Lemma store_is_dictionary_witness :
  let ops := [OpSet "ab" (Some 1); OpSet "b" (Some 2); OpRemove "ab"] in
  proto_free ops ∧
  contents (run ops) = foldl dict_op [] ops ∧
  get (run ops) "b" = default undefined (obj_get "b" (foldl dict_op [] ops)).
Proof.
  intros ops; subst ops.
  assert (proto_free [OpSet "ab" (Some 1); OpSet "b" (Some 2); OpRemove "ab"])
    as H0 by repeat constructor.
  split; [exact H0|].
  destruct (store_is_dictionary
              [OpSet "ab" (Some 1); OpSet "b" (Some 2); OpRemove "ab"] H0)
    as [Hc Hget].
  split; [exact Hc | exact (Hget "b")].
Defined.

Lemma set_then_get_witness :
  let ops := [OpSet "ab" (Some 1); OpSet "b" (Some 2)] in
  (proto_free ops ∧ "ab" ≠ EmptyString ∧ "ab" ≠ "__proto__") ∧
  (get (set (run ops) "ab" (Some 7)) "ab" = Some 7 ∧
   ∀ k', k' ≠ "ab" → get (set (run ops) "ab" (Some 7)) k' = get (run ops) k').
Proof.
  intros ops; subst ops.
  assert (proto_free [OpSet "ab" (Some 1); OpSet "b" (Some 2)]) as H0
    by repeat constructor.
  assert ("ab" ≠ EmptyString) as H by discriminate.
  assert ("ab" ≠ "__proto__") as H' by discriminate.
  split; [exact (conj H0 (conj H H'))|].
  exact (set_then_get [OpSet "ab" (Some 1); OpSet "b" (Some 2)] "ab" (Some 7)
           H0 H H').
Defined.

Lemma node_iff_prefix_of_key_witness :
  let ops := [OpSet "abc" (Some 1)] in
  let t := run ops in
  (proto_free ops ∧ "ab" ≠ EmptyString) ∧
  (is_Some (_getClosestNode t "ab") ↔
   ∃ k, String.prefix "ab" k = true ∧ is_Some (obj_get k (foldl dict_op [] ops))).
Proof.
  intros ops t; subst t ops.
  assert (proto_free [OpSet "abc" (Some 1)]) as H0 by repeat constructor.
  assert ("ab" ≠ EmptyString) as H by discriminate.
  split; [exact (conj H0 H)|].
  exact (node_iff_prefix_of_key [OpSet "abc" (Some 1)] "ab" H0 H).
Defined.

Lemma match_ends_and_visits_once_witness :
  let t := run [OpSet "ab" (Some 1); OpSet "ac" (Some 2)] in
  length (heap t) ≤ 10 ∧
  ∃ res vis, match_run 10 t "a" (Some 1%Z) = Some (res, vis) ∧ NoDup vis.
Proof.
  intros t; subst t.
  assert (length (heap (run [OpSet "ab" (Some 1); OpSet "ac" (Some 2)])) ≤ 10)
    as H by (vm_compute; lia).
  split; [exact H|].
  exact (match_ends_and_visits_once
           [OpSet "ab" (Some 1); OpSet "ac" (Some 2)] "a" (Some 1%Z) 10 H).
Defined.

Lemma match_nonpositive_limit_witness :
  let t := run [OpSet "ab" (Some 1)] in
  ((-1 < 0)%Z ∧ 0 < 5) ∧ match_run 5 t "a" (Some (-1)%Z) = Some ([], []).
Proof.
  intros t; subst t. assert ((-1 < 0)%Z) as H1 by lia. assert (0 < 5) as H2 by lia.
  split; [exact (conj H1 H2)|].
  exact (proj2 (match_nonpositive_limit (run [OpSet "ab" (Some 1)]) "a" (-1) 5)
           H1 H2).
Defined.

Lemma set_stored_key_witness :
  let ops := [OpSet "ab" (Some 1)] in
  let t := run ops in
  (proto_free ops ∧ obj_get "ab" (table t) = Some 1) ∧
  set t "ab" (Some 5)
  = mkTrie (rootSocket t) (table t) (table_proto t)
      (<[1 := mkNode (socket (deref (heap t) 1)) (name (deref (heap t) 1)) (Some 5)]>
         (heap t)).
Proof.
  intros ops t; subst t ops.
  assert (proto_free [OpSet "ab" (Some 1)]) as H0 by repeat constructor.
  assert (obj_get "ab" (table (run [OpSet "ab" (Some 1)])) = Some 1) as H
    by (vm_compute; reflexivity).
  split; [exact (conj H0 H)|].
  exact (set_stored_key [OpSet "ab" (Some 1)] "ab" (Some 5) 1 H0 H).
Defined.

Lemma set_then_remove_witness :
  let ops := [OpSet "ab" (Some 1)] in
  (proto_free ops ∧ "ac" ≠ EmptyString ∧ "ac" ≠ "__proto__" ∧
   obj_get "ac" (foldl dict_op [] ops) = None) ∧
  ∃ t', remove (set (run ops) "ac" (Some 2)) "ac" = Returns t' ∧
        contents t' = contents (run ops).
Proof.
  intros ops; subst ops.
  assert (proto_free [OpSet "ab" (Some 1)]) as H0 by repeat constructor.
  assert ("ac" ≠ EmptyString) as H1 by discriminate.
  assert ("ac" ≠ "__proto__") as H2 by discriminate.
  assert (obj_get "ac" (foldl dict_op [] [OpSet "ab" (Some 1)]) = None) as H3
    by (vm_compute; reflexivity).
  split; [exact (conj H0 (conj H1 (conj H2 H3)))|].
  exact (set_then_remove [OpSet "ab" (Some 1)] "ac" (Some 2) H0 H1 H2 H3).
Defined.

Lemma toArray_values_witness :
  let ops := [OpSet "b" (Some 1); OpSet "7" (Some 2)] in
  let t := run ops in
  proto_free ops ∧
  ∃ vs, toArray t = Some vs ∧
        vs = get t <$> Object_keys_str (table t) ∧
        vs ≡ₚ (foldl dict_op [] ops).*2.
Proof.
  intros ops t; subst t ops.
  assert (proto_free [OpSet "b" (Some 1); OpSet "7" (Some 2)]) as H0
    by repeat constructor.
  split; [exact H0|].
  exact (toArray_values [OpSet "b" (Some 1); OpSet "7" (Some 2)] H0).
Defined.

Lemma toArray_insertion_order_witness :
  let ops := [OpSet "b" (Some 1); OpSet "a" (Some 2)] in
  (proto_free ops ∧ ∀ k, k ∈ (table (run ops)).*1 → array_index k = None) ∧
  toArray (run ops) = Some (foldl dict_op [] ops).*2.
Proof.
  intros ops; subst ops.
  assert (proto_free [OpSet "b" (Some 1); OpSet "a" (Some 2)]) as H0
    by repeat constructor.
  assert (∀ k, k ∈ (table (run [OpSet "b" (Some 1); OpSet "a" (Some 2)])).*1 →
               array_index k = None) as H.
  { assert ((table (run [OpSet "b" (Some 1); OpSet "a" (Some 2)])).*1
            = ["b"; "a"]) as -> by (vm_compute; reflexivity).
    intros k Hk.
    apply elem_of_cons in Hk as [->|Hk]; [vm_compute; reflexivity|].
    apply elem_of_cons in Hk as [->|Hk]; [vm_compute; reflexivity|].
    destruct (proj1 (elem_of_nil k) Hk). }
  split; [exact (conj H0 H)|].
  exact (toArray_insertion_order [OpSet "b" (Some 1); OpSet "a" (Some 2)] H0 H).
Defined.

Lemma toObject_snapshot_witness :
  let ops := [OpSet "b" (Some 1); OpSet "7" (Some 2)] in
  let t := run ops in
  proto_free ops ∧
  ∃ obj, toObject t = Some obj ∧
         obj.*1 = Object_keys_str (table t) ∧
         ∀ k, obj_get k obj = obj_get k (foldl dict_op [] ops).
Proof.
  intros ops t; subst t ops.
  assert (proto_free [OpSet "b" (Some 1); OpSet "7" (Some 2)]) as H0
    by repeat constructor.
  split; [exact H0|].
  exact (toObject_snapshot [OpSet "b" (Some 1); OpSet "7" (Some 2)] H0).
Defined.

Lemma forEach_calls_witness :
  let ops := [OpSet "b" (Some 1); OpSet "a" (Some 2)] in
  let t := run ops in
  let f := λ (_ : option nat) (k : string) (_ : list (string * option nat))
             (s : list string), s ++ [k] in
  proto_free ops ∧
  forEach (S := list string) id t None [] = Some [] ∧
  forEach id t (Some f) []
  = Some (foldl (λ s k, f (get t k) k
                          ((λ k, (k, get t k)) <$> Object_keys_str (table t)) s)
                [] (Object_keys_str (table t))).
Proof.
  intros ops t f; subst t ops.
  assert (proto_free [OpSet "b" (Some 1); OpSet "a" (Some 2)]) as H0
    by repeat constructor.
  split; [exact H0|].
  exact (forEach_calls id [OpSet "b" (Some 1); OpSet "a" (Some 2)] f [] H0).
Defined.

Lemma paths_unique_witness :
  let t := run [OpSet "ab" (Some 1)] in
  (_getClosestNode t "a" = Some (At 0) ∧ _getClosestNode t "a" = Some (At 0)) ∧
  "a" = "a".
Proof.
  intros t; subst t.
  assert (_getClosestNode (run [OpSet "ab" (Some 1)]) "a" = Some (At 0)) as H
    by (vm_compute; reflexivity).
  split; [exact (conj H H)|].
  exact (paths_unique [OpSet "ab" (Some 1)] "a" "a" 0 H H).
Defined.

Lemma match_own_value_first_witness :
  let ops := [OpSet "a" (Some 1); OpSet "ab" (Some 2)] in
  let t := run ops in
  (proto_free ops ∧ is_Some (obj_get "a" (foldl dict_op [] ops)) ∧
   (∀ c, Some 1%Z = Some c → (0 ≤ c)%Z) ∧ length (heap t) ≤ 10) ∧
  ∃ rest, match_ 10 t "a" (Some 1%Z) = Some (get t "a" :: rest).
Proof.
  intros ops t; subst t ops.
  assert (proto_free [OpSet "a" (Some 1); OpSet "ab" (Some 2)]) as H0
    by repeat constructor.
  assert (is_Some (obj_get "a"
            (foldl dict_op [] [OpSet "a" (Some 1); OpSet "ab" (Some 2)]))) as H1
    by (vm_compute; eexists; reflexivity).
  assert (∀ c, Some 1%Z = Some c → (0 ≤ c)%Z) as H2
    by (intros c [= <-]; lia).
  assert (length (heap (run [OpSet "a" (Some 1); OpSet "ab" (Some 2)])) ≤ 10)
    as H3 by (vm_compute; lia).
  split; [exact (conj H0 (conj H1 (conj H2 H3)))|].
  exact (match_own_value_first [OpSet "a" (Some 1); OpSet "ab" (Some 2)]
           "a" (Some 1%Z) 10 H0 H1 H2 H3).
Defined.

Lemma remove_key_with_longer_keys_witness :
  let ops := [OpSet "a" (Some 1); OpSet "ab" (Some 2)] in
  let t := run ops in
  (proto_free ops ∧
   obj_get "a" (table t) = Some 0 ∧ is_Some (obj_get "ab" (table t)) ∧
   String.prefix "a" "ab" = true ∧ "ab" ≠ "a") ∧
  remove t "a"
  = Returns (mkTrie (rootSocket t) (obj_delete "a" (table t)) (table_proto t)
      (<[0 := mkNode (socket (deref (heap t) 0)) None undefined]> (heap t))).
Proof.
  intros ops t; subst t ops.
  assert (proto_free [OpSet "a" (Some 1); OpSet "ab" (Some 2)]) as H0
    by repeat constructor.
  assert (obj_get "a" (table (run [OpSet "a" (Some 1); OpSet "ab" (Some 2)]))
          = Some 0) as H1 by (vm_compute; reflexivity).
  assert (is_Some (obj_get "ab"
            (table (run [OpSet "a" (Some 1); OpSet "ab" (Some 2)])))) as H2
    by (vm_compute; eexists; reflexivity).
  assert (String.prefix "a" "ab" = true) as H3 by reflexivity.
  assert ("ab" ≠ "a") as H4 by discriminate.
  split; [exact (conj H0 (conj H1 (conj H2 (conj H3 H4))))|].
  exact (remove_key_with_longer_keys [OpSet "a" (Some 1); OpSet "ab" (Some 2)]
           "a" "ab" 0 H0 H1 H2 H3 H4).
Defined.

Lemma remove_twice_witness :
  let ops := [OpSet "ab" (Some 1); OpSet "ac" (Some 2)] in
  let t := run ops in
  (proto_free ops ∧ inherited_name "ab" = false) ∧
  ∃ t1, remove t "ab" = Returns t1 ∧ remove t1 "ab" = Returns t1.
Proof.
  intros ops t; subst t ops.
  assert (proto_free [OpSet "ab" (Some 1); OpSet "ac" (Some 2)]) as H0
    by repeat constructor.
  assert (inherited_name "ab" = false) as H1 by (vm_compute; reflexivity).
  split; [exact (conj H0 H1)|].
  exact (remove_twice [OpSet "ab" (Some 1); OpSet "ac" (Some 2)] "ab" H0 H1).
Defined.

Lemma match_fuel_irrelevant_witness :
  let t := run [OpSet "ab" (Some 1); OpSet "ac" (Some 2)] in
  (length (heap t) ≤ 3 ∧ length (heap t) ≤ 8) ∧
  match_run 3 t "a" None = match_run 8 t "a" None.
Proof.
  intros t; subst t.
  assert (length (heap (run [OpSet "ab" (Some 1); OpSet "ac" (Some 2)])) ≤ 3)
    as H1 by (vm_compute; lia).
  assert (length (heap (run [OpSet "ab" (Some 1); OpSet "ac" (Some 2)])) ≤ 8)
    as H2 by (vm_compute; lia).
  split; [exact (conj H1 H2)|].
  exact (match_fuel_irrelevant [OpSet "ab" (Some 1); OpSet "ac" (Some 2)]
           "a" None 3 8 H1 H2).
Defined.

Lemma index_matches_terminals_witness :
  let ops := [OpSet "ab" (Some 1); OpSet "a" (Some 2); OpRemove "ab"] in
  let t := run ops in
  proto_free ops ∧
  NoDup (table t).*1 ∧
  (_getClosestNode t "a" = Some (At 0) ∧ name (deref (heap t) 0) = Some "a"
   ∧ "a" ≠ EmptyString).
Proof.
  intros ops t; subst t ops.
  assert (proto_free [OpSet "ab" (Some 1); OpSet "a" (Some 2); OpRemove "ab"])
    as H0 by repeat constructor.
  split; [exact H0|].
  destruct (index_matches_terminals
              [OpSet "ab" (Some 1); OpSet "a" (Some 2); OpRemove "ab"] H0)
    as (Hnd & Hentry & _).
  split; [exact Hnd|].
  apply (Hentry "a" 0). vm_compute. reflexivity.
Defined.

Lemma remove_absent_key_witness :
  let ops := [OpSet "ab" (Some 1)] in
  let t := run ops in
  (proto_free ops ∧ obj_get "toString" (foldl dict_op [] ops) = None) ∧
  remove t "toString" = if inherited_name "toString" then Throws else Returns t.
Proof.
  intros ops t; subst t ops.
  assert (proto_free [OpSet "ab" (Some 1)]) as H0 by repeat constructor.
  assert (obj_get "toString" (foldl dict_op [] [OpSet "ab" (Some 1)]) = None)
    as H1 by (vm_compute; reflexivity).
  split; [exact (conj H0 H1)|].
  exact (remove_absent_key [OpSet "ab" (Some 1)] "toString" H0 H1).
Defined.

Lemma remove_own_key_completes_witness :
  let t := run [OpSet "ab" (Some 1); OpSet "ac" (Some 2)] in
  ((∀ k l, obj_get k (table t) = Some l → is_Some (_getClosestNode t k)) ∧
   obj_get "ab" (table t) = Some 1) ∧
  is_Some (remove_walk t Root None "ab") ∧
  ∃ t', remove t "ab" = Returns t' ∧ obj_get "ab" (table t') = None.
Proof.
  intros t; subst t.
  assert (∀ k l,
            obj_get k (table (run [OpSet "ab" (Some 1); OpSet "ac" (Some 2)]))
            = Some l →
            is_Some (_getClosestNode
                       (run [OpSet "ab" (Some 1); OpSet "ac" (Some 2)]) k)) as H1.
  { intros k l Hk.
    assert (table (run [OpSet "ab" (Some 1); OpSet "ac" (Some 2)])
            = [("ab", 1); ("ac", 2)]) as Htab by (vm_compute; reflexivity).
    rewrite Htab in Hk. apply obj_get_Some_elem in Hk.
    apply elem_of_cons in Hk as [[= -> ->]|Hk]; [vm_compute; eexists; reflexivity|].
    apply elem_of_cons in Hk as [[= -> ->]|Hk]; [vm_compute; eexists; reflexivity|].
    destruct (proj1 (elem_of_nil _) Hk). }
  assert (obj_get "ab" (table (run [OpSet "ab" (Some 1); OpSet "ac" (Some 2)]))
          = Some 1) as H2 by (vm_compute; reflexivity).
  split; [exact (conj H1 H2)|].
  exact (remove_own_key_completes
           (run [OpSet "ab" (Some 1); OpSet "ac" (Some 2)]) "ab" 1 H1 H2).
Defined.

Lemma proto_node_properties_witness :
  let t := run [OpSet "a" (Some 2)] in
  let t' := set t "__proto__" (Some 0) in
  (obj_get "value" (table t) = None ∧ obj_get "name" (table t) = None ∧
   obj_get "socket" (table t) = None) ∧
  get t' "value" = Some 0 ∧ remove t' "name" = Throws ∧
  remove t' "value" = Returns t'.
Proof.
  intros t t'; subst t' t.
  assert (obj_get "value" (table (run [OpSet "a" (Some 2)])) = None) as H1
    by (vm_compute; reflexivity).
  assert (obj_get "name" (table (run [OpSet "a" (Some 2)])) = None) as H2
    by (vm_compute; reflexivity).
  assert (obj_get "socket" (table (run [OpSet "a" (Some 2)])) = None) as H3
    by (vm_compute; reflexivity).
  split; [exact (conj H1 (conj H2 H3))|].
  destruct (proto_node_properties [OpSet "a" (Some 2)] (Some 0) H1 H2 H3)
    as (Hg & _ & _ & Hr & _ & Hrv & _).
  split_and!; [exact Hg | exact Hr | exact (Hrv eq_refl)].
Defined.
